(** * wirepig: the matching and dispatch engine

    A shallow embedding of the JavaScript sources

    - [src/lib.js]         type tests, [safeInvoke], [compare], the resolvers
    - [src/validate.js]    the validator combinators and [conform]
    - [src/http/schema.js] and [src/tcp/schema.js]: the mock schemas
    - [src/http/index.js]  the HTTP [Mock] and [MockSet]
    - [src/tcp/index.js]   the TCP [Mock] and [MockSet]
    - [src/helpers.js]     the text response helper

    followed by the properties of the specification that are stated over
    them. *)

From Stdlib Require Import ZArith List Bool Arith Lia.
From Stdlib Require Import Strings.String Strings.Ascii Strings.Byte.
From Stdlib Require Import DecimalString.
Import ListNotations.

Local Open Scope string_scope.
Local Open Scope list_scope.
Local Open Scope Z_scope.

(** String concatenation, kept apart from the [++] of lists. *)
Infix "+++" := String.append (at level 60, right associativity).

Set Implicit Arguments.
Set Warnings "-register-all".
Set Warnings "-automation".


(** ** JavaScript values

    The predicates of [validate.js] are closures.  The late-binding wrapper
    that [isFunction] returns owns one of them, so a function value has to
    hold a predicate: predicates are kept as data ([pred]) and run by
    [V.validate], and they are declared before the values.  The module
    keeps the names of [validate.js] apart from those of the logic. *)

Module P.

Inductive pred : Type :=
| always
| isString
| isPlainObject
| isBuffer
| isBoolean
| isRegExp
| isUndefined
| isInteger
| isArray
| isValidStatusCode                       (* http/schema.js *)
| isPositive                              (* http/schema.js *)
| obj (o : list (string * pred))
| arr (valuePredicate : pred)
| keyvals (keyPredicate valuePredicate : pred)
| or (predicates : list pred)
| and (predicates : list pred)
| alias (p : pred) (message : string)
| branches (branch_next : list (pred * pred)) (branchMessage : string)
| isFunction (predicate : option pred)
| exclusive (groupA groupB : list string).

(** [branch] is given two arrays of the same length (it asserts it) and
    walks them by index; here the two arrays are zipped. *)
Definition branch (branchPredicates nextPredicates : list pred)
    (branchMessage : string) : pred :=
  branches (combine branchPredicates nextPredicates) branchMessage.

Definition branchWithFunction (branchPredicates nextPredicates : list pred)
    (branchMessage : string) : pred :=
  let valuePredicate := branch branchPredicates nextPredicates branchMessage in
  branch (branchPredicates ++ [isFunction (Some valuePredicate)])
         (nextPredicates ++ [always])
         (branchMessage +++ " or function returning same").

End P.

(** A function value is a function of the user or of the host, known by
    its name, or the [lateValidator] closure of [isFunction], which
    captures [predicate], [path] and the wrapped [value].  Among the
    functions of the host, [Object] is the constructor of the plain
    objects and [Object.prototype.k] is the member [k] that every object
    inherits. *)
Inductive func : Type :=
| User (name : string)
| Late (predicate : P.pred) (path : list string) (value : func).

(** The values the library tells apart.  Objects are kept as their
    [Object.entries], in order; a name that an object does not own is
    read from [Object.prototype] (see [read]).  [VPinned r] is the plain
    object [{ connection }] that a head TCP mock allocates: it is shared
    by reference and mutated, so it lives in the store of the TCP mock set
    and the value only names it; its field is read by the TCP matcher
    alone.  [VPrototype] is [Object.prototype]
    itself, which [v.__proto__] reads.  [VOther] stands for any other
    (truthy) host value: a non-integer number, a Date, a Map, a class
    instance.  The prototype of an object is [Object.prototype]: an
    object whose prototype was replaced is no value of the embedding. *)
Inductive value : Type :=
| VUndefined
| VNull
| VBool (b : bool)
| VInt (n : Z)
| VStr (s : string)
| VBuf (b : list byte)
| VRegExp (source : string)
| VFun (f : func)
| VObj (entries : list (string * value))
| VArr (elements : list value)
| VPinned (r : nat)
| VOther (n : nat)
| VPrototype.

(** Node's [http.IncomingMessage], as far as the library reads it;
    [headers_host] is [req.headers.host]. *)
Record IncomingMessage : Type := {
  method : string;
  url : string;
  httpVersion : string;
  rawHeaders : list string;
  headers_host : option string
}.

Record exn : Type := { name : string; message : string }.

Inductive M (A : Type) : Type :=
| Ret (a : A)
| Throw (e : exn).
Arguments Throw {A} e.

Definition bind {A B : Type} (m : M A) (k : A -> M B) : M B :=
  match m with
  | Ret a => k a
  | Throw e => Throw e
  end.

Notation "x <- m ;; k" := (bind m (fun x => k))
  (at level 61, m at next level, right associativity).

Inductive arg : Type :=
| AVal (v : value)
| AReq (r : IncomingMessage).

(** The host environment: Node's [util.inspect], [Buffer], [RegExp] and
    [URL], and the functions the user passes in.  [URL] returns [pathname]
    and [search], or nothing when the constructor throws.  A function of
    the user returns a value or throws, and is taken to do the same on the
    same arguments; a regular expression is taken to keep no state between
    two tests (no [g] or [y] flag).  The engine words the messages of its
    own TypeErrors: [null_pattern k] is the message when a parameter
    pattern that binds [k] is matched against [null], and [not_iterable v]
    the message when [v], which cannot be iterated, is spread into an
    array. *)
Class Host : Type := {
  inspect : value -> string;
  inspect_depth3 : value -> string;
  ToString : value -> string;
  utf8_decode : list byte -> string;
  utf8_encode : string -> list byte;
  regexp_test : string -> string -> bool;
  user_call : string -> list arg -> M value;
  URL : string -> string -> option (string * string);
  null_pattern : string -> string;
  not_iterable : value -> string
}.

(** ** Properties of objects

    [get v k] is the own property [k] of [v], [undefined] when there is
    none: it is [v[k]] (and [v?.k]) for the names that [Object.prototype]
    does not define, which are the names that the library spells out. *)
Fixpoint assoc (k : string) (es : list (string * value)) : value :=
  match es with
  | [] => VUndefined
  | (k', v) :: es' => if String.eqb k k' then v else assoc k es'
  end.

Definition get (v : value) (k : string) : value :=
  match v with
  | VObj es => assoc k es
  | _ => VUndefined
  end.

(** [o[k] = v] on an own data property. *)
Fixpoint set (es : list (string * value)) (k : string) (v : value)
    : list (string * value) :=
  match es with
  | [] => [(k, v)]
  | (k', v') :: es' =>
      if String.eqb k k' then (k, v) :: es' else (k', v') :: set es' k v
  end.

(** [Object.entries].  The only field of a pinning record holds a socket,
    which no comparator or validator of the library reads, and the members
    of [Object.prototype] are not enumerable. *)
Definition entries (v : value) : list (string * value) :=
  match v with
  | VObj es => es
  | _ => []
  end.

(** The names that every object inherits from [Object.prototype], and
    what it inherits under a name: the constructor [Object], a member
    function, or for [__proto__] the prototype itself. *)
Definition Object_prototype : list string :=
  ["constructor"; "__proto__"; "hasOwnProperty"; "isPrototypeOf";
   "propertyIsEnumerable"; "toLocaleString"; "toString"; "valueOf";
   "__defineGetter__"; "__defineSetter__"; "__lookupGetter__";
   "__lookupSetter__"].

Definition own_names (names : list string) : bool :=
  forallb (fun k => negb (existsb (String.eqb k) Object_prototype)) names.

Definition inherited (k : string) : value :=
  if String.eqb k "constructor" then VFun (User "Object")
  else if String.eqb k "__proto__" then VPrototype
  else if existsb (String.eqb k) Object_prototype then
    VFun (User ("Object.prototype." +++ k))
  else VUndefined.

Definition own (k : string) (es : list (string * value)) : bool :=
  existsb (fun kv => String.eqb k (fst kv)) es.

(** [v[k]] for any name [k], where the library reads an object at a name
    that it was given: the own property if there is one, what
    [Object.prototype] gives otherwise.  (The library reads a value that
    is no such object at names of its own only, where [get] is used.) *)
Definition read (v : value) (k : string) : value :=
  match v with
  | VObj es => if own k es then assoc k es else inherited k
  | VPinned _ => inherited k
  | VPrototype => if String.eqb k "__proto__" then VNull else inherited k
  | _ => VUndefined
  end.

(** [o[k] = v] on an object that the library builds key by key.  The name
    [__proto__] runs the setter of [Object.prototype], which makes no own
    property; given an object or [null] it replaces the prototype, which
    takes the object out of the embedding. *)
Definition assign (es : list (string * value)) (k : string) (v : value)
    : list (string * value) :=
  if String.eqb k "__proto__" then es else set es k v.

(** ** lib.js: type tests *)

Definition _isFunction (v : value) : bool :=
  match v with VFun _ => true | _ => false end.
Definition _isString (v : value) : bool :=
  match v with VStr _ => true | _ => false end.
Definition _isBuffer (v : value) : bool :=
  match v with VBuf _ => true | _ => false end.
Definition _isBoolean (v : value) : bool :=
  match v with VBool _ => true | _ => false end.
(** [v !== null && v !== undefined && v.constructor === Object] *)
Definition _isPlainObject (v : value) : bool :=
  match read v "constructor" with
  | VFun (User f) => String.eqb f "Object"
  | _ => false
  end.
Definition _isArray (v : value) : bool :=
  match v with VArr _ => true | _ => false end.
Definition _isInteger (v : value) : bool :=
  match v with VInt _ => true | _ => false end.
Definition _isRegExp (v : value) : bool :=
  match v with VRegExp _ => true | _ => false end.
Definition _isUndefined (v : value) : bool :=
  match v with VUndefined => true | _ => false end.

(** JavaScript truthiness, as [!x], [if (x)] and [Array.prototype.find]
    read a value. *)
Definition truthy (v : value) : bool :=
  match v with
  | VUndefined | VNull => false
  | VBool b => b
  | VInt n => negb (n =? 0)
  | VStr s => negb (String.eqb s "")
  | _ => true
  end.

Definition index_string (i : nat) : string :=
  NilEmpty.string_of_uint (Nat.to_uint i).

Definition newline : string := String (ascii_of_nat 10) "".

Definition null {A : Type} (l : list A) : bool :=
  match l with [] => true | _ => false end.

(** Loops with an index and loops that leave early. *)
Section Loops.
Context {A B : Type}.

Fixpoint all_entries (f : nat -> A -> bool) (i : nat) (l : list A) : bool :=
  match l with
  | [] => true
  | x :: l' => if f i x then all_entries f (S i) l' else false
  end.

Fixpoint find_index (f : A -> bool) (i : nat) (l : list A) : option nat :=
  match l with
  | [] => None
  | x :: l' => if f x then Some i else find_index f (S i) l'
  end.

Fixpoint update (l : list A) (i : nat) (f : A -> A) : list A :=
  match l, i with
  | [], _ => []
  | x :: l', O => f x :: l'
  | x :: l', S i' => x :: update l' i' f
  end.
End Loops.

(** ** validate.js *)

Module V.
Import P.

Section Validate.
Context {env : Host}.

Definition result : Type := (value * list string)%type.

Definition r (v : value) (errors : list string) : result := (v, errors).

Definition error (path : list string) (message : string) (v : value)
    : list string :=
  ["`" +++ String.concat "." path +++ "` " +++ message
       +++ " (got " +++ inspect v +++ ")"].

(** [Intl.ListFormat('en', { style: 'long', type: 'disjunction' })]. *)
Fixpoint arrayOr_tail (a : list string) : string :=
  match a with
  | [] => ""
  | [x] => ", or " +++ x
  | x :: a' => ", " +++ x +++ arrayOr_tail a'
  end.

Definition arrayOr (a : list string) : string :=
  match a with
  | [] => ""
  | [x] => x
  | [x; y] => x +++ " or " +++ y
  | x :: a' => x +++ arrayOr_tail a'
  end.

(** [p.name]: the exported arrow functions are named after their binding,
    the closures that the combinators return have no name. *)
Definition name_of (p : pred) : string :=
  match p with
  | always => "always"
  | isString => "isString"
  | isPlainObject => "isPlainObject"
  | isBuffer => "isBuffer"
  | isBoolean => "isBoolean"
  | isRegExp => "isRegExp"
  | isUndefined => "isUndefined"
  | isInteger => "isInteger"
  | isArray => "isArray"
  | isValidStatusCode => "isValidStatusCode"
  | isPositive => "isPositive"
  | _ => ""
  end.

(** [[...path.slice(0, -1), `${path.slice(-1)[0] ?? ''}()`]] *)
Definition funcPath (path : list string) : list string :=
  removelast path ++ [last path "" +++ "()"].

(** The loops of [obj], [arr], [keyvals], [or], [and] and [branch], over
    the call [run p v path] of a predicate. *)
Section Bodies.
Variable run : pred -> value -> list string -> result.

Fixpoint obj_loop (o : list (string * pred)) (v : value) (path : list string)
    (conformed : list (string * value)) (errors : list string) : result :=
  match o with
  | [] => r (VObj conformed) errors
  | (k, p) :: o' =>
      let '(c, keyErrors) := run p (read v k) (path ++ [k]) in
      obj_loop o' v path
        (if _isUndefined c then conformed else assign conformed k c)
        (errors ++ keyErrors)
  end.

Fixpoint arr_loop (p : pred) (vs : list value) (i : nat) (path : list string)
    (conformed : list value) (errors : list string) : result :=
  match vs with
  | [] => r (VArr conformed) errors
  | v :: vs' =>
      let '(c, elementErrors) := run p v (path ++ [index_string i]) in
      arr_loop p vs' (S i) path (conformed ++ [c]) (errors ++ elementErrors)
  end.

Definition key_of (cK : value) : string :=
  match cK with
  | VStr s => s
  | _ => ToString cK
  end.

Fixpoint keyvals_loop (kp vp : pred) (es : list (string * value))
    (path : list string) (conformed : list (string * value))
    (errors : list string) : result :=
  match es with
  | [] => r (VObj conformed) errors
  | (k, v) :: es' =>
      let '(cK, keyErrors) := run kp (VStr k) (path ++ ["$key"]) in
      let '(cV, valueErrors) := run vp v (path ++ [k]) in
      keyvals_loop kp vp es' path (assign conformed (key_of cK) cV)
        (errors ++ keyErrors ++ valueErrors)
  end.

Fixpoint or_loop (ps : list pred) (v : value) (path : list string)
    : option result :=
  match ps with
  | [] => None
  | p :: ps' =>
      let res := run p v path in
      if null (snd res) then Some res else or_loop ps' v path
  end.

Fixpoint and_loop (ps : list pred) (v conformed : value) (path : list string)
    : result :=
  match ps with
  | [] => r conformed []
  | p :: ps' =>
      let '(c, errors) := run p conformed path in
      if null errors then and_loop ps' v c path else r v errors
  end.

Fixpoint branch_loop (bn : list (pred * pred)) (v : value)
    (path : list string) : option result :=
  match bn with
  | [] => None
  | (b, n) :: bn' =>
      let '(conformed, branchErrors) := run b v path in
      if null branchErrors then Some (run n conformed path)
      else branch_loop bn' v path
  end.

End Bodies.

Definition int_of (v : value) : option Z :=
  match v with VInt n => Some n | _ => None end.

(** [value >= lo] and [value <= hi]; the two predicates that use them run
    behind [isInteger]. *)
Definition ge (v : value) (lo : Z) : bool :=
  match int_of v with Some n => lo <=? n | None => false end.
Definition le (v : value) (hi : Z) : bool :=
  match int_of v with Some n => n <=? hi | None => false end.

Definition defined (v : value) (group : list string) : list string :=
  filter (fun e => negb (_isUndefined (read v e))) group.

(** The body of each predicate: [validate p v path] is [p(v, path)]. *)
Fixpoint validate (p : pred) (v : value) (path : list string) {struct p}
    : result :=
  match p with
  | always => r v []
  | isString =>
      r v (if _isString v then [] else error path "must be string" v)
  | isPlainObject =>
      r v (if _isPlainObject v then []
           else error path "must be plain object" v)
  | isBuffer =>
      r v (if _isBuffer v then [] else error path "must be buffer" v)
  | isBoolean =>
      r v (if _isBoolean v then [] else error path "must be boolean" v)
  | isRegExp =>
      r v (if _isRegExp v then []
           else error path "must be regular expression" v)
  | isUndefined =>
      r v (if _isUndefined v then [] else error path "must be undefined" v)
  | isInteger =>
      r v (if _isInteger v then [] else error path "must be integer" v)
  | isArray =>
      r v (if _isArray v then [] else error path "must be array" v)
  | isValidStatusCode =>
      r v (if ge v 100 && le v 599 then []
           else error path "must be valid status code" v)
  | isPositive =>
      r v (if ge v 0 then [] else error path "must be postive" v)
  | obj o =>
      if negb (_isPlainObject v) then
        r v (error path "must be plain object" v)
      else obj_loop validate o v path [] []
  | arr valuePredicate =>
      match v with
      | VArr vs => arr_loop validate valuePredicate vs 0 path [] []
      | _ => r v (error path "must be array" v)
      end
  | keyvals keyPredicate valuePredicate =>
      if negb (_isPlainObject v) then
        r v (error path "must be plain object" v)
      else keyvals_loop validate keyPredicate valuePredicate (entries v)
             path [] []
  | or predicates =>
      match or_loop validate predicates v path with
      | Some res => res
      | None =>
          r v (error path
                 ("must satisfy one of {"
                  +++ String.concat ", " (map name_of predicates) +++ "}") v)
      end
  | and predicates => and_loop validate predicates v v path
  | alias q message =>
      let '(conformed, errors) := validate q v path in
      r conformed (if null errors then [] else error path message v)
  | branches bn branchMessage =>
      match branch_loop validate bn v path with
      | Some res => res
      | None => r v (error path branchMessage v)
      end
  | isFunction predicate =>
      match v with
      | VFun f =>
          match predicate with
          | None => r v []
          | Some q => r (VFun (Late q path f)) []
          end
      | _ => r v (error path "must be function" v)
      end
  | exclusive groupA groupB =>
      if negb (_isPlainObject v) then
        r v (error path "must be plain object" v)
      else
        let groupADefined := defined v groupA in
        let groupBDefined := defined v groupB in
        if negb (null groupADefined) && negb (null groupBDefined) then
          r v (error path
                 (arrayOr groupADefined
                  +++ " cannot be defined at the same time as "
                  +++ arrayOr groupBDefined) v)
        else r v []
  end.

Definition ValidationError (message : string) : exn :=
  {| name := "ValidationError"; message := message |}.

Definition conform (res : result) : M value :=
  let '(conformed, errors) := res in
  if null errors then Ret conformed
  else
    Throw (ValidationError
             ("Validation failed. Resolve the following issues:" +++ newline
              +++ String.concat newline (map (fun e => "  * " +++ e) errors))).

(** Calling a function value.  For the wrapper this is the body of
    [lateValidator]: [conform(predicate(value(...args), funcPath))]. *)
Fixpoint call (f : func) (args : list arg) : M value :=
  match f with
  | User n => user_call n args
  | Late predicate path g =>
      v <- call g args ;;
      conform (validate predicate v (funcPath path))
  end.

End Validate.
End V.

(** ** lib.js: the comparator and the resolvers *)

Section Lib.
Context {env : Host}.

Definition valueToString (v : value) : string := inspect_depth3 v.

(** [try { return f(...args) } catch (e) { D(...) }  return defaultValue] *)
Definition safeInvoke (f : value) (defaultValue : value) (args : list arg)
    : value :=
  match f with
  | VFun g =>
      match V.call g args with
      | Ret v => v
      | Throw _ => defaultValue
      end
  | _ => f
  end.

Fixpoint bytes_eqb (a b : list byte) : bool :=
  match a, b with
  | [], [] => true
  | x :: a', y :: b' => Byte.eqb x y && bytes_eqb a' b'
  | _, _ => false
  end.

(** [_compare]; [compare] is [_compare] followed by a trace on the matcher
    debug stream when the result is falsy.  A pinning record as [desired]
    compares its field [connection], [null] or a socket, which satisfies
    none of the rules, and [Object.prototype] as [desired] has no entry to
    compare. *)
Fixpoint compare (desired actual : value) {struct desired} : value :=
  match desired with
  | VUndefined => VBool true
  | VFun _ => safeInvoke desired (VBool false) [AVal actual]
  | VObj ds =>
      if _isPlainObject desired && _isPlainObject actual then
        VBool (forallb
                 (fun kv => truthy (compare (snd kv) (read actual (fst kv))))
                 ds)
      else VBool false
  | VPinned _ => VBool false
  | VPrototype => VBool (_isPlainObject actual)
  | VArr ds =>
      match actual with
      | VArr acts =>
          VBool (all_entries
                   (fun i v => truthy (compare v (nth i acts VUndefined))) 0 ds)
      | _ => VBool false
      end
  | VBuf d =>
      match actual with
      | VBuf a => VBool (bytes_eqb d a)
      | VStr a => VBool (String.eqb (utf8_decode d) a)
      | _ => VBool false
      end
  | VStr d =>
      match actual with
      | VBuf a => VBool (String.eqb d (utf8_decode a))
      | VStr a => VBool (String.eqb d a)
      | _ => VBool false
      end
  | VRegExp d =>
      match actual with
      | VStr a => VBool (regexp_test d a)
      | VBuf a => VBool (regexp_test d (utf8_decode a))
      | _ => VBool false
      end
  | _ => VBool false
  end.

Definition toStatusCode (v : value) (args : list arg) : Z :=
  match safeInvoke v VUndefined args with
  | VInt n => n
  | _ => 200
  end.

Definition toBuffer (v : value) (args : list arg) : list byte :=
  match safeInvoke v VUndefined args with
  | VBuf b => b
  | VStr s => utf8_encode s
  | _ => []
  end.

(** [mapObj(value, ([k, v]) => [k, toBuffer(v, ...args)])] *)
Definition toHeaders (v : value) (args : list arg)
    : list (string * list byte) :=
  let v := safeInvoke v VUndefined args in
  if _isPlainObject v then
    map (fun kv => (fst kv, toBuffer (snd kv) args)) (entries v)
  else [].

Definition toDelay (v : value) (args : list arg) : Z :=
  match safeInvoke v VUndefined args with
  | VInt n => n
  | _ => 0
  end.

Definition toDestroySocket (v : value) (args : list arg) : bool :=
  match safeInvoke v VUndefined args with
  | VBool b => b
  | _ => false
  end.

Record HTTPRes : Type := {
  res_body : list byte;
  res_statusCode : Z;
  res_headers : list (string * list byte);
  res_headerDelay : Z;
  res_bodyDelay : Z;
  res_destroySocket : bool
}.

Definition toHTTPRes (res : value) (req : IncomingMessage)
    (reqBody : list byte) : HTTPRes :=
  let args := [AReq req; AVal (VBuf reqBody)] in
  let res := safeInvoke res VUndefined args in
  {| res_body := toBuffer (get res "body") args;
     res_statusCode := toStatusCode (get res "statusCode") args;
     res_headers := toHeaders (get res "headers") args;
     res_headerDelay := toDelay (get res "headerDelay") args;
     res_bodyDelay := toDelay (get res "bodyDelay") args;
     res_destroySocket := toDestroySocket (get res "destroySocket") args |}.

Record TCPRes : Type := {
  tcp_body : list byte;
  tcp_bodyDelay : Z;
  tcp_destroySocket : bool
}.

Definition toTCPRes (res : value) (req : list byte) : TCPRes :=
  let args := [AVal (VBuf req)] in
  let res := safeInvoke res VUndefined args in
  let res := if _isPlainObject res then res else VObj [("body", res)] in
  {| tcp_body := toBuffer (get res "body") args;
     tcp_bodyDelay := toDelay (get res "bodyDelay") args;
     tcp_destroySocket := toDestroySocket (get res "destroySocket") args |}.

(** [printMock(mockType)(obj)] *)
Definition printMock (mockType : string) (fields : list (string * value))
    : string :=
  let parts :=
    map (fun kv => fst kv +++ "=" +++ valueToString (snd kv))
      (filter (fun kv => negb (_isUndefined (snd kv))) fields) in
  mockType +++ "{" +++ String.concat " " parts +++ "}".

Definition PendingMockError (message : string) : exn :=
  {| name := "PendingMockError"; message := message |}.

Definition TypeError (message : string) : exn :=
  {| name := "TypeError"; message := message |}.

(** The message of what matching [{ throwOnPending = true }] against
    [null] throws. *)
Definition destructure_null : string := null_pattern "throwOnPending".

End Lib.

(** ** http/schema.js *)

Module HTTPSchema.
Import P.

Definition optComparable : pred :=
  alias
    (or [isString; isBuffer; isRegExp; isFunction (Some isBoolean);
         isUndefined])
    "if defined must be string, buffer, regular expression, or function".

Definition headerComparable : pred :=
  branch [optComparable; isArray] [always; arr optComparable]
    "must be string, buffer, regular expresson, function, or array of same".

Definition reqHeaders : pred :=
  branch [isPlainObject; isFunction (Some isBoolean); isUndefined]
    [keyvals always headerComparable; always; always]
    "if defined must be plain object or function".

Definition optBufferable : pred :=
  alias (or [isString; isBuffer; isUndefined])
    "if defined must be string or buffer".

Definition funcOptBufferable : pred :=
  alias (or [optBufferable; isFunction (Some optBufferable)])
    "if defined must be string, buffer, or function returning same".

Definition isValidResHeaders : pred := keyvals always funcOptBufferable.

Definition resHeaders : pred :=
  branchWithFunction [isPlainObject; isUndefined] [isValidResHeaders; always]
    "if defined must be plain object".

Definition statusCode : pred :=
  branchWithFunction [and [isInteger; isValidStatusCode]; isUndefined]
    [always; always]
    "if defined must be valid HTTP status code".

Definition isPositiveInt : pred := and [isInteger; isPositive].

Definition delay : pred :=
  branchWithFunction [isPositiveInt; isUndefined] [always; always]
    "if defined must be positive integer".

Definition destroySocket : pred :=
  branchWithFunction [isBoolean; isUndefined] [always; always]
    "if defined must be boolean".

Definition reqObj : pred :=
  obj [("method", optComparable);
       ("pathname", optComparable);
       ("query", optComparable);
       ("headers", reqHeaders);
       ("body", optComparable)].

Definition req : pred :=
  branch [isPlainObject; isFunction (Some isBoolean); isUndefined]
    [reqObj; always; always]
    "if defined must be plain object or function".

Definition resObj : pred :=
  obj [("body", funcOptBufferable);
       ("headers", resHeaders);
       ("statusCode", statusCode);
       ("headerDelay", delay);
       ("bodyDelay", delay);
       ("destroySocket", destroySocket)].

Definition res : pred :=
  branchWithFunction [isPlainObject; isUndefined] [resObj; always]
    "if defined must be plain object".

Definition mockSchema : pred :=
  branch [isPlainObject; isUndefined] [obj [("req", req); ("res", res)]; always]
    "if defined must be plain object".

Definition port : pred :=
  alias (or [isPositiveInt; isUndefined]) "if defined must be positive integer".

Definition httpSchema : pred :=
  branch [isPlainObject; isUndefined] [obj [("port", port)]; always]
    "if defined must be plain object".

End HTTPSchema.

(** ** tcp/schema.js *)

Module TCPSchema.
Import P.

Definition resObj : pred :=
  obj [("body", HTTPSchema.funcOptBufferable);
       ("bodyDelay", HTTPSchema.delay);
       ("destroySocket", HTTPSchema.destroySocket)].

Definition res : pred :=
  branchWithFunction [isPlainObject; HTTPSchema.optBufferable] [resObj; always]
    "if defined must be object, string, or buffer".

Definition connectionPinned : pred :=
  alias (exclusive ["init"] ["_pinnedTo"])
    "init not supported on a connection-pinned mock".

Definition mockSchemaObj : pred :=
  and [obj [("_pinnedTo", or [isUndefined; isPlainObject]);
            ("init", HTTPSchema.optBufferable);
            ("req", HTTPSchema.optComparable);
            ("res", res)];
       exclusive ["init"] ["req"; "res"];
       connectionPinned].

Definition mockSchema : pred :=
  branch [isPlainObject; isUndefined] [mockSchemaObj; always]
    "if defined must be plain object".

Definition tcpSchema : pred :=
  branch [isPlainObject; isUndefined] [obj [("port", HTTPSchema.port)]; always]
    "if defined must be plain object".

End TCPSchema.

(** ** http/index.js *)

Module HTTP.
Section HTTP.
Context {env : Host}.

Definition printHTTP : list (string * value) -> string := printMock "HTTP".

(** [headers(req)]: the raw header list alternates names and values; a
    repeated name collects its values in an array.  [res[currentKey]] is
    read through [Object.prototype]: under a name that it defines, what is
    read is neither [undefined] nor a string, and spreading it throws. *)
Fixpoint headers_loop (raw : list string) (i : nat)
    (currentKey : option string) (res : list (string * value))
    : M (list (string * value)) :=
  match raw with
  | [] => Ret res
  | v :: raw' =>
      if Nat.even i then headers_loop raw' (S i) (Some v) res
      else
        let k := match currentKey with Some k => k | None => "undefined" end in
        match read (VObj res) k with
        | VUndefined => headers_loop raw' (S i) currentKey (set res k (VStr v))
        | VStr s =>
            headers_loop raw' (S i) currentKey
              (set res k (VArr [VStr s; VStr v]))
        | VArr vs =>
            headers_loop raw' (S i) currentKey
              (set res k (VArr (vs ++ [VStr v])))
        | other => Throw (TypeError (not_iterable other))
        end
  end.

Definition headers (req : IncomingMessage) : M value :=
  res <- headers_loop (rawHeaders req) 0 None [] ;;
  Ret (VObj res).

Record Parsed : Type := {
  parsed_method : string;
  parsed_pathname : string;
  parsed_query : string;
  parsed_headers : value
}.

(** [new URL(req.url, `http://${req.headers.host}`)] throws on a target it
    cannot parse. *)
Definition parseReq (req : IncomingMessage) : M Parsed :=
  let base :=
    "http://" +++ match headers_host req with Some h => h | None => "undefined" end in
  match URL (url req) base with
  | Some (pathname, search) =>
      hs <- headers req ;;
      Ret {| parsed_method := method req;
             parsed_pathname := pathname;
             parsed_query := search;
             parsed_headers := hs |}
  | None => Throw (TypeError "Invalid URL")
  end.

Definition printReq (req : IncomingMessage) : string :=
  "[" +++ method req +++ " " +++ url req +++ " HTTP/" +++ httpVersion req
  +++ "]".

(** A mock: the closure state of [Mock(o)]. *)
Record Mock : Type := {
  o : value;
  options : value;
  done : bool
}.

(** [x ?? {}] *)
Definition orEmpty (v : value) : value :=
  match v with
  | VUndefined | VNull => VObj []
  | _ => v
  end.

Definition newMock (o : value) : M Mock :=
  c <- V.conform (V.validate HTTPSchema.mockSchema o ["options"]) ;;
  Ret {| o := o; options := orEmpty c; done := false |}.

Definition isPending (m : Mock) : bool := negb (done m).

Definition match_ (m : Mock) : Mock :=
  {| o := o m; options := options m; done := true |}.

Definition toString (m : Mock) : string :=
  printHTTP [("req", get (o m) "req"); ("res", get (o m) "res")].

(** What the comparator is given as [actual]. *)
Definition actual (p : Parsed) (body : list byte) : value :=
  VObj [("method", VStr (parsed_method p));
        ("pathname", VStr (parsed_pathname p));
        ("query", VStr (parsed_query p));
        ("headers", parsed_headers p);
        ("body", VBuf body)].

Definition isMatch (m : Mock) (req : IncomingMessage) (body : list byte)
    : M value :=
  if negb (isPending m) then Ret (VBool false)
  else
    p <- parseReq req ;;
    Ret (compare (get (options m) "req") (actual p body)).


Definition assertDone (m : Mock) : M unit :=
  if isPending m then
    Throw (PendingMockError ("Mock is still pending: " +++ toString m))
  else Ret tt.

(** [mocks.find(f)] for a callback that may throw; the result is the
    mock found, with its position in the list. *)
Fixpoint find (f : Mock -> M value) (i : nat) (mocks : list Mock)
    : M (option (nat * Mock)) :=
  match mocks with
  | [] => Ret None
  | m :: mocks' =>
      v <- f m ;;
      if truthy v then Ret (Some (i, m)) else find f (S i) mocks'
  end.

(** *** MockSet *)

(** [reset({ throwOnPending = true } = {})]: the new mock list and the
    completion of the call. *)
Definition reset (arg : value) (mocks : list Mock) : list Mock * M unit :=
  match arg with
  | VNull => (mocks, Throw (TypeError destructure_null))
  | _ =>
      let throwOnPending :=
        match get arg "throwOnPending" with
        | VUndefined => VBool true
        | v => v
        end in
      let pending := filter isPending mocks in
      ([],
       if negb (null pending) && truthy throwOnPending then
         Throw (PendingMockError
                  ("The following mocks are still pending: "
                   +++ String.concat ", " (map toString pending)))
       else Ret tt)
  end.

Definition add (o : value) (mocks : list Mock) : list Mock * M nat :=
  match newMock o with
  | Ret m => (mocks ++ [m], Ret (List.length mocks))
  | Throw e => (mocks, Throw e)
  end.

(** What the handler does to the response. *)
Inductive effect : Type :=
| wait (ms : Z)
| writeHead (statusCode : Z) (headers : list (string * value))
| flushHeaders
| destroy
| end_ (body : value)
| console_error (e : exn).

(** The writes of the handler once a mock is found. *)
Definition respond (r : HTTPRes) : list effect :=
  (if 0 <? res_headerDelay r then [wait (res_headerDelay r)] else [])
  ++ [writeHead (res_statusCode r)
        (map (fun kv => (fst kv, VBuf (snd kv))) (res_headers r))]
  ++ (if 0 <? res_bodyDelay r then [flushHeaders; wait (res_bodyDelay r)]
      else [])
  ++ (if res_destroySocket r then [destroy] else [end_ (VBuf (res_body r))]).

Definition handler (mocks : list Mock) (req : IncomingMessage)
    (reqBody : list byte) : list Mock * list effect :=
  match find (fun m => isMatch m req reqBody) 0%nat mocks with
  | Throw e => (mocks, [console_error e])
  | Ret (Some (i, m)) =>
      let mocks' := update mocks i match_ in
      (mocks', respond (toHTTPRes (get (options m) "res") req reqBody))
  | Ret None =>
      (mocks,
       [writeHead 404 [("Content-Type", VStr "text/plain")];
        end_ (VStr ("No matching mock was found for " +++ printReq req))])
  end.

End HTTP.
End HTTP.

(** ** tcp/index.js *)

Module TCP.
Section TCP.
Context {env : Host}.

Definition printTCP : list (string * value) -> string := printMock "TCP".

(** A mock: the closure state of [Mock(o, addToMockSet)].  [pinnedTo] is
    the pinning record the mock refers to. *)
Record Mock : Type := {
  o : value;
  options : value;
  done : bool;
  isHeadMock : bool;
  pinnedTo : value
}.

(** The mock set and the objects it shares with the handles given out:
    [created] holds every mock that [add] made (a handle is a position in
    it, and a mock outlives [reset] through its handle), [mocks] is the
    list of the mock set, [records] holds the [connection] field of the
    pinning records that head mocks allocated ([None] is [null]; a socket
    is known by its position in [connections]), and [connections] holds,
    for each connection, the [recv] buffer of its handler. *)
Record MockSet : Type := {
  created : list Mock;
  mocks : list nat;
  records : list (option nat);
  connections : list (list byte)
}.

Definition empty : MockSet :=
  {| created := []; mocks := []; records := []; connections := [] |}.

Definition orEmpty (v : value) : value :=
  match v with
  | VUndefined | VNull => VObj []
  | _ => v
  end.

(** [Mock(o, addToMockSet)]: the new mock and the records after it. *)
Definition newMock (o : value) (records : list (option nat))
    : M (Mock * list (option nat)) :=
  c <- V.conform (V.validate TCPSchema.mockSchema o ["options"]) ;;
  let options := orEmpty c in
  match get options "_pinnedTo" with
  | VUndefined =>
      Ret ({| o := o; options := options; done := false;
              isHeadMock := true;
              pinnedTo := VPinned (List.length records) |},
           records ++ [None])
  | p =>
      Ret ({| o := o; options := options; done := false;
              isHeadMock := false; pinnedTo := p |},
           records)
  end.

Definition isInit (m : Mock) : bool :=
  negb (_isUndefined (get (options m) "init")).

Definition isPending (m : Mock) : bool := negb (done m).

Definition toString (m : Mock) : string :=
  printTCP [("init", get (o m) "init"); ("req", get (o m) "req");
            ("res", get (o m) "res")].

(** [pinnedTo.connection]: the socket a record points to, if any. *)
Definition connection (records : list (option nat)) (pinnedTo : value)
    : option nat :=
  match pinnedTo with
  | VPinned r => nth r records None
  | _ => None
  end.

Definition same_connection (c : option nat) (conn : nat) : bool :=
  match c with
  | Some c' => Nat.eqb c' conn
  | None => false
  end.

Definition isMatch (records : list (option nat)) (m : Mock)
    (bytes : list byte) (conn : nat) : bool :=
  if isInit m || negb (isPending m)
     || negb (truthy (compare (get (options m) "req") (VBuf bytes)))
  then false
  else if isHeadMock m then true
  else same_connection (connection records (pinnedTo m)) conn.

(** [match(connection)] *)
Definition setDone (m : Mock) : Mock :=
  {| o := o m; options := options m; done := true;
     isHeadMock := isHeadMock m; pinnedTo := pinnedTo m |}.

Definition pin (m : Mock) (conn : nat) (records : list (option nat))
    : list (option nat) :=
  if isHeadMock m then
    match pinnedTo m with
    | VPinned r => update records r (fun _ => Some conn)
    | _ => records
    end
  else records.

Definition match_ (h : nat) (conn : nat) (s : MockSet) : MockSet :=
  match nth_error (created s) h with
  | Some m =>
      {| created := update (created s) h setDone;
         mocks := mocks s;
         records := pin m conn (records s);
         connections := connections s |}
  | None => s
  end.

Definition assertDone (m : Mock) : M unit :=
  if isPending m then
    Throw (PendingMockError ("Mock is still pending: " +++ toString m))
  else Ret tt.

(** [{ ...o }]: the own enumerable properties of [o]. *)
Definition indexed (vs : list value) : list (string * value) :=
  combine (map index_string (seq 0 (List.length vs))) vs.

Definition spread (v : value) : list (string * value) :=
  match v with
  | VObj es => es
  | VArr vs => indexed vs
  | VStr s =>
      indexed (map (fun c => VStr (String c "")) (list_ascii_of_string s))
  | VBuf b => indexed (map (fun x => VInt (Z.of_N (Byte.to_N x))) b)
  | _ => []
  end.

(** *** MockSet *)

Definition pending_of (s : MockSet) : list Mock :=
  filter isPending
    (flat_map (fun h => match nth_error (created s) h with
                        | Some m => [m]
                        | None => []
                        end) (mocks s)).

Definition reset (arg : value) (s : MockSet) : MockSet * M unit :=
  match arg with
  | VNull => (s, Throw (TypeError destructure_null))
  | _ =>
      let throwOnPending :=
        match get arg "throwOnPending" with
        | VUndefined => VBool true
        | v => v
        end in
      let pending := pending_of s in
      ({| created := created s; mocks := []; records := records s;
          connections := connections s |},
       if negb (null pending) && truthy throwOnPending then
         Throw (PendingMockError
                  ("The following mocks are still pending: "
                   +++ String.concat ", " (map toString pending)))
       else Ret tt)
  end.

Definition add (o : value) (s : MockSet) : MockSet * M nat :=
  match newMock o (records s) with
  | Ret (m, records') =>
      ({| created := created s ++ [m];
          mocks := mocks s ++ [List.length (created s)];
          records := records';
          connections := connections s |},
       Ret (List.length (created s)))
  | Throw e => (s, Throw e)
  end.

(** [mock(o)] of the mock [m]:
    [addToMockSet({ ...o, _pinnedTo: pinnedTo })]. *)
Definition mock (m : Mock) (o : value) (s : MockSet) : MockSet * M nat :=
  add (VObj (set (spread o) "_pinnedTo" (pinnedTo m))) s.

(** [mocks.find(f)]: the handle of the first mock of the list that [f]
    accepts. *)
Fixpoint find (created : list Mock) (f : Mock -> bool) (mocks : list nat)
    : option nat :=
  match mocks with
  | [] => None
  | h :: mocks' =>
      match nth_error created h with
      | Some m => if f m then Some h else find created f mocks'
      | None => find created f mocks'
      end
  end.

Inductive effect : Type :=
| wait (ms : Z)
| write (conn : nat) (data : value)
| destroy (conn : nat).

(** [handler(conn)], up to the registration of the listeners. *)
Definition handler (s : MockSet) : MockSet * list effect :=
  let conn := List.length (connections s) in
  let s :=
    {| created := created s; mocks := mocks s; records := records s;
       connections := connections s ++ [[]] |} in
  match find (created s) (fun m => isInit m && isPending m) (mocks s) with
  | Some iM =>
      (match_ iM conn s,
       match nth_error (created s) iM with
       | Some m => [write conn (get (options m) "init")]
       | None => []
       end)
  | None => (s, [])
  end.

Definition setRecv (conn : nat) (recv : list byte) (s : MockSet) : MockSet :=
  {| created := created s; mocks := mocks s; records := records s;
     connections := update (connections s) conn (fun _ => recv) |}.

(** The ['data'] listener of connection [conn]: the new state, the mock
    found and what is done to the socket.  A connection that was never
    accepted has no listener. *)
Definition on_data (conn : nat) (b : list byte) (s : MockSet)
    : MockSet * option nat * list effect :=
  match nth_error (connections s) conn with
  | None => (s, None, [])
  | Some recv =>
      let recv := recv ++ b in
      let s := setRecv conn recv s in
      match find (created s) (fun m => isMatch (records s) m recv conn)
              (mocks s) with
      | Some h =>
          let res :=
            match nth_error (created s) h with
            | Some m => get (options m) "res"
            | None => VUndefined
            end in
          let s := match_ h conn s in
          let r := toTCPRes res recv in
          let s := setRecv conn [] s in
          (s, Some h,
           (if 0 <? tcp_bodyDelay r then [wait (tcp_bodyDelay r)] else [])
           ++ (if tcp_destroySocket r then [destroy conn]
               else [write conn (VBuf (tcp_body r))]))
      | None => (s, None, [])
      end
  end.

(** What happens to a TCP server: the calls of the test ([Echild h o] is
    [mock(o)] on the handle [h]) and the events of its sockets. *)
Inductive event : Type :=
| Emock (o : value)
| Echild (h : nat) (o : value)
| Ereset (arg : value)
| Econnection
| Edata (conn : nat) (b : list byte).

Definition step (s : MockSet) (e : event) : MockSet :=
  match e with
  | Emock o => fst (add o s)
  | Echild h o =>
      match nth_error (created s) h with
      | Some m => fst (mock m o s)
      | None => s
      end
  | Ereset arg => fst (reset arg s)
  | Econnection => fst (handler s)
  | Edata conn b => fst (fst (on_data conn b s))
  end.

Definition run (s : MockSet) (events : list event) : MockSet :=
  fold_left step events s.

(** The chunks that the listeners processed, in order, each with its
    connection and whether a mock matched. *)
Fixpoint chunks (s : MockSet) (events : list event)
    : list (nat * list byte * bool) :=
  match events with
  | [] => []
  | e :: events' =>
      match e with
      | Edata conn b =>
          match nth_error (connections s) conn with
          | Some _ =>
              [(conn, b,
                match snd (fst (on_data conn b s)) with
                | Some _ => true
                | None => false
                end)]
          | None => []
          end
      | _ => []
      end ++ chunks (step s e) events'
  end.

End TCP.
End TCP.

(** ** A concrete host, to run the definitions

    Strings are read as their bytes, a regular expression matches its own
    source only, [URL] rejects the target [//] and otherwise splits nothing
    off, and the user's functions are a handful of constant ones. *)

Module Example.

Definition oops : exn := {| name := "Error"; message := "oops" |}.

Definition functions (f : string) (args : list arg) : M value :=
  if String.eqb f "true" then Ret (VBool true)
  else if String.eqb f "false" then Ret (VBool false)
  else if String.eqb f "yes" then Ret (VStr "yes")
  else if String.eqb f "five" then Ret (VInt 5)
  else if String.eqb f "throws" then Throw oops
  else Ret VUndefined.

#[export] Instance toy : Host := {|
  inspect := fun _ => "?";
  inspect_depth3 := fun _ => "?";
  ToString := fun _ => "?";
  utf8_decode := string_of_list_byte;
  utf8_encode := list_byte_of_string;
  regexp_test := String.eqb;
  user_call := functions;
  URL := fun url _ => if String.eqb url "//" then None else Some (url, "");
  null_pattern :=
    fun k => "Cannot read properties of null (reading '" +++ k +++ "')";
  not_iterable := fun _ => "res[currentKey] is not iterable"
|}.

Definition GET (target : string) : IncomingMessage :=
  {| method := "GET"; url := target; httpVersion := "1.1";
     rawHeaders := ["Host"; "localhost"]; headers_host := Some "localhost" |}.

(** HTTP mocks that accept any request, one matched and one pending. *)
Definition any_done : HTTP.Mock :=
  {| HTTP.o := VUndefined; HTTP.options := VObj []; HTTP.done := true |}.

Definition any_pending : HTTP.Mock :=
  {| HTTP.o := VUndefined; HTTP.options := VObj []; HTTP.done := false |}.


End Example.

(** ** Notions that the properties are stated with *)

(** No function value occurs in [v]. *)
Fixpoint fun_free (v : value) : bool :=
  match v with
  | VFun _ => false
  | VObj es => forallb (fun kv => fun_free (snd kv)) es
  | VArr vs => forallb fun_free vs
  | _ => true
  end.

(** Every object in [v] has one entry under a name, as every object of a
    program has, and no own property named [__proto__] (which a computed
    key or [JSON.parse] can make). *)
Fixpoint distinct (ks : list string) : bool :=
  match ks with
  | [] => true
  | k :: ks' => negb (existsb (String.eqb k) ks') && distinct ks'
  end.

Fixpoint ordinary (v : value) : bool :=
  match v with
  | VObj es =>
      distinct (map fst es)
      && forallb (fun kv => negb (String.eqb (fst kv) "__proto__")
                            && ordinary (snd kv)) es
  | VArr vs => forallb ordinary vs
  | _ => true
  end.

(** What [obj] does with one key of its schema: the result of the key's
    predicate, and the conformed object after it. *)
Definition field_result {env : Host} (v : value) (path : list string)
    (kp : string * P.pred) : V.result :=
  V.validate (snd kp) (read v (fst kp)) (path ++ [fst kp]).

Definition put {env : Host} (v : value) (path : list string)
    (conformed : list (string * value)) (kp : string * P.pred)
    : list (string * value) :=
  let c := fst (field_result v path kp) in
  if _isUndefined c then conformed else assign conformed (fst kp) c.

(** What [keyvals(always, p)] does with one entry of its input. *)
Definition put_value {env : Host} (p : P.pred) (path : list string)
    (conformed : list (string * value)) (kv : string * value)
    : list (string * value) :=
  assign conformed (fst kv) (fst (V.validate p (snd kv) (path ++ [fst kv]))).

(** How a predicate treats its input when it reports no error:
    - it returns the input, whatever it reports;
    - it returns the input or a function (a wrapper);
    - it returns the input unless its result holds a function;
    - run on its result, it returns the result again, unless the result
      holds a function; this for the inputs that [accepted] admits;
    - its result is a map, under the same conditions. *)
Definition returns_input {env : Host} (p : P.pred) : Prop :=
  forall v path, fst (V.validate p v path) = v.

Definition returns_input_or_function {env : Host} (p : P.pred) : Prop :=
  forall v path,
    fst (V.validate p v path) = v
    \/ exists f, fst (V.validate p v path) = VFun f.

Definition keeps_data {env : Host} (p : P.pred) : Prop :=
  forall v path c,
    V.validate p v path = (c, []) -> fun_free c = true -> c = v.

Definition any_value (v : value) : bool := true.

Definition idempotent {env : Host} (accepted : value -> bool) (p : P.pred)
    : Prop :=
  forall v path c,
    accepted v = true ->
    V.validate p v path = (c, []) -> fun_free c = true ->
    V.validate p c path = (c, []).

Definition returns_object {env : Host} (accepted : value -> bool)
    (p : P.pred) : Prop :=
  forall v path c,
    accepted v = true ->
    V.validate p v path = (c, []) -> fun_free c = true ->
    _isPlainObject c = true.

(** The keys of the TCP mock schema with their predicates. *)
Definition tcp_fields : list (string * P.pred) :=
  [("_pinnedTo", P.or [P.isUndefined; P.isPlainObject]);
   ("init", HTTPSchema.optBufferable);
   ("req", HTTPSchema.optComparable);
   ("res", TCPSchema.res)].

(** The bytes of the chunks that connection [conn] received since the
    last chunk on which a mock matched, as a history of processed chunks
    tells. *)
Definition since_match (conn : nat) (history : list (nat * list byte * bool))
    : list byte :=
  fold_left
    (fun acc chunk =>
       let '(c, b, matched) := chunk in
       if Nat.eqb c conn then (if matched : bool then [] else acc ++ b)
       else acc)
    history [].

(** What ties the mocks of a TCP mock set to the pinning records: a head
    mock owns a record, which points to a connection only once the head
    has matched; no two heads own the same record; a tail mock is no init
    mock, and it has matched only if its record points to a connection. *)
Definition pinning_invariant (s : TCP.MockSet) : Prop :=
  (forall h m,
      nth_error (TCP.created s) h = Some m ->
      TCP.isHeadMock m = true ->
      exists r,
        TCP.pinnedTo m = VPinned r
        /\ (r < List.length (TCP.records s))%nat
        /\ (nth r (TCP.records s) None <> None -> TCP.done m = true))
  /\ (forall h h' m m',
         nth_error (TCP.created s) h = Some m ->
         nth_error (TCP.created s) h' = Some m' ->
         TCP.isHeadMock m = true ->
         TCP.isHeadMock m' = true ->
         TCP.pinnedTo m = TCP.pinnedTo m' ->
         h = h')
  /\ (forall h m,
         nth_error (TCP.created s) h = Some m ->
         TCP.isHeadMock m = false ->
         TCP.isInit m = false
         /\ (TCP.done m = true ->
             TCP.connection (TCP.records s) (TCP.pinnedTo m) <> None)).

(** The buffers of a mock set are those that a history of chunks
    tells, and the history speaks of accepted connections only. *)
Definition buffers_agree (s : TCP.MockSet)
    (history : list (nat * list byte * bool)) : Prop :=
  (forall conn recv,
      nth_error (TCP.connections s) conn = Some recv ->
      recv = since_match conn history)
  /\ (forall c b matched,
         In (c, b, matched) history ->
         (c < List.length (TCP.connections s))%nat).

(** ** helpers.js *)

Module Helpers.
Section Helpers.
Context {env : Host}.

(** [textRes(body, { statusCode = 200, headers = {} } = {})], for a body
    that is a string. *)
Definition textRes (body : string) (opts : value) : M value :=
  match opts with
  | VNull => Throw (TypeError (null_pattern "statusCode"))
  | _ =>
      let statusCode :=
        match get opts "statusCode" with
        | VUndefined => VInt 200
        | v => v
        end in
      let headers :=
        match get opts "headers" with
        | VUndefined => VObj []
        | v => v
        end in
      let bodyBuffer := utf8_encode body in
      Ret (VObj
             [("body", VBuf bodyBuffer);
              ("statusCode", statusCode);
              ("headers",
               VObj (fold_left (fun acc kv => set acc (fst kv) (snd kv))
                       (TCP.spread headers)
                       [("content-type", VStr "text/plain");
                        ("content-length",
                         VStr (index_string (List.length bodyBuffer)))]))])
  end.

End Helpers.
End Helpers.

(** ** Notions that the further properties are stated with *)

(** The raw header list of a request that carries the given fields, the
    values that a name occurs with, in order, and what the parsed request
    holds for a name that occurs with the given values. *)
Fixpoint raw_of (fields : list (string * string)) : list string :=
  match fields with
  | [] => []
  | (k, v) :: fields' => k :: v :: raw_of fields'
  end.

Definition values_of (k : string) (fields : list (string * string))
    : list string :=
  map snd (filter (fun kv => String.eqb (fst kv) k) fields).

Definition header_value (vs : list string) : value :=
  match vs with
  | [] => VUndefined
  | [v] => VStr v
  | _ => VArr (map VStr vs)
  end.

(** The header names of a raw header list. *)
Fixpoint names_of (raw : list string) : list string :=
  match raw with
  | k :: _ :: raw' => k :: names_of raw'
  | _ => []
  end.

(** * Properties *)

Unset Implicit Arguments.

(** ** Lists *)

Section ListFacts.
Context {A : Type}.

Lemma update_length (l : list A) (i : nat) (f : A -> A) :
  List.length (update l i f) = List.length l.
Proof.
  revert i; induction l as [|x l IH]; intros [|i]; simpl; auto.
Qed.

Lemma nth_error_update_eq (l : list A) (i : nat) (f : A -> A) (x : A) :
  nth_error l i = Some x -> nth_error (update l i f) i = Some (f x).
Proof.
  revert i; induction l as [|y l IH]; intros [|i]; simpl; try discriminate.
  - now intros [= ->].
  - apply IH.
Qed.

Lemma nth_error_update_neq (l : list A) (i j : nat) (f : A -> A) :
  i <> j -> nth_error (update l i f) j = nth_error l j.
Proof.
  revert i j; induction l as [|y l IH]; intros [|i] [|j] Hij; simpl; auto;
    congruence.
Qed.

Lemma nth_error_update (l : list A) (i j : nat) (f : A -> A) :
  nth_error (update l i f) j =
  if Nat.eqb i j then option_map f (nth_error l j) else nth_error l j.
Proof.
  destruct (Nat.eqb_spec i j) as [->|Hij].
  - destruct (nth_error l j) eqn:E.
    + now apply nth_error_update_eq.
    + apply nth_error_None in E. apply nth_error_None.
      now rewrite update_length.
  - now apply nth_error_update_neq.
Qed.

Lemma forallb_ext_in (f g : A -> bool) (l : list A) :
  (forall x, In x l -> f x = g x) -> forallb f l = forallb g l.
Proof.
  induction l as [|x l IH]; simpl; intros Hfg; [reflexivity|].
  rewrite (Hfg x), IH; auto.
Qed.

Lemma null_app (l l' : list A) : null (l ++ l') = null l && null l'.
Proof. now destruct l. Qed.

Lemma null_nil (l : list A) : null l = true <-> l = [].
Proof. destruct l; simpl; split; congruence. Qed.

End ListFacts.

(** ** Lifecycle: [reset] *)

(** C3.  A [reset] whose [throwOnPending] is left at its default raises
    PendingMockError exactly when a mock of the list is pending, its
    message lists the printable form of each pending mock, and the mock
    list is empty afterwards whether it raises or not.  This holds for the
    HTTP mock set and for the TCP one. *)
Theorem reset_default_discards_and_raises_on_pending
    {env : Host} (arg : value) :
  arg <> VNull ->
  get arg "throwOnPending" = VUndefined ->
  (forall mocks : list HTTP.Mock,
      let pending := filter HTTP.isPending mocks in
      fst (HTTP.reset arg mocks) = []
      /\ snd (HTTP.reset arg mocks)
         = match pending with
           | [] => Ret tt
           | _ =>
               Throw (PendingMockError
                        ("The following mocks are still pending: "
                         +++ String.concat ", " (map HTTP.toString pending)))
           end
      /\ ((exists e, snd (HTTP.reset arg mocks) = Throw e)
          <-> exists m, In m mocks /\ HTTP.isPending m = true))
  /\ (forall s : TCP.MockSet,
         let pending := TCP.pending_of s in
         TCP.mocks (fst (TCP.reset arg s)) = []
         /\ snd (TCP.reset arg s)
            = match pending with
              | [] => Ret tt
              | _ =>
                  Throw (PendingMockError
                           ("The following mocks are still pending: "
                            +++ String.concat ", "
                                  (map TCP.toString pending)))
              end
         /\ ((exists e, snd (TCP.reset arg s) = Throw e)
             <-> exists h m, In h (TCP.mocks s)
                             /\ nth_error (TCP.created s) h = Some m
                             /\ TCP.isPending m = true)).
Proof.
  intros Hnull Hdefault. split.
  - intros mocks pending. unfold HTTP.reset. rewrite Hdefault.
    destruct arg; try congruence; simpl; fold pending;
      (split; [reflexivity|]);
      (assert (Hin : (exists m, In m mocks /\ HTTP.isPending m = true)
                     <-> pending <> [])
        by (unfold pending; split;
            [ intros (m & Hm & Hp) E;
              assert (In m (filter HTTP.isPending mocks))
                by (apply filter_In; auto);
              rewrite E in *; contradiction
            | intros Hne; destruct (filter HTTP.isPending mocks) as [|m l] eqn:E;
              [congruence|];
              exists m; apply filter_In; rewrite E; now left ]));
      (destruct pending as [|m l]; simpl;
       [ split; [reflexivity|]; split;
         [ intros (e & He); discriminate
         | intros Hex; apply Hin in Hex; congruence ]
       | split; [reflexivity|]; split;
         [ intros _; apply Hin; discriminate
         | intros _; eexists; reflexivity ] ]).
  - intros s pending. unfold TCP.reset. rewrite Hdefault.
    assert (Hin : (exists h m, In h (TCP.mocks s)
                               /\ nth_error (TCP.created s) h = Some m
                               /\ TCP.isPending m = true)
                  <-> pending <> []).
    { unfold pending, TCP.pending_of. split.
      - intros (h & m & Hh & Hm & Hp) E.
        assert (Hf : In m (filter TCP.isPending
                             (flat_map (fun h => match nth_error (TCP.created s) h with
                                                 | Some m => [m]
                                                 | None => []
                                                 end) (TCP.mocks s)))).
        { apply filter_In. split; [|assumption].
          apply in_flat_map. exists h. split; [assumption|].
          rewrite Hm. now left. }
        rewrite E in Hf. contradiction.
      - intros Hne.
        destruct (filter _ _) as [|m l] eqn:E; [congruence|].
        assert (Hf : In m (m :: l)) by now left.
        rewrite <- E in Hf. apply filter_In in Hf as [Hf Hp].
        apply in_flat_map in Hf as (h & Hh & Hm).
        destruct (nth_error (TCP.created s) h) as [m'|] eqn:E'; [|contradiction].
        destruct Hm as [->|[]]. now exists h, m. }
    destruct arg; try congruence; simpl; fold pending;
      (split; [reflexivity|]);
      (destruct pending as [|m l]; simpl;
       [ split; [reflexivity|]; split;
         [ intros (e & He); discriminate
         | intros Hex; apply Hin in Hex; congruence ]
       | split; [reflexivity|]; split;
         [ intros _; apply Hin; discriminate
         | intros _; eexists; reflexivity ] ]).
Qed.

Lemma reset_default_witness :
  fst (HTTP.reset (env := Example.toy) VUndefined
         [{| HTTP.o := VUndefined; HTTP.options := VObj [];
             HTTP.done := false |}]) = [].
Proof.
  apply (proj1 (@reset_default_discards_and_raises_on_pending Example.toy
                  VUndefined ltac:(discriminate) eq_refl)).
Defined.

(** ** The HTTP matcher *)

Section HTTPFacts.
Context {env : Host}.






End HTTPFacts.







(** ** The comparator *)

Section CompareFacts.
Context {env : Host}.

Lemma bytes_eqb_eq (a b : list byte) : bytes_eqb a b = true <-> a = b.
Proof.
  revert b. induction a as [|x a IH]; intros [|y b]; simpl;
    try (split; congruence).
  rewrite andb_true_iff, IH. split.
  - intros [Hxy ->]. now rewrite (Byte.byte_dec_bl _ _ Hxy).
  - intros [= -> ->]. split; [now apply Byte.byte_dec_lb|reflexivity].
Qed.

Lemma assoc_missing (k : string) (es : list (string * value)) :
  (forall v, ~ In (k, v) es) -> assoc k es = VUndefined.
Proof.
  induction es as [|[k' v'] es IH]; simpl; intros Hk; [reflexivity|].
  destruct (String.eqb_spec k k') as [->|Hne].
  - exfalso. apply (Hk v'). now left.
  - apply IH. intros v Hv. apply (Hk v). now right.
Qed.

Lemma assoc_set_eq (k : string) (v : value) (es : list (string * value)) :
  assoc k (set es k v) = v.
Proof.
  induction es as [|[k' v'] es IH]; simpl.
  - now rewrite String.eqb_refl.
  - destruct (String.eqb_spec k k') as [->|Hne]; simpl.
    + now rewrite String.eqb_refl.
    + destruct (String.eqb_spec k k'); [contradiction|exact IH].
Qed.

Lemma assoc_set_neq (k k' : string) (v : value) (es : list (string * value)) :
  k <> k' -> assoc k (set es k' v) = assoc k es.
Proof.
  intros Hne. induction es as [|[k'' v''] es IH]; simpl.
  - destruct (String.eqb_spec k k'); [contradiction|reflexivity].
  - destruct (String.eqb_spec k' k'') as [->|Hne']; simpl.
    + destruct (String.eqb_spec k k''); [contradiction|reflexivity].
    + destruct (String.eqb_spec k k''); [reflexivity|exact IH].
Qed.

Lemma all_entries_ext {A : Type} (f g : nat -> A -> bool) (l : list A)
    (i : nat) :
  (forall j x, nth_error l j = Some x -> f (i + j)%nat x = g (i + j)%nat x) ->
  all_entries f i l = all_entries g i l.
Proof.
  revert i. induction l as [|x l IH]; intros i Hfg; simpl; [reflexivity|].
  pose proof (Hfg 0%nat x eq_refl) as H0. rewrite Nat.add_0_r in H0.
  rewrite <- H0.
  destruct (f i x); [|reflexivity]. apply IH.
  intros j y Hj. replace (S i + j)%nat with (i + S j)%nat by lia.
  now apply Hfg.
Qed.

Lemma own_In (k : string) (es : list (string * value)) :
  own k es = true <-> In k (map fst es).
Proof.
  unfold own. rewrite existsb_exists. split.
  - intros ([k' v] & Hin & ->%String.eqb_eq). now apply (in_map fst) in Hin.
  - intros ([k' v] & <- & Hin)%in_map_iff. exists (k', v).
    split; [exact Hin|apply String.eqb_refl].
Qed.

Lemma own_assoc (k : string) (es : list (string * value)) :
  own k es = false -> assoc k es = VUndefined.
Proof.
  induction es as [|[k' v'] es IH]; simpl; [reflexivity|].
  destruct (String.eqb k k'); simpl; [discriminate|exact IH].
Qed.

Lemma own_set_eq (k : string) (v : value) (es : list (string * value)) :
  own k (set es k v) = true.
Proof.
  induction es as [|[k' v'] es IH]; simpl.
  - now rewrite String.eqb_refl.
  - destruct (String.eqb_spec k k') as [->|Hne]; simpl.
    + now rewrite String.eqb_refl.
    + destruct (String.eqb_spec k k'); [contradiction|exact IH].
Qed.

Lemma own_set_neq (k k' : string) (v : value) (es : list (string * value)) :
  k <> k' -> own k (set es k' v) = own k es.
Proof.
  intros Hne. induction es as [|[k'' v''] es IH]; simpl.
  - destruct (String.eqb_spec k k'); [contradiction|reflexivity].
  - destruct (String.eqb_spec k' k'') as [->|Hne']; simpl.
    + destruct (String.eqb_spec k k''); [contradiction|reflexivity].
    + destruct (String.eqb_spec k k''); [reflexivity|exact IH].
Qed.

Lemma inherited_own_name (k : string) :
  own_names [k] = true -> inherited k = VUndefined.
Proof.
  unfold own_names, inherited. cbn [forallb]. rewrite andb_true_r.
  intros Hk%negb_true_iff. rewrite Hk.
  cbn [Object_prototype existsb] in Hk.
  apply orb_false_iff in Hk as [H1 Hk]. apply orb_false_iff in Hk as [H2 _].
  now rewrite H1, H2.
Qed.

(** At a name that [Object.prototype] does not define, [v[k]] is the own
    property. *)
Lemma read_get (v : value) (k : string) :
  own_names [k] = true -> read v k = get v k.
Proof.
  intros Hk. pose proof (inherited_own_name k Hk) as Hinh.
  destruct v as [| | | | | | | |es| | | |]; cbn [read get];
    try reflexivity; try exact Hinh.
  - destruct (own k es) eqn:Hown; [reflexivity|].
    now rewrite Hinh, own_assoc.
  - destruct (String.eqb_spec k "__proto__") as [->|_]; [discriminate|].
    exact Hinh.
Qed.

Lemma read_set_neq (k k' : string) (v : value) (es : list (string * value)) :
  k <> k' -> read (VObj (set es k' v)) k = read (VObj es) k.
Proof.
  intros Hne. simpl. now rewrite own_set_neq, assoc_set_neq.
Qed.

(** A map is an object whose [constructor] is [Object]: it has no own
    property of that name, or one that holds [Object] itself. *)
Lemma plain_obj (es : list (string * value)) :
  _isPlainObject (VObj es) = true
  <-> own "constructor" es = false
      \/ assoc "constructor" es = VFun (User "Object").
Proof.
  unfold _isPlainObject. cbn [read].
  destruct (own "constructor" es) eqn:Hown; cbv iota.
  - split.
    + intros H. right.
      destruct (assoc "constructor" es) as [| | | | | | |[f|]| | | | |];
        try discriminate. apply String.eqb_eq in H. now subst f.
    + intros [H|H]; [discriminate|now rewrite H].
  - split; [now left|reflexivity].
Qed.

Lemma plain_fresh (es : list (string * value)) :
  own "constructor" es = false -> _isPlainObject (VObj es) = true.
Proof. intros H. apply plain_obj. now left. Qed.

Lemma plain_set (k : string) (v : value) (es : list (string * value)) :
  k <> "constructor" ->
  _isPlainObject (VObj (set es k v)) = _isPlainObject (VObj es).
Proof.
  intros Hne. unfold _isPlainObject. now rewrite read_set_neq by congruence.
Qed.

(** What the wrapper of [isFunction(isBoolean)] returns. *)
Lemma call_late_isBoolean (f : func) (path : list string) (args : list arg) :
  match V.call (Late P.isBoolean path f) args with
  | Ret v => exists b, V.call f args = Ret (VBool b) /\ v = VBool b
  | Throw _ => forall b, V.call f args <> Ret (VBool b)
  end.
Proof.
  simpl. destruct (V.call f args) as [v|e]; simpl; [|congruence].
  destruct v; simpl; try congruence. now exists b.
Qed.

End CompareFacts.

(** The claim C2 says that a callable predicate that returns a value
    which is not a boolean yields false.  The comparator returns what the
    callable returned: here the string [yes], which is truthy. *)
Lemma compare_callable_non_boolean :
  user_call (Host := Example.toy) "yes" [AVal (VStr "bloop")]
  = Ret (VStr "yes")
  /\ compare (env := Example.toy) (VFun (User "yes")) (VStr "bloop")
     <> VBool false
  /\ truthy (compare (env := Example.toy) (VFun (User "yes")) (VStr "bloop"))
     = true.
Proof. repeat split. discriminate. Qed.

(** C2, amended.  [compare(desired, actual)] follows the ordered rules:
    an absent [desired] gives true; a callable [desired] is called with
    [actual], its result is returned as it is and a fault gives false; a
    callable wrapped by the validator's [isFunction(isBoolean)], as every
    callable of a conformed request predicate is, gives false for a fault
    and for a result that is not a boolean; two maps, which are objects
    whose [constructor] is [Object] (an own key [constructor] that holds
    anything else makes an object no map), compare every key of [desired]
    with what [actual] reads at that key: its own property, and for a key
    that it does not have what [Object.prototype] defines under that name,
    which is absent for every other name; other keys of [actual] are
    ignored; two sequences compare every index of [desired], and elements
    of [actual] past them are ignored; two buffers are equal byte for
    byte; a buffer and a string are compared through the UTF-8 decoding;
    two strings are equal as they are; a regular expression tests the
    string or the decoding of the buffer; anything else gives false. *)
Theorem compare_rules {env : Host} :
  (forall a, compare VUndefined a = VBool true)
  /\ (forall f a,
         compare (VFun f) a
         = match V.call f [AVal a] with
           | Ret v => v
           | Throw _ => VBool false
           end)
  /\ (forall f path a,
         compare (VFun (Late P.isBoolean path f)) a
         = VBool match V.call f [AVal a] with
                 | Ret (VBool b) => b
                 | _ => false
                 end)
  /\ (forall ds acts,
         (_isPlainObject (VObj ds) = true ->
          _isPlainObject (VObj acts) = true ->
          compare (VObj ds) (VObj acts)
          = VBool (forallb
                     (fun kv =>
                        truthy (compare (snd kv) (read (VObj acts) (fst kv))))
                     ds))
         /\ (_isPlainObject (VObj ds) && _isPlainObject (VObj acts) = false ->
             compare (VObj ds) (VObj acts) = VBool false)
         /\ (_isPlainObject (VObj ds) = true
             <-> own "constructor" ds = false
                 \/ assoc "constructor" ds = VFun (User "Object")))
  /\ (forall d k acts,
         (own k acts = true ->
          compare d (read (VObj acts) k) = compare d (assoc k acts))
         /\ (own k acts = false ->
             compare d (read (VObj acts) k) = compare d (inherited k))
         /\ (own_names [k] = true -> inherited k = VUndefined))
  /\ (forall ds acts k v,
         own k ds = false ->
         k <> "constructor" ->
         compare (VObj ds) (VObj (set acts k v)) = compare (VObj ds) (VObj acts))
  /\ (forall ds acts,
         compare (VArr ds) (VArr acts)
         = VBool (all_entries
                    (fun i d => truthy (compare d (nth i acts VUndefined)))
                    0 ds))
  /\ (forall ds acts extra,
         (List.length ds <= List.length acts)%nat ->
         compare (VArr ds) (VArr (acts ++ extra)) = compare (VArr ds) (VArr acts))
  /\ (forall d a,
         compare (VBuf d) (VBuf a) = VBool (bytes_eqb d a)
         /\ (compare (VBuf d) (VBuf a) = VBool true <-> d = a))
  /\ (forall b s,
         compare (VBuf b) (VStr s) = VBool (String.eqb (utf8_decode b) s)
         /\ compare (VStr s) (VBuf b) = VBool (String.eqb s (utf8_decode b)))
  /\ (forall d a,
         compare (VStr d) (VStr a) = VBool (String.eqb d a)
         /\ (compare (VStr d) (VStr a) = VBool true <-> d = a))
  /\ (forall d s b,
         compare (VRegExp d) (VStr s) = VBool (regexp_test d s)
         /\ compare (VRegExp d) (VBuf b)
            = VBool (regexp_test d (utf8_decode b)))
  /\ (forall d a,
         _isUndefined d = false ->
         _isFunction d = false ->
         _isPlainObject d && _isPlainObject a = false ->
         _isArray d && _isArray a = false ->
         _isBuffer d && (_isBuffer a || _isString a) = false ->
         _isString d && (_isBuffer a || _isString a) = false ->
         _isRegExp d && (_isString a || _isBuffer a) = false ->
         compare d a = VBool false).
Proof.
  repeat match goal with |- _ /\ _ => split end.
  - reflexivity.
  - intros f a. reflexivity.
  - intros f path a. change (compare (VFun (Late P.isBoolean path f)) a)
      with (safeInvoke (VFun (Late P.isBoolean path f)) (VBool false) [AVal a]).
    unfold safeInvoke.
    pose proof (call_late_isBoolean f path [AVal a]) as H.
    destruct (V.call (Late P.isBoolean path f) [AVal a]) as [v|e].
    + destruct H as (b & -> & ->). reflexivity.
    + destruct (V.call f [AVal a]) as [[]|]; try reflexivity.
      exfalso. now apply (H b).
  - intros ds acts. split; [|split].
    + intros Hd Ha. cbn [compare]. now rewrite Hd, Ha.
    + intros H. cbn [compare]. now rewrite H.
    + apply plain_obj.
  - intros d k acts. split; [|split].
    + intros Hown. cbn [read]. now rewrite Hown.
    + intros Hown. cbn [read]. now rewrite Hown.
    + apply inherited_own_name.
  - intros ds acts k v Hk Hne. cbn [compare].
    rewrite (plain_set k v acts Hne).
    destruct (_isPlainObject (VObj ds) && _isPlainObject (VObj acts));
      [|reflexivity].
    f_equal. apply forallb_ext_in. intros [k' d] Hin. cbn [fst snd].
    rewrite read_set_neq; [reflexivity|].
    intros ->. apply (in_map fst) in Hin. apply own_In in Hin. cbn in Hin.
    congruence.
  - reflexivity.
  - intros ds acts extra Hlen. simpl. f_equal.
    apply all_entries_ext. intros j x Hj. simpl.
    rewrite app_nth1; [reflexivity|].
    assert (j < List.length ds)%nat by (apply nth_error_Some; congruence).
    lia.
  - intros d a. split; [reflexivity|]. simpl.
    rewrite <- bytes_eqb_eq. split; [now intros [=]|now intros ->].
  - intros b s. split; reflexivity.
  - intros d a. split; [reflexivity|]. simpl.
    rewrite <- String.eqb_eq. split; [now intros [=]|now intros ->].
  - intros d s b. split; reflexivity.
  - intros d a Hu Hf Hp Harr Hb Hs Hr.
    destruct d as [| |b|n|s|b|src|f|ds|vs|r|n|]; try discriminate;
      try reflexivity.
    + destruct a; try discriminate; reflexivity.
    + destruct a; try discriminate; reflexivity.
    + destruct a; try discriminate; reflexivity.
    + cbn [compare]. now rewrite Hp.
    + destruct a; try discriminate; reflexivity.
    + change (_isPlainObject VPrototype) with true in Hp.
      cbn [compare]. now rewrite <- Hp.
Qed.

Lemma compare_rules_witness :
  compare (env := Example.toy) (VObj [("method", VStr "GET")])
    (VObj (set [("method", VStr "GET")] "query" (VStr "?a=1")))
  = compare (env := Example.toy) (VObj [("method", VStr "GET")])
      (VObj [("method", VStr "GET")]).
Proof.
  apply (proj1 (proj2 (proj2 (proj2 (proj2 (proj2
           (@compare_rules Example.toy))))))).
  - reflexivity.
  - discriminate.
Defined.

(** ** The resolver *)

Section ResolverFacts.
Context {env : Host}.

Lemma safeInvoke_throw (f : func) (d : value) (args : list arg) (e : exn) :
  V.call f args = Throw e -> safeInvoke (VFun f) d args = d.
Proof. simpl. now intros ->. Qed.

Lemma safeInvoke_ret (f : func) (d : value) (args : list arg) (v : value) :
  V.call f args = Ret v -> safeInvoke (VFun f) d args = v.
Proof. simpl. now intros ->. Qed.

(** The wrapper throws a ValidationError when the value returned fails
    its predicate, and [safeInvoke] turns that into the default. *)
Lemma call_late_invalid (q : P.pred) (path : list string) (f : func)
    (args : list arg) (v : value) :
  V.call f args = Ret v ->
  snd (V.validate q v (V.funcPath path)) <> [] ->
  exists msg, V.call (Late q path f) args = Throw (V.ValidationError msg).
Proof.
  intros Hcall Herr. simpl. rewrite Hcall. simpl. unfold V.conform.
  destruct (V.validate q v (V.funcPath path)) as [c errors]. simpl in Herr.
  destruct errors; [congruence|]. simpl. eexists. reflexivity.
Qed.

(** When the predicates of the four wrappers fail. *)
Lemma status_fails (v : value) (path : list string) :
  snd (V.validate
         (P.branch [P.and [P.isInteger; P.isValidStatusCode]; P.isUndefined]
            [P.always; P.always] "if defined must be valid HTTP status code")
         v path) <> []
  <-> v <> VUndefined /\ forall n, v = VInt n -> ~ (100 <= n <= 599).
Proof.
  unfold P.branch.
  destruct v; cbn;
    try (split; [ intros _; split; [discriminate|intros ? [=]]
                | intros _; discriminate ]).
  - split; [congruence|]. intros [H _]. congruence.
  - unfold V.ge, V.le; cbn.
    destruct (Z.leb_spec 100 n) as [Hlo|Hlo], (Z.leb_spec n 599) as [Hhi|Hhi];
      cbn;
      (split; [ intros Hne; split;
                [discriminate|intros ? [= <-]; try lia; try congruence] |]).
    all: try (intros _; discriminate).
    intros [_ Hn]. exfalso. apply (Hn n eq_refl). lia.
Qed.

Lemma delay_fails (v : value) (path : list string) :
  snd (V.validate
         (P.branch [HTTPSchema.isPositiveInt; P.isUndefined]
            [P.always; P.always] "if defined must be positive integer")
         v path) <> []
  <-> v <> VUndefined /\ forall n, v = VInt n -> n < 0.
Proof.
  unfold P.branch.
  destruct v; cbn;
    try (split; [ intros _; split; [discriminate|intros ? [=]]
                | intros _; discriminate ]).
  - split; [congruence|]. intros [H _]. congruence.
  - unfold V.ge; cbn.
    destruct (Z.leb_spec 0 n) as [Hlo|Hlo]; cbn;
      (split; [ intros Hne; split;
                [discriminate|intros ? [= <-]; try lia; try congruence] |]).
    all: try (intros _; discriminate).
    intros [_ Hn]. specialize (Hn n eq_refl). lia.
Qed.

Lemma bufferable_fails (v : value) (path : list string) :
  snd (V.validate HTTPSchema.optBufferable v path) <> []
  <-> _isString v || _isBuffer v || _isUndefined v = false.
Proof.
  destruct v; cbn; split; intros H; try discriminate; try reflexivity;
    try (exfalso; now apply H).
Qed.

Lemma destroy_fails (v : value) (path : list string) :
  snd (V.validate
         (P.branch [P.isBoolean; P.isUndefined] [P.always; P.always]
            "if defined must be boolean")
         v path) <> []
  <-> _isBoolean v || _isUndefined v = false.
Proof.
  destruct v; cbn; split; intros H; try discriminate; try reflexivity;
    try (exfalso; now apply H).
Qed.

End ResolverFacts.

(** C6.  [toHTTPRes] is a total function of the descriptor: every call
    of a function of the user goes through [safeInvoke], where a fault
    ends.  For an absent descriptor, for a callable descriptor that faults
    and for a descriptor each of whose six fields is absent or a callable
    that faults, the result is the defaults: empty body, status 200, no
    headers, both delays 0 and no socket destruction; whatever the other
    fields are, a field whose callable faults takes its default.  A body
    that resolves to a string is UTF-8 encoded and one that resolves to a
    buffer is that buffer. *)
Theorem toHTTPRes_defaults
    {env : Host} (req : IncomingMessage) (reqBody : list byte) :
  let args := [AReq req; AVal (VBuf reqBody)] in
  let defaults :=
    {| res_body := []; res_statusCode := 200; res_headers := [];
       res_headerDelay := 0; res_bodyDelay := 0;
       res_destroySocket := false |} in
  let faults v := exists f e, v = VFun f /\ V.call f args = Throw e in
  let resolved res := safeInvoke res VUndefined args in
  toHTTPRes VUndefined req reqBody = defaults
  /\ (forall f e, V.call f args = Throw e ->
                  toHTTPRes (VFun f) req reqBody = defaults)
  /\ (forall res,
         (forall k,
             In k ["body"; "statusCode"; "headers"; "headerDelay";
                   "bodyDelay"; "destroySocket"] ->
             get (resolved res) k = VUndefined
             \/ faults (get (resolved res) k)) ->
         toHTTPRes res req reqBody = defaults)
  /\ (forall res,
         (faults (get (resolved res) "body") ->
          res_body (toHTTPRes res req reqBody) = [])
         /\ (faults (get (resolved res) "statusCode") ->
             res_statusCode (toHTTPRes res req reqBody) = 200)
         /\ (faults (get (resolved res) "headers") ->
             res_headers (toHTTPRes res req reqBody) = [])
         /\ (faults (get (resolved res) "headerDelay") ->
             res_headerDelay (toHTTPRes res req reqBody) = 0)
         /\ (faults (get (resolved res) "bodyDelay") ->
             res_bodyDelay (toHTTPRes res req reqBody) = 0)
         /\ (faults (get (resolved res) "destroySocket") ->
             res_destroySocket (toHTTPRes res req reqBody) = false))
  /\ (forall res s,
         resolved (get (resolved res) "body") = VStr s ->
         res_body (toHTTPRes res req reqBody) = utf8_encode s)
  /\ (forall res b,
         resolved (get (resolved res) "body") = VBuf b ->
         res_body (toHTTPRes res req reqBody) = b).
Proof.
  intros args defaults faults resolved.
  assert (Hfault : forall v, faults v -> resolved v = VUndefined).
  { intros v (f & e & -> & Hf). exact (safeInvoke_throw f VUndefined args e Hf). }
  assert (Hone : forall v, v = VUndefined \/ faults v ->
                           resolved v = VUndefined).
  { intros v [->|Hv]; [reflexivity|now apply Hfault]. }
  repeat match goal with |- _ /\ _ => split end.
  - reflexivity.
  - intros f e Hf. unfold toHTTPRes. fold args.
    now rewrite (safeInvoke_throw f VUndefined args e Hf).
  - intros res Hfields. unfold toHTTPRes. fold args. fold (resolved res).
    unfold defaults, toBuffer, toStatusCode, toHeaders, toDelay,
      toDestroySocket.
    repeat match goal with
           | |- context [safeInvoke (get (resolved res) ?k) VUndefined args] =>
               change (safeInvoke (get (resolved res) k) VUndefined args)
                 with (resolved (get (resolved res) k));
               rewrite (Hone (get (resolved res) k))
                 by (apply Hfields; simpl; tauto)
           end.
    reflexivity.
  - intros res.
    repeat match goal with |- _ /\ _ => split end;
      intros Hf; apply Hfault in Hf; unfold resolved in Hf;
      unfold toHTTPRes; fold args; cbn [res_body res_statusCode res_headers
        res_headerDelay res_bodyDelay res_destroySocket];
      unfold toBuffer, toStatusCode, toHeaders, toDelay, toDestroySocket;
      now rewrite Hf.
  - intros res s Hs. unfold toHTTPRes. fold args. simpl.
    unfold toBuffer. unfold resolved in Hs. now rewrite Hs.
  - intros res b Hb. unfold toHTTPRes. fold args. simpl.
    unfold toBuffer. unfold resolved in Hb. now rewrite Hb.
Qed.

Lemma toHTTPRes_defaults_witness :
  toHTTPRes (env := Example.toy)
    (VObj [("body", VFun (User "throws"));
           ("statusCode", VFun (User "throws"))])
    (Example.GET "/") []
  = {| res_body := []; res_statusCode := 200; res_headers := [];
       res_headerDelay := 0; res_bodyDelay := 0; res_destroySocket := false |}.
Proof.
  apply (proj1 (proj2 (proj2 (@toHTTPRes_defaults Example.toy
                                (Example.GET "/") [])))).
  intros k [<-|[<-|[<-|[<-|[<-|[<-|[]]]]]]];
    try (now left);
    right; exists (User "throws"), Example.oops; split; reflexivity.
Defined.

(** C10.  A callable given for [statusCode], [body], a delay or
    [destroySocket] is wrapped by the validator.  When, at response time,
    it returns a value that fails the predicate of the wrapper (a status
    that is neither absent nor an integer from 100 to 599, a body that is
    neither absent nor a string nor a buffer, a delay that is neither
    absent nor an integer from 0 up, a flag that is neither absent nor a
    boolean), the wrapper throws a ValidationError, [safeInvoke] catches it
    and the resolver falls back on its default: 200, empty bytes, 0 and
    false. *)
Theorem late_validation_failure_gives_default
    {env : Host} (f : func) (path : list string) (args : list arg)
    (v : value) :
  V.call f args = Ret v ->
  let fails q := snd (V.validate q v (V.funcPath path)) <> [] in
  let caught q :=
    (exists msg, V.call (Late q path f) args = Throw (V.ValidationError msg))
    /\ safeInvoke (VFun (Late q path f)) VUndefined args = VUndefined in
  let status :=
    P.branch [P.and [P.isInteger; P.isValidStatusCode]; P.isUndefined]
      [P.always; P.always] "if defined must be valid HTTP status code" in
  let delay :=
    P.branch [HTTPSchema.isPositiveInt; P.isUndefined] [P.always; P.always]
      "if defined must be positive integer" in
  let destroy :=
    P.branch [P.isBoolean; P.isUndefined] [P.always; P.always]
      "if defined must be boolean" in
  (V.validate HTTPSchema.statusCode (VFun f) path
   = (VFun (Late status path f), [])
   /\ (fails status
       <-> v <> VUndefined /\ forall n, v = VInt n -> ~ (100 <= n <= 599))
   /\ (fails status ->
       caught status /\ toStatusCode (VFun (Late status path f)) args = 200))
  /\ (V.validate HTTPSchema.funcOptBufferable (VFun f) path
      = (VFun (Late HTTPSchema.optBufferable path f), [])
      /\ (fails HTTPSchema.optBufferable
          <-> _isString v || _isBuffer v || _isUndefined v = false)
      /\ (fails HTTPSchema.optBufferable ->
          caught HTTPSchema.optBufferable
          /\ toBuffer (VFun (Late HTTPSchema.optBufferable path f)) args = []))
  /\ (V.validate HTTPSchema.delay (VFun f) path
      = (VFun (Late delay path f), [])
      /\ (fails delay <-> v <> VUndefined /\ forall n, v = VInt n -> n < 0)
      /\ (fails delay ->
          caught delay /\ toDelay (VFun (Late delay path f)) args = 0))
  /\ (V.validate HTTPSchema.destroySocket (VFun f) path
      = (VFun (Late destroy path f), [])
      /\ (fails destroy <-> _isBoolean v || _isUndefined v = false)
      /\ (fails destroy ->
          caught destroy
          /\ toDestroySocket (VFun (Late destroy path f)) args = false)).
Proof.
  intros Hcall fails caught status delay destroy.
  assert (Hcaught : forall q, fails q -> caught q).
  { intros q Hq.
    destruct (call_late_invalid q path f args v Hcall Hq) as [msg Hmsg].
    split; [now exists msg|].
    exact (safeInvoke_throw _ VUndefined args _ Hmsg). }
  assert (Hdefault : forall q,
             fails q ->
             caught q
             /\ toStatusCode (VFun (Late q path f)) args = 200
             /\ toBuffer (VFun (Late q path f)) args = []
             /\ toDelay (VFun (Late q path f)) args = 0
             /\ toDestroySocket (VFun (Late q path f)) args = false).
  { intros q Hq. split; [now apply Hcaught|].
    destruct (Hcaught _ Hq) as [_ Hsafe].
    unfold toStatusCode, toBuffer, toDelay, toDestroySocket.
    now rewrite Hsafe. }
  split; [|split; [|split]]; (split; [reflexivity|split]).
  - apply status_fails.
  - intros Hq. now destruct (Hdefault _ Hq) as (? & ? & _).
  - apply bufferable_fails.
  - intros Hq. now destruct (Hdefault _ Hq) as (? & _ & ? & _).
  - apply delay_fails.
  - intros Hq. now destruct (Hdefault _ Hq) as (? & _ & _ & ? & _).
  - apply destroy_fails.
  - intros Hq. now destruct (Hdefault _ Hq) as (? & _ & _ & _ & ?).
Qed.

Lemma late_validation_failure_witness :
  toStatusCode (env := Example.toy)
    (fst (V.validate (env := Example.toy) HTTPSchema.statusCode
            (VFun (User "five")) ["options"; "res"; "statusCode"]))
    [AReq (Example.GET "/"); AVal (VBuf [])]
  = 200.
Proof.
  apply (@late_validation_failure_gives_default Example.toy (User "five")
           ["options"; "res"; "statusCode"]
           [AReq (Example.GET "/"); AVal (VBuf [])] (VInt 5) eq_refl).
  discriminate.
Defined.

(** ** The validator *)

Section ValidatorFacts.
Context {env : Host}.

Lemma validate_branches (bn : list (P.pred * P.pred)) (msg : string)
    (v : value) (path : list string) :
  V.validate (P.branches bn msg) v path
  = match V.branch_loop V.validate bn v path with
    | Some res => res
    | None => (v, V.error path msg v)
    end.
Proof. reflexivity. Qed.

Lemma validate_branches_cons (b n : P.pred) (bn : list (P.pred * P.pred))
    (msg : string) (v : value) (path : list string) :
  V.validate (P.branches ((b, n) :: bn) msg) v path
  = if null (snd (V.validate b v path)) then
      V.validate n (fst (V.validate b v path)) path
    else V.validate (P.branches bn msg) v path.
Proof.
  rewrite !validate_branches. cbn [V.branch_loop].
  destruct (V.validate b v path) as [g errors]. simpl.
  now destruct (null errors).
Qed.

Lemma validate_branches_nil (msg : string) (v : value) (path : list string) :
  V.validate (P.branches [] msg) v path = (v, V.error path msg v).
Proof. reflexivity. Qed.

Lemma validate_isPlainObject (v : value) (path : list string) :
  V.validate P.isPlainObject v path
  = (v, if _isPlainObject v then [] else V.error path "must be plain object" v).
Proof. reflexivity. Qed.

Lemma obj_loop_eq (o : list (string * P.pred)) (v : value)
    (path : list string) (conformed : list (string * value))
    (errors : list string) :
  V.obj_loop V.validate o v path conformed errors
  = (VObj (fold_left (put v path) o conformed),
     errors ++ flat_map (fun kp => snd (field_result v path kp)) o).
Proof.
  revert conformed errors. unfold put, field_result.
  induction o as [|[k p] o IH]; intros conformed errors; simpl.
  - now rewrite app_nil_r.
  - destruct (V.validate p (read v k) (path ++ [k])) as [c keyErrors]. simpl.
    rewrite IH. now rewrite app_assoc.
Qed.

Lemma validate_obj (o : list (string * P.pred)) (v : value)
    (path : list string) :
  _isPlainObject v = true ->
  V.validate (P.obj o) v path
  = (VObj (fold_left (put v path) o []),
     flat_map (fun kp => snd (field_result v path kp)) o).
Proof.
  intros Hv. cbn [V.validate]. rewrite Hv. cbn [negb]. apply obj_loop_eq.
Qed.

Lemma assoc_assign_eq (k : string) (v : value) (es : list (string * value)) :
  k <> "__proto__" -> assoc k (assign es k v) = v.
Proof.
  intros Hk. unfold assign.
  destruct (String.eqb_spec k "__proto__"); [contradiction|].
  apply assoc_set_eq.
Qed.

Lemma assoc_assign_neq (k k' : string) (v : value)
    (es : list (string * value)) :
  k <> k' -> assoc k (assign es k' v) = assoc k es.
Proof.
  intros Hne. unfold assign. destruct (String.eqb k' "__proto__");
    [reflexivity|now apply assoc_set_neq].
Qed.

Lemma own_assign_neq (k k' : string) (v : value)
    (es : list (string * value)) :
  k <> k' -> own k (assign es k' v) = own k es.
Proof.
  intros Hne. unfold assign. destruct (String.eqb k' "__proto__");
    [reflexivity|now apply own_set_neq].
Qed.

Lemma assoc_put_other (v : value) (path : list string) (k : string)
    (o : list (string * P.pred)) (conformed : list (string * value)) :
  ~ In k (map fst o) ->
  assoc k (fold_left (put v path) o conformed) = assoc k conformed.
Proof.
  revert conformed. induction o as [|[k' p'] o IH]; intros conformed Hk;
    simpl in *; [reflexivity|].
  rewrite IH by tauto. unfold put. simpl.
  destruct (_isUndefined _); [reflexivity|].
  apply assoc_assign_neq. intros ->. tauto.
Qed.

Lemma own_put_other (v : value) (path : list string) (k : string)
    (o : list (string * P.pred)) (conformed : list (string * value)) :
  ~ In k (map fst o) ->
  own k (fold_left (put v path) o conformed) = own k conformed.
Proof.
  revert conformed. induction o as [|[k' p'] o IH]; intros conformed Hk;
    simpl in *; [reflexivity|].
  rewrite IH by tauto. unfold put. simpl.
  destruct (_isUndefined _); [reflexivity|].
  apply own_assign_neq. intros ->. tauto.
Qed.

(** What [obj] conforms is a map when its schema has no key
    [constructor]. *)
Lemma put_plain (v : value) (path : list string)
    (o : list (string * P.pred)) :
  ~ In "constructor" (map fst o) ->
  _isPlainObject (VObj (fold_left (put v path) o [])) = true.
Proof.
  intros Hk. apply plain_fresh. now rewrite own_put_other.
Qed.

Lemma assoc_put (v : value) (path : list string) (k : string) (p : P.pred)
    (o : list (string * P.pred)) (conformed : list (string * value)) :
  NoDup (map fst o) ->
  In (k, p) o ->
  k <> "__proto__" ->
  assoc k conformed = VUndefined ->
  assoc k (fold_left (put v path) o conformed)
  = fst (field_result v path (k, p)).
Proof.
  revert conformed.
  induction o as [|[k' p'] o IH]; intros conformed Hnd Hin Hproto Hk;
    simpl in *; [contradiction|].
  inversion Hnd as [|? ? Hnotin Hnd']; subst.
  destruct Hin as [[= -> ->]|Hin].
  - rewrite assoc_put_other by assumption.
    unfold put. simpl.
    destruct (fst (field_result v path (k, p))) eqn:E; simpl;
      try (now apply assoc_assign_eq). exact Hk.
  - apply IH; auto.
    assert (k <> k').
    { intros ->. apply Hnotin. apply (in_map fst) in Hin. exact Hin. }
    unfold put. simpl. destruct (_isUndefined _); [exact Hk|].
    rewrite assoc_assign_neq; auto.
Qed.

Lemma conform_errors (res : V.result) :
  snd res <> [] -> exists msg, V.conform res = Throw (V.ValidationError msg).
Proof.
  destruct res as [c [|e errors]]; simpl; [congruence|].
  intros _. eexists. reflexivity.
Qed.

Lemma conform_ok (c : value) : V.conform (c, []) = Ret c.
Proof. reflexivity. Qed.


Lemma optBufferable_same (v : value) (path : list string) :
  fst (V.validate HTTPSchema.optBufferable v path) = v.
Proof. destruct v; reflexivity. Qed.

Lemma pinnedTo_same (v : value) (path : list string) :
  fst (V.validate (P.or [P.isUndefined; P.isPlainObject]) v path) = v.
Proof.
  destruct v as [| |b|n|s|b|src|f|es|vs|r|n|]; try reflexivity.
  cbn [V.validate V.or_loop V.r _isUndefined snd null].
  now destruct (_isPlainObject (VObj es)).
Qed.

Lemma optComparable_defined (v : value) (path : list string) :
  v <> VUndefined ->
  fst (V.validate HTTPSchema.optComparable v path) <> VUndefined.
Proof. destruct v; cbn; congruence. Qed.

Lemma tcp_res_defined (v : value) (path : list string) :
  v <> VUndefined -> fst (V.validate TCPSchema.res v path) <> VUndefined.
Proof.
  destruct v as [| |b|n|s|b|src|f|es|vs|r|n|]; try (cbn; congruence);
    intros _.
  unfold TCPSchema.res, P.branchWithFunction, P.branch. cbn [app combine].
  rewrite validate_branches_cons, validate_isPlainObject. cbn [fst snd].
  destruct (_isPlainObject (VObj es)) eqn:Hp; cbn [null V.error].
  - unfold TCPSchema.resObj. rewrite validate_obj by exact Hp. discriminate.
  - cbn. discriminate.
Qed.

Lemma exclusive_both (groupA groupB : list string) (v : value)
    (path : list string) :
  _isPlainObject v = true ->
  V.defined v groupA <> [] ->
  V.defined v groupB <> [] ->
  snd (V.validate (P.exclusive groupA groupB) v path) <> [].
Proof.
  intros Hv HA HB. simpl. rewrite Hv. simpl.
  destruct (V.defined v groupA); [congruence|].
  destruct (V.defined v groupB); [congruence|].
  simpl. discriminate.
Qed.

Lemma defined_in (v : value) (group : list string) (k : string) :
  In k group -> own_names [k] = true -> get v k <> VUndefined ->
  V.defined v group <> [].
Proof.
  intros Hin Hown Hk Hnil.
  assert (Hf : In k (V.defined v group)).
  { apply filter_In. split; [exact Hin|]. rewrite read_get by exact Hown.
    now destruct (get v k). }
  rewrite Hnil in Hf. contradiction.
Qed.

Lemma tcp_fields_NoDup : NoDup (map fst tcp_fields).
Proof.
  simpl. repeat constructor; simpl; intuition discriminate.
Qed.

Lemma tcp_conformed_plain (v : value) (path : list string) :
  _isPlainObject (VObj (fold_left (put v path) tcp_fields [])) = true.
Proof. apply put_plain. simpl. intuition discriminate. Qed.

(** The conformed object of the TCP mock schema keeps what is defined. *)
Lemma tcp_conformed_defined (v : value) (path : list string) :
  let c := VObj (fold_left (put v path) tcp_fields []) in
  get c "_pinnedTo" = get v "_pinnedTo"
  /\ get c "init" = get v "init"
  /\ (get v "req" <> VUndefined -> get c "req" <> VUndefined)
  /\ (get v "res" <> VUndefined -> get c "res" <> VUndefined).
Proof.
  intros c.
  assert (Hget : forall k p, In (k, p) tcp_fields ->
                             get c k = fst (field_result v path (k, p))).
  { intros k p Hin.
    change (get c k) with (assoc k (fold_left (put v path) tcp_fields [])).
    apply assoc_put; [apply tcp_fields_NoDup|exact Hin| |reflexivity].
    intros ->. simpl in Hin. intuition discriminate. }
  rewrite (Hget "_pinnedTo" (P.or [P.isUndefined; P.isPlainObject]))
    by (simpl; auto).
  rewrite (Hget "init" HTTPSchema.optBufferable) by (simpl; auto).
  rewrite (Hget "req" HTTPSchema.optComparable) by (simpl; auto).
  rewrite (Hget "res" TCPSchema.res) by (simpl; auto 6).
  unfold field_result. cbn [fst snd].
  rewrite !read_get by reflexivity.
  repeat split.
  - apply pinnedTo_same.
  - apply optBufferable_same.
  - apply optComparable_defined.
  - apply tcp_res_defined.
Qed.

Lemma tcp_mockSchemaObj_eq (v : value) (path : list string) :
  _isPlainObject v = true ->
  V.validate TCPSchema.mockSchemaObj v path
  = let c := VObj (fold_left (put v path) tcp_fields []) in
    let errors := flat_map (fun kp => snd (field_result v path kp)) tcp_fields in
    if null errors then
      let '(c1, errors1) :=
        V.validate (P.exclusive ["init"] ["req"; "res"]) c path in
      if null errors1 then
        let '(c2, errors2) := V.validate TCPSchema.connectionPinned c1 path in
        if null errors2 then (c2, []) else (v, errors2)
      else (v, errors1)
    else (v, errors).
Proof.
  intros Hv. unfold TCPSchema.mockSchemaObj.
  change (V.validate (P.and ?ps) v path) with (V.and_loop V.validate ps v v path).
  cbn [V.and_loop]. fold tcp_fields. rewrite validate_obj by exact Hv.
  cbv zeta. destruct (null _); [|reflexivity].
  destruct (V.validate (P.exclusive ["init"] ["req"; "res"]) _ path) as [c1 e1].
  destruct (null e1); [|reflexivity].
  destruct (V.validate TCPSchema.connectionPinned c1 path) as [c2 e2].
  destruct (null e2); reflexivity.
Qed.


Lemma null_false {A : Type} (l : list A) : l <> [] -> null l = false.
Proof. now destruct l. Qed.

Lemma exclusive_same (groupA groupB : list string) (v : value)
    (path : list string) :
  fst (V.validate (P.exclusive groupA groupB) v path) = v.
Proof.
  simpl. destruct (negb (_isPlainObject v)); [reflexivity|].
  now destruct (_ && _).
Qed.

Lemma validate_alias (q : P.pred) (message : string) (v : value)
    (path : list string) :
  V.validate (P.alias q message) v path
  = (fst (V.validate q v path),
     if null (snd (V.validate q v path)) then []
     else V.error path message v).
Proof.
  change (V.validate (P.alias q message) v path)
    with (let '(conformed, errors) := V.validate q v path in
          V.r conformed (if null errors then [] else V.error path message v)).
  now destruct (V.validate q v path).
Qed.

Lemma tcp_mockSchema_plain (v : value) (path : list string) :
  _isPlainObject v = true ->
  V.validate TCPSchema.mockSchema v path
  = V.validate TCPSchema.mockSchemaObj v path.
Proof.
  intros Hv. unfold TCPSchema.mockSchema, P.branch.
  cbn [V.validate V.branch_loop combine V.r]. now rewrite Hv.
Qed.

Lemma tcp_init_with_req_or_res (v : value) (path : list string) :
  _isPlainObject v = true ->
  get v "init" <> VUndefined ->
  get v "req" <> VUndefined \/ get v "res" <> VUndefined ->
  snd (V.validate TCPSchema.mockSchema v path) <> [].
Proof.
  intros Hv Hinit Hreqres.
  rewrite tcp_mockSchema_plain, tcp_mockSchemaObj_eq by exact Hv.
  cbv zeta.
  destruct (tcp_conformed_defined v path) as (_ & Hi & Hreq & Hres).
  set (c := VObj (fold_left (put v path) tcp_fields [])) in *.
  destruct (flat_map _ tcp_fields) as [|e errors]; [|discriminate].
  cbn [null].
  assert (Hex : snd (V.validate (P.exclusive ["init"] ["req"; "res"]) c path)
                <> []).
  { apply exclusive_both; [apply tcp_conformed_plain| |].
    - apply defined_in with "init"; [now left|reflexivity|]. now rewrite Hi.
    - destruct Hreqres as [H|H].
      + apply defined_in with "req"; [now left|reflexivity|]. now apply Hreq.
      + apply defined_in with "res"; [right; now left|reflexivity|]. now apply Hres. }
  destruct (V.validate (P.exclusive ["init"] ["req"; "res"]) c path)
    as [c1 e1].
  simpl in Hex. rewrite (null_false _ Hex). exact Hex.
Qed.

Lemma tcp_init_pinned (v : value) (path : list string) :
  _isPlainObject v = true ->
  get v "init" <> VUndefined ->
  get v "_pinnedTo" <> VUndefined ->
  snd (V.validate TCPSchema.mockSchema v path) <> [].
Proof.
  intros Hv Hinit Hpinned.
  rewrite tcp_mockSchema_plain, tcp_mockSchemaObj_eq by exact Hv.
  cbv zeta.
  destruct (tcp_conformed_defined v path) as (Hp & Hi & _).
  set (c := VObj (fold_left (put v path) tcp_fields [])) in *.
  destruct (flat_map _ tcp_fields) as [|e errors]; [|discriminate].
  cbn [null].
  pose proof (exclusive_same ["init"] ["req"; "res"] c path) as Hsame.
  destruct (V.validate (P.exclusive ["init"] ["req"; "res"]) c path)
    as [c1 e1].
  simpl in Hsame. subst c1.
  destruct e1 as [|e1 errors1]; [|discriminate]. cbn [null].
  assert (Hex : snd (V.validate (P.exclusive ["init"] ["_pinnedTo"]) c path)
                <> []).
  { apply exclusive_both; [apply tcp_conformed_plain| |].
    - apply defined_in with "init"; [now left|reflexivity|]. now rewrite Hi.
    - apply defined_in with "_pinnedTo"; [now left|reflexivity|]. now rewrite Hp. }
  unfold TCPSchema.connectionPinned. rewrite validate_alias.
  rewrite (null_false _ Hex). cbn. discriminate.
Qed.

Lemma tcp_mockSchema_not_plain (v : value) (path : list string) :
  _isPlainObject v = false ->
  V.validate TCPSchema.mockSchema v path
  = (v, if _isUndefined v then []
        else V.error path "if defined must be plain object" v).
Proof.
  intros Hv. unfold TCPSchema.mockSchema, P.branch.
  cbn [V.validate V.branch_loop combine V.r]. rewrite Hv. cbn.
  now destruct (_isUndefined v).
Qed.

Lemma tcp_not_plain_rejected (es : list (string * value))
    (path : list string) :
  _isPlainObject (VObj es) = false ->
  snd (V.validate TCPSchema.mockSchema (VObj es) path) <> [].
Proof.
  intros Hv. rewrite tcp_mockSchema_not_plain by exact Hv. discriminate.
Qed.

(** A conformed TCP declaration that is pinned has no [init]. *)
Lemma tcp_conformed_pinned_no_init (v c : value) (path : list string) :
  V.validate TCPSchema.mockSchema v path = (c, []) ->
  get c "_pinnedTo" <> VUndefined ->
  get c "init" = VUndefined.
Proof.
  destruct (_isPlainObject v) eqn:Hv.
  - rewrite tcp_mockSchema_plain, tcp_mockSchemaObj_eq by exact Hv.
    cbv zeta.
    set (c0 := VObj (fold_left (put v path) tcp_fields [])).
    destruct (flat_map _ tcp_fields) as [|e0 errors0]; cbn [null];
      [|discriminate].
    pose proof (exclusive_same ["init"] ["req"; "res"] c0 path) as Hsame.
      destruct (V.validate (P.exclusive ["init"] ["req"; "res"]) c0 path)
        as [c1 e1].
    simpl in Hsame. subst c1.
    destruct e1 as [|e1 errors1]; [|discriminate]. cbn [null].
    unfold TCPSchema.connectionPinned. rewrite validate_alias.
    rewrite exclusive_same. cbn [fst snd].
    destruct (null (snd (V.validate (P.exclusive ["init"] ["_pinnedTo"])
                           c0 path))) eqn:Hnull.
    + cbn [null]. intros [= <-] Hpinned.
      destruct (get c0 "init") eqn:Hinit; try reflexivity; exfalso;
        apply null_nil in Hnull; revert Hnull;
        (apply exclusive_both; [apply tcp_conformed_plain| |]);
        try (apply defined_in with "init"; [now left|reflexivity|];
             rewrite Hinit; discriminate);
        (apply defined_in with "_pinnedTo"; [now left|reflexivity|exact Hpinned]).
    + cbn. discriminate.
  - rewrite tcp_mockSchema_not_plain by exact Hv.
    intros [= <- Herr] Hpinned. destruct v; try discriminate.
    now elim Hpinned.
Qed.

End ValidatorFacts.

(** ** TCP declarations *)

Section TCPDeclarations.
Context {env : Host}.

Lemma newMock_rejected (o : value) (records : list (option nat)) :
  snd (V.validate TCPSchema.mockSchema o ["options"]) <> [] ->
  exists msg, TCP.newMock o records = Throw (V.ValidationError msg).
Proof.
  intros Herr. destruct (conform_errors _ Herr) as [msg Hmsg].
  exists msg. unfold TCP.newMock. now rewrite Hmsg.
Qed.

Lemma add_rejected (o : value) (s : TCP.MockSet) :
  snd (V.validate TCPSchema.mockSchema o ["options"]) <> [] ->
  exists msg, TCP.add o s = (s, Throw (V.ValidationError msg)).
Proof.
  intros Herr. destruct (newMock_rejected o (TCP.records s) Herr) as [msg Hmsg].
  exists msg. unfold TCP.add. now rewrite Hmsg.
Qed.

Lemma get_orEmpty (c : value) (k : string) :
  get (TCP.orEmpty c) k = get c k.
Proof. now destruct c. Qed.

(** What [Mock] makes: a pending head mock with a fresh record, or a
    pending tail mock on the record it was given, which is no init mock. *)
Lemma newMock_made (o : value) (records records' : list (option nat))
    (m : TCP.Mock) :
  TCP.newMock o records = Ret (m, records') ->
  TCP.done m = false
  /\ ((TCP.isHeadMock m = true
       /\ TCP.pinnedTo m = VPinned (List.length records)
       /\ records' = records ++ [None])
      \/ (TCP.isHeadMock m = false
          /\ TCP.pinnedTo m <> VUndefined
          /\ records' = records
          /\ TCP.isInit m = false)).
Proof.
  unfold TCP.newMock.
  destruct (V.validate TCPSchema.mockSchema o ["options"]) as [c errors] eqn:Hv.
  destruct errors as [|e errors]; [|discriminate]. cbn [V.conform null bind].
  pose proof (tcp_conformed_pinned_no_init o c ["options"] Hv) as Hinit.
  rewrite <- (get_orEmpty c "_pinnedTo"), <- (get_orEmpty c "init") in Hinit.
  destruct (get (TCP.orEmpty c) "_pinnedTo") eqn:Hp; intros [= <- <-];
    (split; [reflexivity|]);
    try (left; repeat split; reflexivity);
    right; repeat split; try discriminate;
    unfold TCP.isInit; cbn [TCP.options];
    rewrite Hinit by discriminate; reflexivity.
Qed.

End TCPDeclarations.

(** The claim C8 says that exactly one of [init] and [(req, res)] is
    populated.  The declaration [{}] populates neither and is accepted: it
    makes a head mock that answers any data. *)
Lemma tcp_declaration_with_neither_is_accepted :
  exists m,
    TCP.add (env := Example.toy) (VObj []) TCP.empty
    = ({| TCP.created := [m]; TCP.mocks := [0%nat]; TCP.records := [None];
          TCP.connections := [] |}, Ret 0%nat)
    /\ get (TCP.options m) "init" = VUndefined
    /\ get (TCP.options m) "req" = VUndefined
    /\ get (TCP.options m) "res" = VUndefined.
Proof. eexists. repeat split. Qed.

(** C8, amended.  At most one of [init] and [(req, res)] may be
    populated: a declaration that defines [init] together with [req] or
    [res] is rejected with a ValidationError, and so is a declaration made
    through a mock handle (a pinned child) that defines [init]; a rejected
    declaration adds no mock.  A declaration that defines neither is
    accepted. *)
Theorem tcp_init_excludes_req_res_and_pinning {env : Host} :
  (forall es s,
      assoc "init" es <> VUndefined ->
      assoc "req" es <> VUndefined \/ assoc "res" es <> VUndefined ->
      exists msg, TCP.add (VObj es) s = (s, Throw (V.ValidationError msg)))
  /\ (forall o0 records0 m records1,
         TCP.newMock o0 records0 = Ret (m, records1) ->
         forall es s,
           assoc "init" es <> VUndefined ->
           exists msg,
             TCP.mock m (VObj es) s = (s, Throw (V.ValidationError msg)))
  /\ (forall s,
         snd (TCP.add (VObj []) s) = Ret (List.length (TCP.created s))
         /\ snd (TCP.add VUndefined s) = Ret (List.length (TCP.created s))).
Proof.
  repeat match goal with |- _ /\ _ => split end.
  - intros es s Hinit Hreqres. apply add_rejected.
    destruct (_isPlainObject (VObj es)) eqn:Hplain;
      [now apply tcp_init_with_req_or_res|now apply tcp_not_plain_rejected].
  - intros o0 records0 m records1 Hm es s Hinit.
    unfold TCP.mock. apply add_rejected. cbn [TCP.spread].
    destruct (_isPlainObject (VObj (set es "_pinnedTo" (TCP.pinnedTo m))))
      eqn:Hplain; [|now apply tcp_not_plain_rejected].
    apply tcp_init_pinned.
    + exact Hplain.
    + cbn [get TCP.spread]. rewrite assoc_set_neq by discriminate.
      exact Hinit.
    + cbn [get]. rewrite assoc_set_eq.
      destruct (newMock_made _ _ _ _ Hm) as (_ & [(_ & -> & _)|(_ & Hp & _)]);
        [discriminate|exact Hp].
  - intros s. split; reflexivity.
Qed.

Lemma tcp_init_excludes_witness :
  exists msg,
    TCP.add (env := Example.toy)
      (VObj [("init", VStr "bloop"); ("req", VStr "oof"); ("res", VStr "youch")])
      TCP.empty
    = (TCP.empty, Throw (V.ValidationError msg)).
Proof.
  apply (proj1 (@tcp_init_excludes_req_res_and_pinning Example.toy)).
  - discriminate.
  - left. discriminate.
Defined.

(** ** The TCP matcher: pinning *)

Section TCPFacts.
Context {env : Host}.

Lemma find_some (created : list TCP.Mock) (f : TCP.Mock -> bool)
    (mocks : list nat) (h : nat) :
  TCP.find created f mocks = Some h ->
  exists m, nth_error created h = Some m /\ f m = true.
Proof.
  induction mocks as [|h' mocks IH]; simpl; [discriminate|].
  destruct (nth_error created h') as [m|] eqn:Hm; [|exact IH].
  destruct (f m) eqn:Hf; [|exact IH].
  intros [= <-]. now exists m.
Qed.

Lemma nth_app_None (records : list (option nat)) (r : nat) :
  nth r (records ++ [None]) None = nth r records None.
Proof.
  destruct (Nat.lt_ge_cases r (List.length records)) as [Hlt|Hge].
  - now apply app_nth1.
  - rewrite app_nth2 by exact Hge. rewrite (nth_overflow records) by exact Hge.
    destruct (r - List.length records)%nat as [|[|n]]; reflexivity.
Qed.

Lemma connection_app_None (records : list (option nat)) (p : value) :
  TCP.connection (records ++ [None]) p = TCP.connection records p.
Proof. destruct p; simpl; auto using nth_app_None. Qed.

Lemma nth_update (records : list (option nat)) (r r' : nat) (c : option nat) :
  nth r' (update records r (fun _ => c)) None
  = if Nat.eqb r r' && Nat.ltb r' (List.length records) then c
    else nth r' records None.
Proof.
  revert r r'. induction records as [|x records IH]; intros [|r] [|r']; simpl;
    try reflexivity.
  - now rewrite andb_false_r.
  - rewrite IH. simpl. reflexivity.
Qed.

Lemma invariant_empty : pinning_invariant TCP.empty.
Proof.
  split; [|split].
  - intros [|h] m; discriminate.
  - intros [|h] h' m m'; discriminate.
  - intros [|h] m; discriminate.
Qed.

Lemma nth_error_snoc {A : Type} (l : list A) (x : A) (i : nat) (y : A) :
  nth_error (l ++ [x]) i = Some y ->
  nth_error l i = Some y \/ (i = List.length l /\ y = x).
Proof.
  intros H. destruct (Nat.lt_ge_cases i (List.length l)) as [Hlt|Hge].
  - left. now rewrite nth_error_app1 in H.
  - right. rewrite nth_error_app2 in H by exact Hge.
    destruct (i - List.length l)%nat as [|[|n]] eqn:E; simpl in H;
      try discriminate.
    split; [lia|congruence].
Qed.

Lemma invariant_add (o : value) (s : TCP.MockSet) :
  pinning_invariant s -> pinning_invariant (fst (TCP.add o s)).
Proof.
  intros (Hhead & Huniq & Htail). unfold TCP.add.
  destruct (TCP.newMock o (TCP.records s)) as [[m records']|e] eqn:Hnew;
    [|now split; [|split]].
  destruct (newMock_made _ _ _ _ Hnew)
    as (Hdone & [(Hh & Hp & ->)|(Hh & Hp & -> & Hinit)]);
    unfold pinning_invariant; cbn [fst TCP.created TCP.records].
  - (* a head mock with a fresh record *)
    split; [|split].
    + intros h m' Hm' Hhead'.
      apply nth_error_snoc in Hm' as [Hm'|[-> ->]].
      * destruct (Hhead h m' Hm' Hhead') as (r & Hr & Hlt & Hd).
        exists r. rewrite length_app, nth_app_None. simpl.
        repeat split; [exact Hr|lia|exact Hd].
      * exists (List.length (TCP.records s)).
        rewrite length_app, nth_app_None. simpl.
        repeat split; [exact Hp|lia|].
        rewrite nth_overflow by lia. congruence.
    + intros h h' m1 m2 H1 H2 Hh1 Hh2 Heq.
      apply nth_error_snoc in H1 as [H1|[-> ->]];
        apply nth_error_snoc in H2 as [H2|[-> ->]].
      * now apply (Huniq h h' m1 m2).
      * destruct (Hhead h m1 H1 Hh1) as (r & Hr & Hlt & _).
        rewrite Hr, Hp in Heq. injection Heq as ->. lia.
      * destruct (Hhead h' m2 H2 Hh2) as (r & Hr & Hlt & _).
        rewrite Hr, Hp in Heq. injection Heq as Heq. lia.
      * reflexivity.
    + intros h m' Hm' Htail'.
      apply nth_error_snoc in Hm' as [Hm'|[-> ->]]; [|congruence].
      rewrite connection_app_None. now apply (Htail h m').
  - (* a tail mock *)
    split; [|split].
    + intros h m' Hm' Hhead'.
      apply nth_error_snoc in Hm' as [Hm'|[-> ->]]; [|congruence].
      now apply (Hhead h m').
    + intros h h' m1 m2 H1 H2 Hh1 Hh2 Heq.
      apply nth_error_snoc in H1 as [H1|[-> ->]]; [|congruence].
      apply nth_error_snoc in H2 as [H2|[-> ->]]; [|congruence].
      now apply (Huniq h h' m1 m2).
    + intros h m' Hm' Htail'.
      apply nth_error_snoc in Hm' as [Hm'|[-> ->]].
      * now apply (Htail h m').
      * split; [exact Hinit|congruence].
Qed.


Lemma nth_error_update_inv {A : Type} (l : list A) (i j : nat) (f : A -> A)
    (y : A) :
  nth_error (update l i f) j = Some y ->
  (i = j /\ exists x, nth_error l j = Some x /\ y = f x)
  \/ (i <> j /\ nth_error l j = Some y).
Proof.
  rewrite nth_error_update. destruct (Nat.eqb_spec i j) as [->|Hij].
  - destruct (nth_error l j) as [x|]; simpl; [|discriminate].
    intros [= <-]. left. split; [reflexivity|]. now exists x.
  - intros H. now right.
Qed.

Lemma invariant_ext (s s' : TCP.MockSet) :
  TCP.created s' = TCP.created s ->
  TCP.records s' = TCP.records s ->
  pinning_invariant s -> pinning_invariant s'.
Proof. unfold pinning_invariant. now intros -> ->. Qed.

Lemma connection_update (records : list (option nat)) (r conn : nat)
    (p : value) :
  TCP.connection records p <> None ->
  TCP.connection (update records r (fun _ => Some conn)) p <> None.
Proof.
  destruct p; simpl; auto. rewrite nth_update.
  destruct (_ && _); [discriminate|auto].
Qed.

Lemma invariant_match (h conn : nat) (s : TCP.MockSet) (m : TCP.Mock) :
  pinning_invariant s ->
  nth_error (TCP.created s) h = Some m ->
  TCP.isHeadMock m = true
  \/ TCP.connection (TCP.records s) (TCP.pinnedTo m) <> None ->
  pinning_invariant (TCP.match_ h conn s).
Proof.
  intros (Hhead & Huniq & Htail) Hm Hcase.
  unfold TCP.match_, pinning_invariant. rewrite Hm.
  cbn [TCP.created TCP.records].
  assert (Hold : forall h' m',
             nth_error (update (TCP.created s) h TCP.setDone) h' = Some m' ->
             exists m0, nth_error (TCP.created s) h' = Some m0
                        /\ TCP.isHeadMock m' = TCP.isHeadMock m0
                        /\ TCP.pinnedTo m' = TCP.pinnedTo m0
                        /\ TCP.isInit m' = TCP.isInit m0
                        /\ ((h = h' /\ m0 = m /\ TCP.done m' = true)
                            \/ (h <> h' /\ m' = m0))).
  { intros h' m' H. apply nth_error_update_inv in H
      as [(<- & x & Hx & ->)|(Hne & H)].
    - exists x. rewrite Hm in Hx. injection Hx as <-.
      repeat split; auto.
    - exists m'. repeat split; auto. }
  split; [|split].
  - intros h' m' Hm' Hh'.
    destruct (Hold h' m' Hm') as (m0 & H0 & Hh0 & Hp0 & _ & Hwhich).
    rewrite Hh0 in Hh'. destruct (Hhead h' m0 H0 Hh') as (r & Hr & Hlt & Hd).
    exists r. rewrite Hp0. split; [exact Hr|].
    unfold TCP.pin.
    destruct Hwhich as [(<- & -> & Hdone)|(Hne & ->)].
    + rewrite Hh', Hr, update_length. split; [exact Hlt|]. now intros _.
    + destruct (TCP.isHeadMock m) eqn:Hmh; [|now split].
      destruct (Hhead h m Hm Hmh) as (r0 & Hr0 & Hlt0 & _).
      rewrite Hr0, update_length. split; [exact Hlt|].
      rewrite nth_update.
      destruct (Nat.eqb_spec r0 r) as [->|Hr0r]; [|exact Hd].
      exfalso. apply Hne. apply (Huniq h h' m m0); auto. congruence.
  - intros h1 h2 m1 m2 H1 H2 Hh1 Hh2 Heq.
    destruct (Hold h1 m1 H1) as (m1' & H1' & Hh1' & Hp1' & _).
    destruct (Hold h2 m2 H2) as (m2' & H2' & Hh2' & Hp2' & _).
    apply (Huniq h1 h2 m1' m2'); congruence.
  - intros h' m' Hm' Hh'.
    destruct (Hold h' m' Hm') as (m0 & H0 & Hh0 & Hp0 & Hi0 & Hwhich).
    rewrite Hh0 in Hh'. destruct (Htail h' m0 H0 Hh') as (Hinit & Hconn).
    rewrite Hi0, Hp0. split; [exact Hinit|].
    unfold TCP.pin.
    destruct Hwhich as [(<- & -> & Hdone)|(Hne & ->)].
    + intros _. rewrite Hh'. destruct Hcase as [Hc|Hc]; [congruence|exact Hc].
    + intros Hd. specialize (Hconn Hd).
      destruct (TCP.isHeadMock m); [|exact Hconn].
      destruct (TCP.pinnedTo m); try exact Hconn.
      now apply connection_update.
Qed.

Lemma invariant_handler (s : TCP.MockSet) :
  pinning_invariant s -> pinning_invariant (fst (TCP.handler s)).
Proof.
  intros Hinv. unfold TCP.handler.
  set (s1 := {| TCP.created := TCP.created s; TCP.mocks := TCP.mocks s;
                TCP.records := TCP.records s;
                TCP.connections := TCP.connections s ++ [[]] |}).
  assert (Hinv1 : pinning_invariant s1) by now apply (invariant_ext s s1).
  destruct (TCP.find _ _ _) as [iM|] eqn:Hfind; [|exact Hinv1].
  cbn [fst]. apply find_some in Hfind as (m & Hm & Hf).
  apply andb_true_iff in Hf as [Hinit _].
  apply (invariant_match iM _ s1 m Hinv1 Hm). left.
  destruct (TCP.isHeadMock m) eqn:Hh; [reflexivity|].
  destruct Hinv1 as (_ & _ & Htail).
  destruct (Htail iM m Hm Hh) as [Hno _]. congruence.
Qed.

Lemma invariant_on_data (conn : nat) (b : list byte) (s : TCP.MockSet) :
  pinning_invariant s ->
  pinning_invariant (fst (fst (TCP.on_data conn b s))).
Proof.
  intros Hinv. unfold TCP.on_data.
  destruct (nth_error (TCP.connections s) conn) as [recv|]; [|exact Hinv].
  set (s1 := TCP.setRecv conn (recv ++ b) s).
  assert (Hinv1 : pinning_invariant s1) by now apply (invariant_ext s s1).
  destruct (TCP.find _ _ _) as [h|] eqn:Hfind; [|exact Hinv1].
  cbn [fst]. apply find_some in Hfind as (m & Hm & Hf).
  apply (invariant_ext (TCP.match_ h conn s1)); try reflexivity.
  apply (invariant_match h conn s1 m Hinv1 Hm).
  unfold TCP.isMatch in Hf.
  destruct (_ || _); [discriminate|].
  destruct (TCP.isHeadMock m); [now left|right].
  destruct (TCP.connection _ _); [discriminate|discriminate].
Qed.

Lemma invariant_reset (arg : value) (s : TCP.MockSet) :
  pinning_invariant s -> pinning_invariant (fst (TCP.reset arg s)).
Proof.
  intros Hinv. unfold TCP.reset. destruct arg; try exact Hinv;
    now apply (invariant_ext s).
Qed.

Lemma invariant_step (s : TCP.MockSet) (e : TCP.event) :
  pinning_invariant s -> pinning_invariant (TCP.step s e).
Proof.
  intros Hinv. destruct e as [o|h o|arg| |conn b]; simpl.
  - now apply invariant_add.
  - destruct (nth_error (TCP.created s) h); [|exact Hinv].
    now apply invariant_add.
  - now apply invariant_reset.
  - now apply invariant_handler.
  - now apply invariant_on_data.
Qed.

Lemma invariant_run (events : list TCP.event) (s : TCP.MockSet) :
  pinning_invariant s -> pinning_invariant (TCP.run s events).
Proof.
  revert s. induction events as [|e events IH]; intros s Hinv; simpl; auto.
  apply IH. now apply invariant_step.
Qed.

End TCPFacts.

(** C4.  In every state that a TCP server reaches, a tail mock that has
    matched shares its pinning record with a head mock that has matched: a
    tail never matches before its head.  A tail is eligible for a chunk
    only when its record points to the connection that delivers the chunk;
    a match writes a connection into a record only when the matching mock
    is the head that owns the record, and registering a mock or resetting
    writes no connection. *)
Theorem tail_matches_only_after_head {env : Host} :
  (forall events t h mt mh,
      let s := TCP.run TCP.empty events in
      nth_error (TCP.created s) t = Some mt ->
      nth_error (TCP.created s) h = Some mh ->
      TCP.isHeadMock mt = false ->
      TCP.isHeadMock mh = true ->
      TCP.pinnedTo mt = TCP.pinnedTo mh ->
      TCP.done mt = true ->
      TCP.done mh = true)
  /\ (forall records m bytes conn,
         TCP.isHeadMock m = false ->
         TCP.isMatch records m bytes conn = true ->
         TCP.connection records (TCP.pinnedTo m) = Some conn)
  /\ (forall s h conn r,
         nth r (TCP.records (TCP.match_ h conn s)) None
         <> nth r (TCP.records s) None ->
         exists m,
           nth_error (TCP.created s) h = Some m
           /\ TCP.isHeadMock m = true
           /\ TCP.pinnedTo m = VPinned r
           /\ nth r (TCP.records (TCP.match_ h conn s)) None = Some conn)
  /\ (forall s o arg r,
         nth r (TCP.records (fst (TCP.add o s))) None
         = nth r (TCP.records s) None
         /\ nth r (TCP.records (fst (TCP.reset arg s))) None
            = nth r (TCP.records s) None).
Proof.
  split; [|split; [|split]].
  - intros events t h mt mh s Ht Hh Htail Hhead Hsame Hdone.
    destruct (invariant_run events TCP.empty invariant_empty)
      as (Hheads & _ & Htails).
    fold s in Hheads, Htails.
    destruct (Hheads h mh Hh Hhead) as (r & Hr & _ & Hd).
    destruct (Htails t mt Ht Htail) as (_ & Hconn).
    apply Hd. specialize (Hconn Hdone).
    now rewrite Hsame, Hr in Hconn.
  - intros records m bytes conn Htail. unfold TCP.isMatch. rewrite Htail.
    destruct (_ || _); [discriminate|].
    destruct (TCP.connection records (TCP.pinnedTo m)) as [c|];
      [|discriminate].
    simpl. now intros ->%Nat.eqb_eq.
  - intros s h conn r. unfold TCP.match_.
    destruct (nth_error (TCP.created s) h) as [m|] eqn:Hm; [|congruence].
    cbn [TCP.records]. unfold TCP.pin.
    destruct (TCP.isHeadMock m) eqn:Hhead; [|congruence].
    destruct (TCP.pinnedTo m) as [| |b|n|str|b|src|f|es|vs|r0|n|] eqn:Hp;
      try congruence.
    rewrite nth_update.
    destruct (Nat.eqb_spec r0 r) as [->|Hne]; [|simpl; congruence].
    destruct (r <? List.length (TCP.records s))%nat; [|simpl; congruence].
    intros _. now exists m.
  - intros s o arg r. split.
    + unfold TCP.add.
      destruct (TCP.newMock o (TCP.records s)) as [[m records']|e] eqn:Hnew;
        [|reflexivity].
      destruct (newMock_made _ _ _ _ Hnew) as (_ & [(_ & _ & ->)|(_ & _ & -> & _)]);
        cbn [fst TCP.records]; [apply nth_app_None|reflexivity].
    + unfold TCP.reset. now destruct arg.
Qed.

Lemma tail_matches_only_after_head_witness :
  TCP.done
    {| TCP.o := VObj [("req", VStr "a")];
       TCP.options := VObj [("req", VStr "a")];
       TCP.done := true; TCP.isHeadMock := true; TCP.pinnedTo := VPinned 0 |}
  = true.
Proof.
  refine (proj1 (@tail_matches_only_after_head Example.toy)
            [TCP.Emock (VObj [("req", VStr "a")]);
             TCP.Echild 0 (VObj [("req", VStr "b")]);
             TCP.Econnection;
             TCP.Edata 0 ["a"%byte];
             TCP.Edata 0 ["b"%byte]]
            1%nat 0%nat _ _ eq_refl eq_refl eq_refl eq_refl eq_refl eq_refl).
Defined.

(** ** The TCP matcher: the receive buffer *)

Section ReceiveBuffer.
Context {env : Host}.

Lemma update_update {A : Type} (l : list A) (i : nat) (f g : A -> A) :
  update (update l i f) i g = update l i (fun x => g (f x)).
Proof.
  revert i. induction l as [|x l IH]; intros [|i]; simpl; auto.
  now rewrite IH.
Qed.

Lemma connections_match (h conn : nat) (s : TCP.MockSet) :
  TCP.connections (TCP.match_ h conn s) = TCP.connections s.
Proof. unfold TCP.match_. now destruct (nth_error (TCP.created s) h). Qed.

Lemma connections_add (o : value) (s : TCP.MockSet) :
  TCP.connections (fst (TCP.add o s)) = TCP.connections s.
Proof.
  unfold TCP.add. now destruct (TCP.newMock o (TCP.records s)) as [[m r]|e].
Qed.

Lemma connections_reset (arg : value) (s : TCP.MockSet) :
  TCP.connections (fst (TCP.reset arg s)) = TCP.connections s.
Proof. unfold TCP.reset. now destruct arg. Qed.

Lemma connections_handler (s : TCP.MockSet) :
  TCP.connections (fst (TCP.handler s)) = TCP.connections s ++ [[]].
Proof.
  unfold TCP.handler. destruct (TCP.find _ _ _); [|reflexivity].
  cbn [fst]. now rewrite connections_match.
Qed.

(** One chunk: the buffer of the connection grows by the chunk, or is
    emptied when a mock matched; no other buffer changes. *)
Lemma connections_on_data (conn : nat) (b : list byte) (s : TCP.MockSet)
    (recv : list byte) :
  nth_error (TCP.connections s) conn = Some recv ->
  TCP.connections (fst (fst (TCP.on_data conn b s)))
  = update (TCP.connections s) conn
      (fun _ => match snd (fst (TCP.on_data conn b s)) with
                | Some _ => []
                | None => recv ++ b
                end).
Proof.
  intros Hrecv. unfold TCP.on_data. rewrite Hrecv.
  destruct (TCP.find _ _ _) as [h|]; cbn [fst snd]; [|reflexivity].
  unfold TCP.setRecv at 1. cbn [TCP.connections].
  rewrite connections_match. unfold TCP.setRecv. cbn [TCP.connections].
  now rewrite update_update.
Qed.

Lemma connections_on_data_closed (conn : nat) (b : list byte)
    (s : TCP.MockSet) :
  nth_error (TCP.connections s) conn = None ->
  TCP.on_data conn b s = (s, None, []).
Proof. intros H. unfold TCP.on_data. now rewrite H. Qed.

Lemma since_match_snoc (conn c : nat) (b : list byte) (matched : bool)
    (history : list (nat * list byte * bool)) :
  since_match conn (history ++ [(c, b, matched)])
  = if Nat.eqb c conn then
      (if matched then [] else since_match conn history ++ b)
    else since_match conn history.
Proof. unfold since_match. now rewrite fold_left_app. Qed.

Lemma since_match_absent (conn : nat)
    (history : list (nat * list byte * bool)) :
  (forall c b matched, In (c, b, matched) history -> c <> conn) ->
  since_match conn history = [].
Proof.
  induction history as [|[[c b] matched] history IH] using rev_ind;
    intros Habsent; [reflexivity|].
  rewrite since_match_snoc.
  destruct (Nat.eqb_spec c conn) as [->|_].
  - exfalso. apply (Habsent conn b matched); [|reflexivity].
    apply in_or_app. right. now left.
  - apply IH. intros c' b' m' Hin. apply (Habsent c' b' m').
    apply in_or_app. now left.
Qed.

Lemma buffers_agree_same (s s' : TCP.MockSet)
    (history : list (nat * list byte * bool)) :
  TCP.connections s' = TCP.connections s ->
  buffers_agree s history -> buffers_agree s' (history ++ []).
Proof. unfold buffers_agree. rewrite app_nil_r. now intros ->. Qed.

Lemma buffers_agree_step (s : TCP.MockSet) (e : TCP.event)
    (history : list (nat * list byte * bool)) :
  buffers_agree s history ->
  buffers_agree (TCP.step s e) (history ++ TCP.chunks s [e]).
Proof.
  intros Hagree.
  destruct e as [o|h o|arg| |conn b]; cbn [TCP.step TCP.chunks app].
  - apply (buffers_agree_same s); [apply connections_add|exact Hagree].
  - destruct (nth_error (TCP.created s) h);
      apply (buffers_agree_same s); auto. apply connections_add.
  - apply (buffers_agree_same s); [apply connections_reset|exact Hagree].
  - destruct Hagree as [Hrecv Hbound]. rewrite app_nil_r.
    split; rewrite connections_handler.
    + intros conn recv Hnth.
      destruct (Nat.lt_ge_cases conn (List.length (TCP.connections s)))
        as [Hlt|Hge].
      * rewrite nth_error_app1 in Hnth by exact Hlt. now apply Hrecv.
      * rewrite nth_error_app2 in Hnth by exact Hge.
        destruct (conn - List.length (TCP.connections s))%nat
          as [|[|n]] eqn:E; simpl in Hnth; try discriminate.
        injection Hnth as <-. symmetry. apply since_match_absent.
        intros c b matched Hin. specialize (Hbound c b matched Hin). lia.
    + intros c b matched Hin. rewrite length_app. simpl.
      specialize (Hbound c b matched Hin). lia.
  - destruct (nth_error (TCP.connections s) conn) as [recv0|] eqn:Hconn.
    + destruct Hagree as [Hrecv Hbound]. rewrite app_nil_r.
      split; rewrite (connections_on_data conn b s recv0 Hconn).
      * intros conn' recv. rewrite nth_error_update, since_match_snoc.
        destruct (Nat.eqb_spec conn conn') as [<-|Hne].
        -- rewrite Hconn. simpl. intros [= <-].
           rewrite <- (Hrecv conn recv0 Hconn).
           now destruct (snd (fst (TCP.on_data conn b s))).
        -- apply Hrecv.
      * intros c b' matched Hin. rewrite update_length.
        apply in_app_or in Hin as [Hin|[[= <- _ _]|[]]].
        -- now apply (Hbound c b' matched).
        -- apply nth_error_Some. congruence.
    + rewrite (connections_on_data_closed conn b s Hconn). cbn [fst].
      rewrite app_nil_r. exact Hagree.
Qed.

Lemma chunks_cons (s : TCP.MockSet) (e : TCP.event)
    (events : list TCP.event) :
  TCP.chunks s (e :: events)
  = TCP.chunks s [e] ++ TCP.chunks (TCP.step s e) events.
Proof. cbn [TCP.chunks]. now rewrite app_nil_r. Qed.

Lemma buffers_agree_run (events : list TCP.event) (s : TCP.MockSet)
    (history : list (nat * list byte * bool)) :
  buffers_agree s history ->
  buffers_agree (TCP.run s events) (history ++ TCP.chunks s events).
Proof.
  revert s history. induction events as [|e events IH]; intros s history Hagree.
  - simpl. now rewrite app_nil_r.
  - rewrite chunks_cons, app_assoc. cbn [TCP.run fold_left].
    apply IH. now apply buffers_agree_step.
Qed.

End ReceiveBuffer.

(** C7.  After any sequence of events, the receive buffer of every live
    connection is the concatenation, byte for byte, of the chunks that the
    connection received since the last chunk on which a mock matched, or
    since it was opened: each chunk is appended to the buffer, and when a
    mock matches the whole buffer the buffer is emptied, the response
    being the one resolved from the matched bytes. *)
Theorem recv_is_chunks_since_last_match {env : Host} :
  (forall events conn recv,
      nth_error (TCP.connections (TCP.run TCP.empty events)) conn = Some recv ->
      recv = since_match conn (TCP.chunks TCP.empty events))
  /\ (forall s conn b recv,
         nth_error (TCP.connections s) conn = Some recv ->
         nth_error (TCP.connections (fst (fst (TCP.on_data conn b s)))) conn
         = Some match snd (fst (TCP.on_data conn b s)) with
                | Some _ => []
                | None => recv ++ b
                end)
  /\ (forall s conn b recv h,
         nth_error (TCP.connections s) conn = Some recv ->
         snd (fst (TCP.on_data conn b s)) = Some h ->
         exists m,
           nth_error (TCP.created s) h = Some m
           /\ TCP.isMatch (TCP.records s) m (recv ++ b) conn = true
           /\ snd (TCP.on_data conn b s)
              = let r := toTCPRes (get (TCP.options m) "res") (recv ++ b) in
                (if (0 <? tcp_bodyDelay r)%Z then [TCP.wait (tcp_bodyDelay r)]
                 else [])
                ++ (if tcp_destroySocket r then [TCP.destroy conn]
                    else [TCP.write conn (VBuf (tcp_body r))])).
Proof.
  split; [|split].
  - intros events conn recv Hrecv.
    assert (Hinit : buffers_agree TCP.empty []).
    { split; [intros [|c] ?|intros ? ? ? []]; discriminate. }
    destruct (buffers_agree_run events TCP.empty [] Hinit) as [Hagree _].
    now apply Hagree.
  - intros s conn b recv Hrecv.
    rewrite (connections_on_data conn b s recv Hrecv).
    now rewrite nth_error_update, Nat.eqb_refl, Hrecv.
  - intros s conn b recv h Hrecv. unfold TCP.on_data. rewrite Hrecv.
    destruct (TCP.find _ _ _) as [h'|] eqn:Hfind; [|discriminate].
    cbn [fst snd]. intros [= ->].
    apply find_some in Hfind as (m & Hm & Hf).
    cbn [TCP.setRecv TCP.created TCP.records] in Hm, Hf.
    exists m. cbn [TCP.setRecv TCP.created]. rewrite Hm.
    repeat split; assumption.
Qed.

Lemma recv_is_chunks_witness :
  ["a"%byte] = since_match 0
                 (TCP.chunks (env := Example.toy) TCP.empty
                    [TCP.Emock (VObj [("req", VStr "ab"); ("res", VStr "1")]);
                     TCP.Econnection;
                     TCP.Edata 0 ["a"%byte]]).
Proof.
  apply (proj1 (@recv_is_chunks_since_last_match Example.toy)
           [TCP.Emock (VObj [("req", VStr "ab"); ("res", VStr "1")]);
            TCP.Econnection;
            TCP.Edata 0 ["a"%byte]] 0%nat ["a"%byte]).
  reflexivity.
Defined.

(** ** Validating a conformed value again *)

Section Idempotence.
Context {env : Host}.
Variable accepted : value -> bool.
Hypothesis accepted_read :
  forall v k, accepted v = true -> accepted (read v k) = true.

Lemma returns_input_passes (p : P.pred) :
  returns_input p -> returns_input_or_function p.
Proof. intros H v path. left. apply H. Qed.

Lemma returns_input_keeps (p : P.pred) : returns_input p -> keeps_data p.
Proof.
  intros H v path c Hv _. specialize (H v path). rewrite Hv in H.
  exact H.
Qed.

Lemma keeps_data_idempotent (p : P.pred) :
  keeps_data p -> idempotent accepted p.
Proof.
  intros H v path c _ Hv Hfree. pose proof (H v path c Hv Hfree) as ->.
  exact Hv.
Qed.

(** *** Leaves *)

Lemma leaf_returns_input (p : P.pred) :
  In p [P.always; P.isString; P.isPlainObject; P.isBuffer; P.isBoolean;
        P.isRegExp; P.isUndefined; P.isInteger; P.isArray;
        P.isValidStatusCode; P.isPositive] ->
  returns_input p.
Proof.
  simpl. intros H v path.
  repeat (destruct H as [<-|H]; [reflexivity|]). contradiction.
Qed.

Lemma exclusive_returns_input (groupA groupB : list string) :
  returns_input (P.exclusive groupA groupB).
Proof. intros v path. apply exclusive_same. Qed.

Lemma isFunction_passes (q : option P.pred) :
  returns_input_or_function (P.isFunction q).
Proof.
  intros v path. destruct v; try (now left). destruct q; [right|left]; simpl; eauto.
Qed.

Lemma isFunction_keeps (q : option P.pred) : keeps_data (P.isFunction q).
Proof.
  intros v path c. destruct v; simpl; try discriminate.
  destruct q; intros [= <-]; [discriminate|reflexivity].
Qed.

(** *** [alias] *)

Lemma alias_ok (q : P.pred) (message : string) (v c : value)
    (path : list string) :
  V.validate (P.alias q message) v path = (c, []) ->
  V.validate q v path = (c, []).
Proof.
  rewrite validate_alias. destruct (V.validate q v path) as [c' errors].
  simpl. destruct errors; [now intros [= <-]|discriminate].
Qed.

Lemma alias_returns_input (q : P.pred) (message : string) :
  returns_input q -> returns_input (P.alias q message).
Proof. intros H v path. rewrite validate_alias. apply H. Qed.

Lemma alias_passes (q : P.pred) (message : string) :
  returns_input_or_function q ->
  returns_input_or_function (P.alias q message).
Proof. intros H v path. rewrite validate_alias. apply H. Qed.

Lemma alias_keeps (q : P.pred) (message : string) :
  keeps_data q -> keeps_data (P.alias q message).
Proof. intros H v path c Hv. apply (H v path c). now apply alias_ok in Hv. Qed.

(** *** [or] *)

Lemma or_loop_some (ps : list P.pred) (v : value) (path : list string)
    (res : V.result) :
  V.or_loop V.validate ps v path = Some res ->
  exists p, In p ps /\ V.validate p v path = res /\ snd res = [].
Proof.
  induction ps as [|p ps IH]; simpl; [discriminate|].
  destruct (null (snd (V.validate p v path))) eqn:Hnull.
  - intros [= <-]. exists p. apply null_nil in Hnull. auto.
  - intros H. destruct (IH H) as (q & Hq & Hres). exists q. auto.
Qed.

Lemma validate_or (ps : list P.pred) (v : value) (path : list string) :
  (exists p, In p ps /\ V.validate (P.or ps) v path = V.validate p v path
             /\ snd (V.validate p v path) = [])
  \/ (fst (V.validate (P.or ps) v path) = v
      /\ snd (V.validate (P.or ps) v path) <> []).
Proof.
  change (V.validate (P.or ps) v path)
    with (match V.or_loop V.validate ps v path with
          | Some res => res
          | None =>
              V.r v (V.error path
                       ("must satisfy one of {"
                        +++ String.concat ", " (map V.name_of ps) +++ "}") v)
          end).
  destruct (V.or_loop V.validate ps v path) as [res|] eqn:Hloop.
  - left. destruct (or_loop_some _ _ _ _ Hloop) as (p & Hp & <- & Hnil).
    now exists p.
  - right. split; [reflexivity|discriminate].
Qed.

Lemma or_passes (ps : list P.pred) :
  Forall returns_input_or_function ps ->
  returns_input_or_function (P.or ps).
Proof.
  intros Hps v path. rewrite Forall_forall in Hps.
  destruct (validate_or ps v path) as [(p & Hp & -> & _)|[Hv _]].
  - now apply Hps.
  - now left.
Qed.

Lemma or_keeps (ps : list P.pred) :
  Forall keeps_data ps -> keeps_data (P.or ps).
Proof.
  intros Hps v path c Hv Hfree. rewrite Forall_forall in Hps.
  destruct (validate_or ps v path) as [(p & Hp & Heq & _)|[_ Herr]].
  - apply (Hps p Hp v path c); [congruence|exact Hfree].
  - rewrite Hv in Herr. now elim Herr.
Qed.

(** *** [and] *)

Lemma and_loop_returns_input (ps : list P.pred) (v conformed : value)
    (path : list string) :
  Forall returns_input ps ->
  V.and_loop V.validate ps v conformed path = (conformed, [])
  \/ (fst (V.and_loop V.validate ps v conformed path) = v
      /\ snd (V.and_loop V.validate ps v conformed path) <> []).
Proof.
  intros Hps. induction Hps as [|p ps Hp Hps IH]; simpl; [now left|].
  pose proof (Hp conformed path) as Hsame.
  destruct (V.validate p conformed path) as [c errors]. simpl in Hsame.
  subst c. destruct errors as [|e errors]; simpl; [exact IH|].
  right. split; [reflexivity|discriminate].
Qed.

Lemma and_returns_input (ps : list P.pred) :
  Forall returns_input ps -> returns_input (P.and ps).
Proof.
  intros Hps v path.
  change (V.validate (P.and ps) v path)
    with (V.and_loop V.validate ps v v path).
  destruct (and_loop_returns_input ps v v path Hps) as [->|[H _]]; auto.
Qed.

(** The success of the rest of an [and] does not depend on the input
    that an error would return. *)
Lemma and_loop_rest (ps : list P.pred) (v v' conformed c : value)
    (path : list string) :
  V.and_loop V.validate ps v conformed path = (c, []) ->
  V.and_loop V.validate ps v' conformed path = (c, []).
Proof.
  revert conformed. induction ps as [|p ps IH]; intros conformed; simpl;
    [auto|].
  destruct (V.validate p conformed path) as [c' errors].
  destruct errors as [|e errors]; simpl; [apply IH|discriminate].
Qed.

Lemma and_idempotent (p : P.pred) (ps : list P.pred) :
  idempotent accepted p -> Forall returns_input ps ->
  idempotent accepted (P.and (p :: ps)).
Proof.
  intros Hp Hps v path c Hord.
  change (V.validate (P.and (p :: ps)) ?x path)
    with (V.and_loop V.validate (p :: ps) x x path).
  cbn [V.and_loop].
  destruct (V.validate p v path) as [c1 errors] eqn:Hv.
  destruct errors as [|e errors]; simpl; [|discriminate].
  intros Hrest Hfree.
  destruct (and_loop_returns_input ps v c1 path Hps) as [Hok|[_ Herr]];
    [|rewrite Hrest in Herr; now elim Herr].
  rewrite Hok in Hrest. injection Hrest as <-.
  rewrite (Hp v path c1 Hord Hv Hfree). simpl.
  now apply and_loop_rest with v.
Qed.

Lemma and_returns_object (p : P.pred) (ps : list P.pred) :
  returns_object accepted p -> Forall returns_input ps ->
  returns_object accepted (P.and (p :: ps)).
Proof.
  intros Hp Hps v path c Hord.
  change (V.validate (P.and (p :: ps)) v path)
    with (V.and_loop V.validate (p :: ps) v v path).
  cbn [V.and_loop].
  destruct (V.validate p v path) as [c1 errors] eqn:Hv.
  destruct errors as [|e errors]; simpl; [|discriminate].
  intros Hrest.
  destruct (and_loop_returns_input ps v c1 path Hps) as [Hok|[_ Herr]];
    [|rewrite Hrest in Herr; now elim Herr].
  rewrite Hok in Hrest. injection Hrest as <-.
  now apply (Hp v path).
Qed.

(** *** [branch] *)

Lemma branches_keeps (bn : list (P.pred * P.pred)) (msg : string) :
  Forall returns_input_or_function (map fst bn) ->
  Forall keeps_data (map snd bn) ->
  keeps_data (P.branches bn msg).
Proof.
  induction bn as [|[b n] bn IH]; simpl; intros Hbs Hns v path c.
  - rewrite validate_branches_nil. discriminate.
  - inversion Hbs as [|? ? Hb Hbs']; inversion Hns as [|? ? Hn Hns']; subst.
    specialize (IH Hbs' Hns').
    rewrite validate_branches_cons.
    destruct (null (snd (V.validate b v path))); [|apply IH].
    intros Hv Hfree.
    destruct (Hb v path) as [Hsame|[f Hf]].
    + rewrite Hsame in Hv. now apply (Hn v path).
    + rewrite Hf in Hv. rewrite (Hn _ path c Hv Hfree) in Hfree.
      discriminate.
Qed.

Lemma branches_object_idempotent (n : P.pred) (bn : list (P.pred * P.pred))
    (msg : string) :
  idempotent accepted n -> returns_object accepted n ->
  keeps_data (P.branches bn msg) ->
  idempotent accepted (P.branches ((P.isPlainObject, n) :: bn) msg).
Proof.
  intros Hn Hobj Hbn v path c Hord. rewrite !validate_branches_cons.
  rewrite !validate_isPlainObject. cbn [fst snd].
  destruct (_isPlainObject v) eqn:Hplain; cbn [null].
  - intros Hv Hfree. rewrite (Hobj v path c Hord Hv Hfree). cbn [null].
    now apply (Hn v path).
  - intros Hv Hfree. rewrite (Hbn v path c Hv Hfree), Hplain. cbn [null].
    now rewrite (Hbn v path c Hv Hfree) in Hv.
Qed.


(** *** [obj] *)

Lemma flat_map_nil {A B : Type} (f : A -> list B) (l : list A) :
  flat_map f l = [] <-> forall x, In x l -> f x = [].
Proof.
  induction l as [|x l IH]; simpl.
  - split; [contradiction|reflexivity].
  - split.
    + intros H. apply app_eq_nil in H as [Hx Hl]. rewrite IH in Hl.
      intros y [<-|Hy]; auto.
    + intros H. rewrite (H x) by now left. simpl. apply IH.
      intros y Hy. apply H. now right.
Qed.

Lemma fold_left_ext_in {A B : Type} (f g : A -> B -> A) (l : list B) (a : A) :
  (forall acc x, In x l -> f acc x = g acc x) ->
  fold_left f l a = fold_left g l a.
Proof.
  revert a. induction l as [|x l IH]; intros a H; simpl; [reflexivity|].
  rewrite (H a x) by now left. apply IH. intros acc y Hy. apply H. now right.
Qed.

Lemma fun_free_assoc (k : string) (es : list (string * value)) :
  forallb (fun kv => fun_free (snd kv)) es = true ->
  fun_free (assoc k es) = true.
Proof.
  induction es as [|[k' v'] es IH]; simpl; [reflexivity|].
  intros [Hv Hes]%andb_true_iff.
  destruct (String.eqb k k'); auto.
Qed.

Lemma obj_ok (o : list (string * P.pred)) (v c : value) (path : list string) :
  V.validate (P.obj o) v path = (c, []) ->
  _isPlainObject v = true
  /\ c = VObj (fold_left (put v path) o [])
  /\ forall kp, In kp o -> snd (field_result v path kp) = [].
Proof.
  destruct (_isPlainObject v) eqn:Hplain.
  - rewrite validate_obj by exact Hplain. intros [= <- Herr].
    repeat split. now apply flat_map_nil.
  - cbn [V.validate]. rewrite Hplain. discriminate.
Qed.

Lemma own_names_not_in (k : string) (ks : list string) :
  own_names ks = true -> In k Object_prototype -> ~ In k ks.
Proof.
  unfold own_names. rewrite forallb_forall. intros H Hk Hin.
  specialize (H k Hin). apply negb_true_iff in H.
  assert (Hex : existsb (String.eqb k) Object_prototype = true).
  { apply existsb_exists. exists k. split; [exact Hk|apply String.eqb_refl]. }
  congruence.
Qed.

Lemma own_names_in (k : string) (ks : list string) :
  own_names ks = true -> In k ks -> own_names [k] = true.
Proof.
  unfold own_names. rewrite forallb_forall. intros H Hin.
  cbn [forallb]. now rewrite (H k Hin).
Qed.

Lemma distinct_NoDup (ks : list string) : distinct ks = true -> NoDup ks.
Proof.
  induction ks as [|k ks IH]; simpl; [constructor|].
  intros [Hk Hks]%andb_true_iff. constructor; [|auto].
  intros Hin. apply negb_true_iff in Hk.
  assert (Hex : existsb (String.eqb k) ks = true).
  { apply existsb_exists. exists k. split; [exact Hin|apply String.eqb_refl]. }
  congruence.
Qed.

Lemma ordinary_entries (v : value) :
  ordinary v = true ->
  NoDup (map fst (entries v))
  /\ ~ In "__proto__" (map fst (entries v))
  /\ forall kv, In kv (entries v) -> ordinary (snd kv) = true.
Proof.
  destruct v as [| |b|n|s|b|src|f|es|vs|r|n|];
    try (intros _; repeat split; [constructor|intros []|intros ? []]).
  cbn [ordinary entries]. intros [Hd Hes]%andb_true_iff.
  rewrite forallb_forall in Hes.
  split; [now apply distinct_NoDup|]. split.
  - intros ([k v] & Hk & Hin)%in_map_iff. simpl in Hk. subst k.
    specialize (Hes _ Hin). now apply andb_true_iff in Hes as [[=] _].
  - intros kv Hin. specialize (Hes _ Hin).
    now apply andb_true_iff in Hes as [_ H].
Qed.

Lemma ordinary_assoc (k : string) (es : list (string * value)) :
  (forall kv, In kv es -> ordinary (snd kv) = true) ->
  ordinary (assoc k es) = true.
Proof.
  induction es as [|[k' v'] es IH]; simpl; intros H; [reflexivity|].
  destruct (String.eqb k k').
  - exact (H (k', v') (or_introl eq_refl)).
  - apply IH. intros kv Hin. apply H. now right.
Qed.

Lemma ordinary_inherited (k : string) : ordinary (inherited k) = true.
Proof.
  unfold inherited.
  now repeat match goal with |- context [if ?b then _ else _] => destruct b end.
Qed.

Lemma ordinary_read (v : value) (k : string) :
  ordinary v = true -> ordinary (read v k) = true.
Proof.
  intros Hord. destruct v as [| |b|n|s|b|src|f|es|vs|r|n|];
    try reflexivity; cbn [read].
  - destruct (own k es); [|apply ordinary_inherited].
    apply ordinary_assoc. now apply (ordinary_entries (VObj es)).
  - apply ordinary_inherited.
  - destruct (String.eqb k "__proto__"); [reflexivity|apply ordinary_inherited].
Qed.

Lemma obj_returns_object (o : list (string * P.pred)) :
  own_names (map fst o) = true -> returns_object accepted (P.obj o).
Proof.
  intros Hown v path c _ Hv _.
  destruct (obj_ok o v c path Hv) as (_ & -> & _).
  apply put_plain. apply own_names_not_in; [exact Hown|]. simpl. auto.
Qed.

Lemma obj_idempotent (o : list (string * P.pred)) :
  own_names (map fst o) = true ->
  NoDup (map fst o) ->
  Forall (idempotent accepted) (map snd o) ->
  idempotent accepted (P.obj o).
Proof.
  intros Hown Hnd Ho' v path c Hord Hv Hfree.
  assert (Ho : forall kp, In kp o -> idempotent accepted (snd kp)).
  { rewrite Forall_forall in Ho'. intros kp Hin. apply Ho'.
    now apply in_map. }
  pose proof (obj_returns_object o Hown v path c Hord Hv Hfree) as Hplain'.
  destruct (obj_ok o v c path Hv) as (Hplain & Hc & Herr).
  assert (Hfield : forall kp, In kp o ->
             field_result c path kp = (fst (field_result v path kp), [])).
  { intros [k p] Hin. unfold field_result at 1. cbn [fst snd].
    assert (Hk : own_names [k] = true).
    { apply (own_names_in k (map fst o) Hown).
      apply (in_map fst) in Hin. exact Hin. }
    assert (Hget : read c k = fst (field_result v path (k, p))).
    { rewrite read_get by exact Hk. rewrite Hc. cbn [get].
      apply assoc_put; [exact Hnd|exact Hin| |reflexivity].
      intros ->. discriminate Hk. }
    rewrite Hget. apply (Ho (k, p) Hin (read v k)).
    - now apply accepted_read.
    - specialize (Herr (k, p) Hin). unfold field_result in *.
      cbn [fst snd] in *.
      destruct (V.validate p (read v k) (path ++ [k])) as [ck ek].
      simpl in Herr. now subst ek.
    - rewrite <- Hget, read_get by exact Hk. rewrite Hc. cbn [get].
      apply fun_free_assoc. rewrite Hc in Hfree. exact Hfree. }
  rewrite validate_obj by exact Hplain'.
  f_equal.
  - rewrite Hc at 2. f_equal. apply fold_left_ext_in.
    intros acc kp Hin. unfold put. now rewrite (Hfield kp Hin).
  - apply flat_map_nil. intros kp Hin. now rewrite (Hfield kp Hin).
Qed.

(** *** [arr] *)

Lemma arr_loop_keeps (p : P.pred) (vs : list value) (i : nat)
    (path : list string) (conformed : list value) (errors : list string)
    (c : value) :
  keeps_data p ->
  V.arr_loop V.validate p vs i path conformed errors = (c, []) ->
  fun_free c = true ->
  c = VArr (conformed ++ vs) /\ errors = [].
Proof.
  intros Hp. revert i conformed errors.
  induction vs as [|v vs IH]; intros i conformed errors; simpl.
  - intros [= <- ->] _. now rewrite app_nil_r.
  - destruct (V.validate p v (path ++ [index_string i])) as [c' e'] eqn:Hv.
    intros Hloop Hfree.
    destruct (IH _ _ _ Hloop Hfree) as [Hc Herr].
    apply app_eq_nil in Herr as [-> ->].
    split; [|reflexivity].
    assert (Hfree' : fun_free c' = true).
    { rewrite Hc in Hfree. simpl in Hfree.
      rewrite !forallb_app in Hfree. simpl in Hfree.
      now destruct (fun_free c'); rewrite ?andb_false_r in Hfree. }
    rewrite (Hp v _ c' Hv Hfree') in Hc. now rewrite <- app_assoc in Hc.
Qed.

Lemma arr_keeps (p : P.pred) : keeps_data p -> keeps_data (P.arr p).
Proof.
  intros Hp v path c. destruct v; simpl; try discriminate.
  intros Hloop Hfree.
  now destruct (arr_loop_keeps p _ _ _ _ _ _ Hp Hloop Hfree) as [-> _].
Qed.

(** *** [keyvals], with [always] for the keys *)

Lemma keyvals_loop_eq (p : P.pred) (es : list (string * value))
    (path : list string) (conformed : list (string * value))
    (errors : list string) :
  V.keyvals_loop V.validate P.always p es path conformed errors
  = (VObj (fold_left (put_value p path) es conformed),
     errors
     ++ flat_map (fun kv => snd (V.validate p (snd kv) (path ++ [fst kv]))) es).
Proof.
  revert conformed errors. unfold put_value.
  induction es as [|[k v] es IH]; intros conformed errors; simpl.
  - now rewrite app_nil_r.
  - destruct (V.validate p v (path ++ [k])) as [cV valueErrors]. simpl.
    rewrite IH. now rewrite app_assoc.
Qed.

Lemma set_fresh (es : list (string * value)) (k : string) (v : value) :
  ~ In k (map fst es) -> set es k v = es ++ [(k, v)].
Proof.
  induction es as [|[k0 v0] es IH]; simpl; intros Hk; [reflexivity|].
  destruct (String.eqb_spec k k0) as [->|Hne]; [tauto|].
  now rewrite IH by tauto.
Qed.

(** On entries with distinct keys, none of them [__proto__], the loop of
    [keyvals] conforms the values in place. *)
Lemma put_value_fresh (p : P.pred) (path : list string)
    (es conformed : list (string * value)) :
  NoDup (map fst (conformed ++ es)) ->
  ~ In "__proto__" (map fst es) ->
  fold_left (put_value p path) es conformed
  = conformed
    ++ map (fun kv => (fst kv, fst (V.validate p (snd kv) (path ++ [fst kv]))))
         es.
Proof.
  revert conformed.
  induction es as [|[k v] es IH]; intros conformed Hnd Hproto; simpl;
    [now rewrite app_nil_r|].
  assert (Hfresh : ~ In k (map fst conformed)).
  { rewrite map_app in Hnd. simpl in Hnd. apply NoDup_remove_2 in Hnd.
    intros Hin. apply Hnd. apply in_or_app. now left. }
  unfold put_value at 2, assign. cbn [fst snd].
  destruct (String.eqb_spec k "__proto__") as [->|_];
    [elim Hproto; now left|].
  rewrite set_fresh by exact Hfresh.
  rewrite IH.
  - now rewrite <- app_assoc.
  - rewrite <- app_assoc, !map_app. rewrite map_app in Hnd. exact Hnd.
  - intros Hin. apply Hproto. now right.
Qed.

Lemma validate_keyvals (p : P.pred) (v : value) (path : list string) :
  _isPlainObject v = true ->
  V.validate (P.keyvals P.always p) v path
  = (VObj (fold_left (put_value p path) (entries v) []),
     flat_map (fun kv => snd (V.validate p (snd kv) (path ++ [fst kv])))
       (entries v)).
Proof.
  intros Hv. cbn [V.validate]. rewrite Hv. cbn [negb].
  apply keyvals_loop_eq.
Qed.

Lemma keyvals_ok (p : P.pred) (v c : value) (path : list string) :
  V.validate (P.keyvals P.always p) v path = (c, []) ->
  _isPlainObject v = true
  /\ c = VObj (fold_left (put_value p path) (entries v) [])
  /\ forall kv, In kv (entries v) ->
                snd (V.validate p (snd kv) (path ++ [fst kv])) = [].
Proof.
  destruct (_isPlainObject v) eqn:Hplain.
  - rewrite validate_keyvals by exact Hplain. intros [= <- Herr].
    repeat split. now apply flat_map_nil.
  - cbn [V.validate]. rewrite Hplain. discriminate.
Qed.

Lemma fun_free_in (es : list (string * value)) (k : string) (c : value) :
  forallb (fun kv => fun_free (snd kv)) es = true ->
  In (k, c) es -> fun_free c = true.
Proof.
  rewrite forallb_forall. intros H Hin. exact (H (k, c) Hin).
Qed.

(** Given an ordinary map, [keyvals] returns the entries of the map when
    the predicate of the values keeps data: every value conforms to
    itself. *)
Lemma keyvals_ordinary (p : P.pred) (v c : value) (path : list string) :
  keeps_data p ->
  ordinary v = true ->
  V.validate (P.keyvals P.always p) v path = (c, []) ->
  fun_free c = true ->
  _isPlainObject v = true
  /\ c = VObj (entries v)
  /\ forall kv, In kv (entries v) ->
                V.validate p (snd kv) (path ++ [fst kv]) = (snd kv, []).
Proof.
  intros Hp Hord Hv Hfree.
  destruct (keyvals_ok p v c path Hv) as (Hplain & Hc & Herr).
  destruct (ordinary_entries v Hord) as (Hnd & Hproto & _).
  rewrite (put_value_fresh p path (entries v) []) in Hc
    by (cbn [app]; assumption).
  cbn [app] in Hc.
  assert (Hentry : forall kv, In kv (entries v) ->
             V.validate p (snd kv) (path ++ [fst kv]) = (snd kv, [])).
  { intros [k v0] Hin. cbn [fst snd].
    specialize (Herr (k, v0) Hin). cbn [fst snd] in Herr.
    destruct (V.validate p v0 (path ++ [k])) as [c0 e0] eqn:Hv0.
    cbn [snd] in Herr. subst e0. f_equal.
    apply (Hp v0 (path ++ [k]) c0 Hv0).
    apply (fun_free_in (map (fun kv =>
             (fst kv, fst (V.validate p (snd kv) (path ++ [fst kv]))))
             (entries v)) k).
    - rewrite Hc in Hfree. exact Hfree.
    - apply in_map_iff. exists (k, v0). cbn [fst snd]. now rewrite Hv0. }
  split; [exact Hplain|]. split; [|exact Hentry].
  rewrite Hc. f_equal. rewrite <- (map_id (entries v)) at 2.
  apply map_ext_in. intros [k v0] Hin.
  pose proof (Hentry (k, v0) Hin) as Hhere. cbn [fst snd] in *.
  now rewrite Hhere.
Qed.

Lemma entries_plain (v : value) :
  _isPlainObject v = true -> _isPlainObject (VObj (entries v)) = true.
Proof.
  destruct v as [| |b|n|s|b|src|f|es|vs|r|n|]; try discriminate;
    intros H; [exact H|reflexivity|reflexivity].
Qed.

Lemma keyvals_returns_object (p : P.pred) :
  keeps_data p -> returns_object ordinary (P.keyvals P.always p).
Proof.
  intros Hp v path c Hord Hv Hfree.
  destruct (keyvals_ordinary p v c path Hp Hord Hv Hfree) as (Hplain & -> & _).
  now apply entries_plain.
Qed.

Lemma keyvals_idempotent (p : P.pred) :
  keeps_data p -> idempotent ordinary (P.keyvals P.always p).
Proof.
  intros Hp v path c Hord Hv Hfree.
  destruct (keyvals_ordinary p v c path Hp Hord Hv Hfree)
    as (Hplain & -> & Hentry).
  destruct (ordinary_entries v Hord) as (Hnd & Hproto & _).
  rewrite validate_keyvals by now apply entries_plain.
  change (entries (VObj (entries v))) with (entries v).
  rewrite (put_value_fresh p path (entries v) []) by (cbn [app]; assumption).
  cbn [app]. f_equal.
  - f_equal. rewrite <- (map_id (entries v)) at 2.
    apply map_ext_in. intros kv Hin. rewrite (Hentry kv Hin).
    now destruct kv.
  - apply flat_map_nil. intros kv Hin. now rewrite (Hentry kv Hin).
Qed.

End Idempotence.

Create HintDb validator.

#[local] Hint Resolve returns_input_passes returns_input_keeps
  keeps_data_idempotent exclusive_returns_input isFunction_passes
  isFunction_keeps alias_returns_input alias_passes alias_keeps or_passes
  or_keeps and_returns_input and_idempotent and_returns_object branches_keeps
  branches_object_idempotent obj_returns_object obj_idempotent arr_keeps
  keyvals_returns_object keyvals_idempotent : validator.
#[local] Hint Extern 1 (returns_input _) =>
  (apply leaf_returns_input; simpl; tauto) : validator.
#[local] Hint Extern 1 (Forall _ _) =>
  (cbn [map fst snd]; constructor) : validator.
#[local] Hint Extern 1 (NoDup _) =>
  (simpl; repeat constructor; simpl; intuition discriminate) : validator.
#[local] Hint Extern 1 (own_names _ = true) => reflexivity : validator.
#[local] Hint Extern 1 (any_value _ = true) => reflexivity : validator.
#[local] Hint Resolve ordinary_read : validator.

Section Schemas.
Context {env : Host}.

Lemma optComparable_passes :
  returns_input_or_function HTTPSchema.optComparable.
Proof. unfold HTTPSchema.optComparable. auto 10 with validator. Qed.

Lemma optComparable_keeps : keeps_data HTTPSchema.optComparable.
Proof. unfold HTTPSchema.optComparable. auto 10 with validator. Qed.

Lemma optBufferable_returns_input : returns_input HTTPSchema.optBufferable.
Proof. intros v path. apply optBufferable_same. Qed.

Lemma funcOptBufferable_keeps : keeps_data HTTPSchema.funcOptBufferable.
Proof.
  pose proof optBufferable_returns_input.
  unfold HTTPSchema.funcOptBufferable. auto 10 with validator.
Qed.

Lemma headerComparable_keeps : keeps_data HTTPSchema.headerComparable.
Proof.
  pose proof optComparable_passes. pose proof optComparable_keeps.
  unfold HTTPSchema.headerComparable, P.branch. cbn [combine].
  auto 10 with validator.
Qed.

Lemma reqHeaders_idempotent : idempotent ordinary HTTPSchema.reqHeaders.
Proof.
  pose proof headerComparable_keeps.
  unfold HTTPSchema.reqHeaders, P.branch. cbn [combine].
  auto 10 with validator.
Qed.

Lemma resHeaders_idempotent : idempotent ordinary HTTPSchema.resHeaders.
Proof.
  pose proof funcOptBufferable_keeps.
  unfold HTTPSchema.resHeaders, HTTPSchema.isValidResHeaders,
    P.branchWithFunction, P.branch.
  cbn [combine app]. auto 10 with validator.
Qed.

Lemma statusCode_keeps : keeps_data HTTPSchema.statusCode.
Proof.
  unfold HTTPSchema.statusCode, P.branchWithFunction, P.branch.
  cbn [combine app]. auto 10 with validator.
Qed.

Lemma delay_keeps : keeps_data HTTPSchema.delay.
Proof.
  unfold HTTPSchema.delay, HTTPSchema.isPositiveInt, P.branchWithFunction,
    P.branch.
  cbn [combine app]. auto 10 with validator.
Qed.

Lemma destroySocket_keeps : keeps_data HTTPSchema.destroySocket.
Proof.
  unfold HTTPSchema.destroySocket, P.branchWithFunction, P.branch.
  cbn [combine app]. auto 10 with validator.
Qed.

Lemma http_req_idempotent : idempotent ordinary HTTPSchema.req.
Proof.
  pose proof optComparable_keeps. pose proof reqHeaders_idempotent.
  unfold HTTPSchema.req, HTTPSchema.reqObj, P.branch. cbn [combine].
  auto 12 with validator.
Qed.

Lemma http_res_idempotent : idempotent ordinary HTTPSchema.res.
Proof.
  pose proof funcOptBufferable_keeps. pose proof resHeaders_idempotent.
  pose proof statusCode_keeps. pose proof delay_keeps.
  pose proof destroySocket_keeps.
  unfold HTTPSchema.res, HTTPSchema.resObj, P.branchWithFunction, P.branch.
  cbn [combine app]. auto 12 with validator.
Qed.

Lemma http_mockSchema_idempotent : idempotent ordinary HTTPSchema.mockSchema.
Proof.
  pose proof http_req_idempotent. pose proof http_res_idempotent.
  unfold HTTPSchema.mockSchema, P.branch. cbn [combine].
  auto 12 with validator.
Qed.

Lemma tcp_res_idempotent : idempotent any_value TCPSchema.res.
Proof.
  pose proof funcOptBufferable_keeps. pose proof delay_keeps.
  pose proof destroySocket_keeps. pose proof optBufferable_returns_input.
  unfold TCPSchema.res, TCPSchema.resObj, P.branchWithFunction, P.branch.
  cbn [combine app]. auto 12 with validator.
Qed.

Lemma tcp_mockSchema_idempotent :
  idempotent any_value TCPSchema.mockSchema.
Proof.
  pose proof tcp_res_idempotent. pose proof optComparable_keeps.
  pose proof optBufferable_returns_input.
  unfold TCPSchema.mockSchema, TCPSchema.mockSchemaObj,
    TCPSchema.connectionPinned, P.branch.
  cbn [combine]. auto 14 with validator.
Qed.

Lemma port_returns_input : returns_input HTTPSchema.port.
Proof.
  unfold HTTPSchema.port, HTTPSchema.isPositiveInt. intros v path.
  rewrite validate_alias.
  destruct (validate_or [P.and [P.isInteger; P.isPositive]; P.isUndefined]
              v path) as [(p & Hp & -> & _)|[Hv _]]; [|exact Hv].
  destruct Hp as [<-|[<-|[]]]; [|reflexivity].
  apply and_returns_input. auto with validator.
Qed.

Lemma httpSchema_idempotent : idempotent any_value HTTPSchema.httpSchema.
Proof.
  pose proof port_returns_input.
  unfold HTTPSchema.httpSchema, P.branch. cbn [combine].
  auto 12 with validator.
Qed.

Lemma tcpSchema_idempotent : idempotent any_value TCPSchema.tcpSchema.
Proof.
  pose proof port_returns_input.
  unfold TCPSchema.tcpSchema, P.branch. cbn [combine].
  auto 12 with validator.
Qed.

End Schemas.

(** The claim C9 says that validating a conformed value again returns it,
    also when it holds functions that the validator wrapped.  The
    declaration [{ req: f }] conforms to [{ req: w }], where [w] is the
    wrapper of [f], and [{ req: w }] conforms to [{ req: w' }], where [w']
    is a wrapper of [w]. *)
Lemma validate_wraps_again :
  let x := VObj [("req", VFun (User "true"))] in
  let c := fst (V.validate (env := Example.toy) HTTPSchema.mockSchema x
                  ["options"]) in
  snd (V.validate (env := Example.toy) HTTPSchema.mockSchema x ["options"]) = []
  /\ snd (V.validate (env := Example.toy) HTTPSchema.mockSchema c ["options"])
     = []
  /\ fst (V.validate (env := Example.toy) HTTPSchema.mockSchema c ["options"])
     <> c.
Proof. repeat split. discriminate. Qed.

(** C9, amended.  For the HTTP and the TCP mock schemas and the two
    server schemas: when validation reports no error and the conformed
    value holds no function, validating the conformed value again reports
    no error and returns it; for the HTTP mock schema this is for an input
    none of whose objects has an own property named [__proto__].  (Under
    that name [keyvals] stores no header: its assignment runs the setter
    of [Object.prototype], and a conformed map whose prototype the setter
    replaced is no plain object for the second validation.)  A function
    checked by [isFunction(p)] is wrapped at every validation, so a
    conformed value that holds a wrapper conforms to one that holds a
    wrapper of that wrapper. *)
Theorem validate_conformed_again {env : Host} :
  (forall x path c,
      ordinary x = true ->
      V.validate HTTPSchema.mockSchema x path = (c, []) ->
      fun_free c = true ->
      V.validate HTTPSchema.mockSchema c path = (c, []))
  /\ (forall x path c,
         V.validate TCPSchema.mockSchema x path = (c, []) ->
         fun_free c = true ->
         V.validate TCPSchema.mockSchema c path = (c, []))
  /\ (forall x path c,
         V.validate HTTPSchema.httpSchema x path = (c, []) ->
         fun_free c = true ->
         V.validate HTTPSchema.httpSchema c path = (c, []))
  /\ (forall x path c,
         V.validate TCPSchema.tcpSchema x path = (c, []) ->
         fun_free c = true ->
         V.validate TCPSchema.tcpSchema c path = (c, []))
  /\ (forall q f path,
         V.validate (P.isFunction (Some q)) (VFun f) path
         = (VFun (Late q path f), [])
         /\ V.validate (P.isFunction (Some q)) (VFun (Late q path f)) path
            = (VFun (Late q path (Late q path f)), [])).
Proof.
  split; [exact http_mockSchema_idempotent|].
  split; [intros x path c; exact (tcp_mockSchema_idempotent x path c eq_refl)|].
  split; [intros x path c; exact (httpSchema_idempotent x path c eq_refl)|].
  split; [intros x path c; exact (tcpSchema_idempotent x path c eq_refl)|].
  intros q f path. split; reflexivity.
Qed.

Lemma validate_conformed_again_witness :
  V.validate (env := Example.toy) HTTPSchema.mockSchema
    (VObj [("req", VObj [("method", VStr "GET")]);
           ("res", VObj [("body", VStr "bloop"); ("statusCode", VInt 200)])])
    ["options"]
  = (VObj [("req", VObj [("method", VStr "GET")]);
           ("res", VObj [("body", VStr "bloop"); ("statusCode", VInt 200)])],
     []).
Proof.
  apply (proj1 (@validate_conformed_again Example.toy)
           (VObj [("req", VObj [("method", VStr "GET")]);
                  ("zzz", VInt 1);
                  ("res", VObj [("body", VStr "bloop");
                                ("statusCode", VInt 200)])])
           ["options"]);
    reflexivity.
Defined.

(** * Further properties of the code *)

(** ** Request headers *)

Section HeaderFacts.
Context {env : Host}.

Lemma header_value_snoc (vs : list string) (v : string) :
  header_value (vs ++ [v])
  = match header_value vs with
    | VUndefined => VStr v
    | VStr s => VArr [VStr s; VStr v]
    | VArr xs => VArr (xs ++ [VStr v])
    | other => other
    end.
Proof.
  destruct vs as [|a [|b vs]]; simpl; try reflexivity.
  now rewrite !map_app.
Qed.

Lemma values_of_snoc (k k' v : string) (fields : list (string * string)) :
  values_of k (fields ++ [(k', v)])
  = values_of k fields ++ (if String.eqb k' k then [v] else []).
Proof.
  unfold values_of. rewrite filter_app, map_app. simpl.
  now destruct (String.eqb k' k).
Qed.

Lemma names_of_raw (fields : list (string * string)) :
  names_of (raw_of fields) = map fst fields.
Proof.
  induction fields as [|[k v] fields IH]; simpl; [reflexivity|now rewrite IH].
Qed.

Lemma headers_loop_fields (fields seen : list (string * string)) (i : nat)
    (currentKey : option string) (res : list (string * value)) :
  Nat.even i = true ->
  own_names (map fst fields) = true ->
  (forall k, assoc k res = header_value (values_of k seen)) ->
  exists res',
    HTTP.headers_loop (raw_of fields) i currentKey res = Ret res'
    /\ forall k, assoc k res' = header_value (values_of k (seen ++ fields)).
Proof.
  revert seen i currentKey res.
  induction fields as [|[k0 v0] fields IH];
    intros seen i currentKey res Hi Hown Hres.
  - exists res. split; [reflexivity|]. intros k. now rewrite app_nil_r.
  - cbn [raw_of HTTP.headers_loop]. rewrite Hi.
    assert (Hodd : Nat.even (S i) = false).
    { rewrite Nat.even_succ, <- Nat.negb_even, Hi. reflexivity. }
    rewrite Hodd.
    unfold own_names in Hown. cbn [map fst forallb] in Hown.
    apply andb_true_iff in Hown as [Hk0 Hown].
    assert (Hk : own_names [k0] = true).
    { unfold own_names. cbn [forallb]. now rewrite Hk0. }
    rewrite (read_get (VObj res) k0 Hk). cbn [get].
    assert (Hstep : forall x,
               x = header_value (values_of k0 seen ++ [v0]) ->
               exists res',
                 HTTP.headers_loop (raw_of fields) (S (S i)) (Some k0)
                   (set res k0 x) = Ret res'
                 /\ forall k, assoc k res'
                              = header_value
                                  (values_of k (seen ++ (k0, v0) :: fields))).
    { intros x Hx.
      destruct (IH (seen ++ [(k0, v0)]) (S (S i)) (Some k0) (set res k0 x))
        as (res' & Hr & Hk').
      - rewrite Nat.even_succ, <- Nat.negb_even, Hodd. reflexivity.
      - exact Hown.
      - intros k'. rewrite values_of_snoc.
        destruct (String.eqb_spec k0 k') as [<-|Hne].
        + now rewrite assoc_set_eq.
        + rewrite app_nil_r, assoc_set_neq by congruence. apply Hres.
      - exists res'. split; [exact Hr|]. intros k.
        rewrite <- app_assoc in Hk'. exact (Hk' k). }
    pose proof (Hres k0) as Hhere.
    destruct (values_of k0 seen) as [|a [|b l]];
      cbn [header_value] in Hhere; rewrite Hhere; apply Hstep.
    + reflexivity.
    + reflexivity.
    + cbn [app header_value map]. now rewrite map_app.
Qed.

Lemma headers_of_raw (req : IncomingMessage) (fields : list (string * string)) :
  rawHeaders req = raw_of fields ->
  own_names (names_of (rawHeaders req)) = true ->
  exists hs,
    HTTP.headers req = Ret hs
    /\ forall k, get hs k = header_value (values_of k fields).
Proof.
  intros Hraw Hown. unfold HTTP.headers. rewrite Hraw in *.
  rewrite names_of_raw in Hown.
  destruct (headers_loop_fields fields [] 0 None [] eq_refl Hown)
    as (res & -> & Hres); [reflexivity|].
  exists (VObj res). split; [reflexivity|exact Hres].
Qed.

Lemma nth_after (seen vs : list string) :
  nth (List.length seen) (map VStr (seen ++ vs)) VUndefined
  = match vs with
    | [] => VUndefined
    | v :: _ => VStr v
    end.
Proof.
  rewrite map_app, app_nth2 by (rewrite length_map; lia).
  rewrite length_map, Nat.sub_diag. now destruct vs.
Qed.

Lemma compare_strings_from (ds vs seen : list string) :
  all_entries
    (fun i d => truthy (compare d (nth i (map VStr (seen ++ vs)) VUndefined)))
    (List.length seen) (map VStr ds)
  = true
  <-> exists rest, vs = ds ++ rest.
Proof.
  revert vs seen. induction ds as [|d ds IH]; intros vs seen.
  - simpl. split; [intros _; now exists vs|reflexivity].
  - cbn [all_entries map]. rewrite nth_after.
    destruct vs as [|v vs].
    + cbn. split; [discriminate|intros [rest H]; discriminate].
    + cbn [compare truthy].
      destruct (String.eqb_spec d v) as [->|Hne].
      * replace (seen ++ v :: vs) with ((seen ++ [v]) ++ vs)
          by now rewrite <- app_assoc.
        replace (S (List.length seen)) with (List.length (seen ++ [v]))
          by (rewrite length_app; simpl; lia).
        rewrite IH. split; intros [rest H]; exists rest.
        -- simpl. now rewrite H.
        -- simpl in H. now injection H.
      * split; [discriminate|intros [rest H]; simpl in H; congruence].
Qed.

Lemma compare_string_arrays (ds vs : list string) :
  compare (VArr (map VStr ds)) (VArr (map VStr vs)) = VBool true
  <-> exists rest, vs = ds ++ rest.
Proof.
  rewrite <- (compare_strings_from ds vs []). simpl.
  split; [now intros [= ->]|now intros ->].
Qed.

Lemma header_value_predicates (vs : list string) :
  (forall d,
      truthy (compare (VStr d) (header_value vs)) = true <-> vs = [d])
  /\ (forall ds,
         truthy (compare (VArr (map VStr ds)) (header_value vs)) = true
         <-> (2 <= List.length vs)%nat /\ exists rest, vs = ds ++ rest)
  /\ truthy (compare VUndefined (header_value vs)) = true.
Proof.
  split; [|split].
  - intros d. destruct vs as [|a [|b vs]]; simpl.
    + split; discriminate.
    + rewrite String.eqb_eq. split; [now intros ->|now intros [= ->]].
    + split; discriminate.
  - intros ds. destruct vs as [|a [|b vs]].
    + simpl. split; [discriminate|intros [H _]; lia].
    + simpl. split; [discriminate|intros [H _]; lia].
    + change (header_value (a :: b :: vs)) with (VArr (map VStr (a :: b :: vs))).
      pose proof (compare_string_arrays ds (a :: b :: vs)) as H.
      destruct (compare (VArr (map VStr ds)) (VArr (map VStr (a :: b :: vs))))
        eqn:E; try (simpl in E; discriminate E).
      simpl truthy. split.
      * intros ->. split; [simpl; lia|now apply H].
      * intros [_ Hrest]. apply H in Hrest. now injection Hrest.
  - reflexivity.
Qed.

End HeaderFacts.

(** X1.  [headers(req)] gathers the raw header list by name: a name that
    does not occur is absent, a name that occurs once holds its value as a
    string, and a name that occurs several times holds the array of its
    values in the order of the request.  Names are told apart as they are
    written (no case folding).  The statement is about header names that
    [Object.prototype] does not define. *)
Theorem headers_collects_fields
    {env : Host} (req : IncomingMessage) (fields : list (string * string)) :
  rawHeaders req = raw_of fields ->
  own_names (names_of (rawHeaders req)) = true ->
  exists hs,
    HTTP.headers req = Ret hs
    /\ forall k,
         own_names [k] = true ->
         get hs k = header_value (values_of k fields).
Proof.
  intros Hraw Hown.
  destruct (headers_of_raw req fields Hraw Hown) as (hs & Hhs & Hk).
  exists hs. split; [exact Hhs|]. intros k _. apply Hk.
Qed.

Lemma headers_collects_fields_witness :
  exists hs,
    HTTP.headers (env := Example.toy)
      {| method := "GET"; url := "/"; httpVersion := "1.1";
         rawHeaders := ["Accept"; "a"; "Host"; "h"; "Accept"; "b"];
         headers_host := Some "h" |}
    = Ret hs
    /\ get hs "Accept" = VArr [VStr "a"; VStr "b"].
Proof.
  destruct (@headers_collects_fields Example.toy
              {| method := "GET"; url := "/"; httpVersion := "1.1";
                 rawHeaders := ["Accept"; "a"; "Host"; "h"; "Accept"; "b"];
                 headers_host := Some "h" |}
              [("Accept", "a"); ("Host", "h"); ("Accept", "b")]
              eq_refl eq_refl) as (hs & Hhs & Hk).
  exists hs. split; [exact Hhs|exact (Hk "Accept" eq_refl)].
Defined.

(** X2.  How a header predicate reads the parsed headers: a string is
    satisfied exactly when the name occurs once, with that value; an array
    of strings is satisfied exactly when the name occurs at least twice and
    the array is a prefix of its values; an absent predicate is always
    satisfied.  So a string predicate does not match a repeated header,
    and an array predicate does not match a header that occurs once. *)
Theorem header_predicates
    {env : Host} (req : IncomingMessage) (fields : list (string * string))
    (k : string) :
  rawHeaders req = raw_of fields ->
  own_names (names_of (rawHeaders req)) = true ->
  own_names [k] = true ->
  exists hs,
    HTTP.headers req = Ret hs
    /\ let actual := get hs k in
       let vs := values_of k fields in
       (forall d, truthy (compare (VStr d) actual) = true <-> vs = [d])
       /\ (forall ds,
              truthy (compare (VArr (map VStr ds)) actual) = true
              <-> (2 <= List.length vs)%nat /\ exists rest, vs = ds ++ rest)
       /\ truthy (compare VUndefined actual) = true.
Proof.
  intros Hraw Hown _.
  destruct (headers_of_raw req fields Hraw Hown) as (hs & Hhs & Hk).
  exists hs. split; [exact Hhs|]. cbv zeta. rewrite Hk.
  apply header_value_predicates.
Qed.

Lemma header_predicates_witness :
  exists hs,
    HTTP.headers (env := Example.toy)
      {| method := "GET"; url := "/"; httpVersion := "1.1";
         rawHeaders := ["Accept"; "a"; "Accept"; "b"];
         headers_host := None |}
    = Ret hs
    /\ (truthy (compare (env := Example.toy) (VStr "a") (get hs "Accept"))
        = true
        <-> [ "a"; "b" ] = [ "a" ]).
Proof.
  destruct (@header_predicates Example.toy
              {| method := "GET"; url := "/"; httpVersion := "1.1";
                 rawHeaders := ["Accept"; "a"; "Accept"; "b"];
                 headers_host := None |}
              [("Accept", "a"); ("Accept", "b")] "Accept" eq_refl eq_refl
              eq_refl) as (hs & Hhs & Hd & _).
  exists hs. split; [exact Hhs|exact (Hd "a")].
Defined.

Lemma assoc_app_skip (k k' : string) (v : value)
    (before after : list (string * value)) :
  k <> k' -> assoc k (before ++ (k', v) :: after) = assoc k (before ++ after).
Proof.
  intros Hne. induction before as [|[k0 v0] before IH]; simpl.
  - now destruct (String.eqb_spec k k').
  - now rewrite IH.
Qed.

Lemma own_app_skip (k k' : string) (v : value)
    (before after : list (string * value)) :
  k <> k' -> own k (before ++ (k', v) :: after) = own k (before ++ after).
Proof.
  intros Hne. unfold own. rewrite !existsb_app. cbn [existsb fst].
  now destruct (String.eqb_spec k k').
Qed.

(** X3.  In a map predicate a key other than [constructor] whose
    predicate is absent counts as a key that is not there, and the empty
    map is satisfied by every plain object and by nothing else.  (A map
    predicate with an own key [constructor] that does not hold [Object] is
    no plain object, and is satisfied by nothing.) *)
Theorem compare_absent_field_is_omitted
    {env : Host} (before after : list (string * value)) (k : string)
    (actual : value) :
  k <> "constructor" ->
  compare (VObj (before ++ (k, VUndefined) :: after)) actual
  = compare (VObj (before ++ after)) actual
  /\ compare (VObj []) actual = VBool (_isPlainObject actual).
Proof.
  intros Hk. split.
  - assert (Hplain :
      _isPlainObject (VObj (before ++ (k, VUndefined) :: after))
      = _isPlainObject (VObj (before ++ after))).
    { unfold _isPlainObject. cbn [read].
      rewrite own_app_skip, assoc_app_skip by congruence. reflexivity. }
    simpl. rewrite Hplain.
    destruct (_isPlainObject (VObj (before ++ after)) && _isPlainObject actual);
      [|reflexivity].
    now rewrite !forallb_app.
  - simpl. now destruct (_isPlainObject actual).
Qed.

Lemma compare_absent_field_witness :
  compare (env := Example.toy)
    (VObj [("method", VStr "GET"); ("query", VUndefined)])
    (VObj [("method", VStr "GET"); ("query", VStr "?a=1")])
  = compare (env := Example.toy)
      (VObj [("method", VStr "GET")])
      (VObj [("method", VStr "GET"); ("query", VStr "?a=1")]).
Proof.
  apply (@compare_absent_field_is_omitted Example.toy
           [("method", VStr "GET")] [] "query"
           (VObj [("method", VStr "GET"); ("query", VStr "?a=1")])).
  discriminate.
Defined.

(** ** The HTTP server *)

Section MoreHTTPFacts.
Context {env : Host}.

Lemma find_found (f : HTTP.Mock -> M value) (mocks : list HTTP.Mock)
    (k i : nat) (m : HTTP.Mock) :
  HTTP.find f k mocks = Ret (Some (i, m)) ->
  exists j v,
    i = (k + j)%nat /\ nth_error mocks j = Some m
    /\ f m = Ret v /\ truthy v = true.
Proof.
  revert k. induction mocks as [|x mocks IH]; intros k; simpl; [discriminate|].
  destruct (f x) as [v|e] eqn:Hf; simpl; [|discriminate].
  destruct (truthy v) eqn:Hv.
  - intros [= <- <-]. exists 0%nat, v.
    split; [lia|]. split; [reflexivity|]. now split.
  - intros H. destruct (IH _ H) as (j & v' & -> & Hj & Hm & Hv').
    exists (S j), v'. split; [lia|]. split; [exact Hj|]. now split.
Qed.

Lemma isMatch_truthy_pending (m : HTTP.Mock) (req : IncomingMessage)
    (body : list byte) (v : value) :
  HTTP.isMatch m req body = Ret v -> truthy v = true ->
  HTTP.isPending m = true.
Proof.
  unfold HTTP.isMatch. destruct (HTTP.isPending m); [reflexivity|].
  simpl. now intros [= <-].
Qed.

Lemma handler_changes (mocks : list HTTP.Mock) (req : IncomingMessage)
    (body : list byte) :
  fst (HTTP.handler mocks req body) = mocks
  \/ exists i m,
       nth_error mocks i = Some m /\ HTTP.isPending m = true
       /\ fst (HTTP.handler mocks req body) = update mocks i HTTP.match_.
Proof.
  unfold HTTP.handler.
  destruct (HTTP.find _ 0%nat mocks) as [[[i m]|]|e] eqn:Hfind;
    [|now left..].
  right. destruct (find_found _ _ _ _ _ Hfind) as (j & v & -> & Hj & Hm & Hv).
  exists j, m. simpl. repeat split; auto.
  now apply (isMatch_truthy_pending m req body v).
Qed.

End MoreHTTPFacts.

(** X4.  One request consumes at most one HTTP mock: the handler leaves
    the list as it was, or marks one mock, which was pending; the list
    keeps its length and its order, no mock changes its declaration, and a
    mock that has matched is never touched again. *)
Theorem http_handler_consumes_at_most_one
    {env : Host} (mocks : list HTTP.Mock) (req : IncomingMessage)
    (body : list byte) :
  let mocks' := fst (HTTP.handler mocks req body) in
  (mocks' = mocks
   \/ exists i m,
        nth_error mocks i = Some m /\ HTTP.isPending m = true
        /\ mocks' = update mocks i HTTP.match_)
  /\ List.length mocks' = List.length mocks
  /\ (forall i m,
         nth_error mocks i = Some m ->
         exists m',
           nth_error mocks' i = Some m'
           /\ HTTP.o m' = HTTP.o m
           /\ HTTP.options m' = HTTP.options m
           /\ (HTTP.done m = true -> m' = m)).
Proof.
  intros mocks'. pose proof (handler_changes mocks req body) as Hch.
  fold mocks' in Hch. split; [exact Hch|].
  destruct Hch as [->|(i & m & Hi & Hp & ->)].
  - split; [reflexivity|]. intros i m Hi. now exists m.
  - split; [apply update_length|]. intros j mj Hj.
    rewrite nth_error_update. destruct (Nat.eqb_spec i j) as [->|Hne].
    + rewrite Hj. simpl. exists (HTTP.match_ mj). repeat split.
      intros Hdone. rewrite Hi in Hj. injection Hj as ->.
      unfold HTTP.isPending in Hp. rewrite Hdone in Hp. discriminate.
    + now exists mj.
Qed.

Lemma http_handler_consumes_at_most_one_witness :
  nth_error
    (fst (HTTP.handler (env := Example.toy)
            [Example.any_done; Example.any_pending] (Example.GET "/") []))
    0
  = Some Example.any_done.
Proof.
  destruct (proj2 (proj2 (@http_handler_consumes_at_most_one Example.toy
                            [Example.any_done; Example.any_pending]
                            (Example.GET "/") []))
              0%nat Example.any_done eq_refl)
    as (m' & Hm' & _ & _ & Hdone).
  rewrite Hm'. f_equal. now apply Hdone.
Defined.



(** X6.  Registering an HTTP mock either appends one pending mock that
    holds the declaration and its conformed options, and leaves the mocks
    before it as they were, or throws a ValidationError and leaves the list
    as it was.  A declaration that is neither absent nor a plain object is
    rejected with the one message of the top-level schema. *)
Theorem http_add_appends_or_rejects
    {env : Host} (o : value) (mocks : list HTTP.Mock) :
  (snd (V.validate HTTPSchema.mockSchema o ["options"]) = [] ->
   HTTP.add o mocks
   = (mocks
      ++ [{| HTTP.o := o;
             HTTP.options :=
               HTTP.orEmpty
                 (fst (V.validate HTTPSchema.mockSchema o ["options"]));
             HTTP.done := false |}],
      Ret (List.length mocks)))
  /\ (snd (V.validate HTTPSchema.mockSchema o ["options"]) <> [] ->
      exists msg, HTTP.add o mocks = (mocks, Throw (V.ValidationError msg)))
  /\ (_isPlainObject o = false -> _isUndefined o = false ->
      HTTP.add o mocks
      = (mocks,
         Throw (V.ValidationError
                  ("Validation failed. Resolve the following issues:"
                   +++ newline
                   +++ "  * `options` if defined must be plain object (got "
                   +++ inspect o +++ ")")))).
Proof.
  split; [|split].
  - intros Hok. unfold HTTP.add, HTTP.newMock.
    destruct (V.validate HTTPSchema.mockSchema o ["options"]) as [c errors].
    simpl in Hok. subst errors. reflexivity.
  - intros Herr. destruct (conform_errors _ Herr) as [msg Hmsg].
    exists msg. unfold HTTP.add, HTTP.newMock. now rewrite Hmsg.
  - intros Hplain Hundef. unfold HTTP.add, HTTP.newMock.
    unfold HTTPSchema.mockSchema, P.branch.
    cbn [V.validate V.branch_loop combine V.r]. rewrite Hplain. cbn [null].
    rewrite Hundef. reflexivity.
Qed.

Lemma http_add_appends_or_rejects_witness :
  HTTP.add (env := Example.toy) (VStr "GET /") [Example.any_done]
  = ([Example.any_done],
     Throw (V.ValidationError
              ("Validation failed. Resolve the following issues:"
               +++ newline
               +++ "  * `options` if defined must be plain object (got ?)"))).
Proof.
  apply (proj2 (proj2 (@http_add_appends_or_rejects Example.toy
                         (VStr "GET /") [Example.any_done])));
    reflexivity.
Defined.

(** X7.  [reset] of both servers, for any argument: the mock list is
    emptied whatever the flag and whether or not the call throws; the call
    throws exactly when a mock is pending and [throwOnPending] is absent or
    truthy.  [reset(null)] fails on destructuring with a TypeError, before
    the list is touched. *)
Theorem reset_throws_iff_pending_and_flag {env : Host} (arg : value) :
  let flag :=
    match get arg "throwOnPending" with
    | VUndefined => true
    | v => truthy v
    end in
  (arg <> VNull ->
   (forall mocks,
       fst (HTTP.reset arg mocks) = []
       /\ ((exists e, snd (HTTP.reset arg mocks) = Throw e)
           <-> flag = true /\ exists m, In m mocks /\ HTTP.isPending m = true))
   /\ (forall s,
          TCP.mocks (fst (TCP.reset arg s)) = []
          /\ TCP.created (fst (TCP.reset arg s)) = TCP.created s
          /\ ((exists e, snd (TCP.reset arg s) = Throw e)
              <-> flag = true /\ TCP.pending_of s <> [])))
  /\ (forall mocks s,
         (exists message,
             HTTP.reset VNull mocks = (mocks, Throw (TypeError message)))
         /\ (exists message,
                TCP.reset VNull s = (s, Throw (TypeError message)))).
Proof.
  intros flag. split; [|intros mocks s; split; eexists; reflexivity].
  intros Hnull.
  assert (Hflag : truthy match get arg "throwOnPending" with
                         | VUndefined => VBool true
                         | v => v
                         end = flag).
  { unfold flag. now destruct (get arg "throwOnPending"). }
  split.
  - intros mocks.
    assert (Hpending : (exists m, In m mocks /\ HTTP.isPending m = true)
                       <-> filter HTTP.isPending mocks <> []).
    { split.
      - intros (m & Hm & Hp) E.
        assert (Hin : In m (filter HTTP.isPending mocks))
          by (apply filter_In; auto).
        rewrite E in Hin. contradiction.
      - destruct (filter HTTP.isPending mocks) as [|m l] eqn:E; [congruence|].
        intros _. exists m. apply filter_In. rewrite E. now left. }
    rewrite Hpending. unfold HTTP.reset.
    destruct arg; try congruence; cbn [fst snd]; (split; [reflexivity|]);
      rewrite Hflag;
      destruct (filter HTTP.isPending mocks) as [|m l]; destruct flag; simpl;
      (split; [intros [e He]; try discriminate; split; congruence
              |intros [Hf Hne]; try discriminate; try congruence;
               eexists; reflexivity]).
  - intros s. unfold TCP.reset.
    destruct arg; try congruence; cbn [fst snd TCP.mocks TCP.created];
      (split; [reflexivity|]); (split; [reflexivity|]);
      rewrite Hflag;
      destruct (TCP.pending_of s) as [|m l]; destruct flag; simpl;
      (split; [intros [e He]; try discriminate; split; congruence
              |intros [Hf Hne]; try discriminate; try congruence;
               eexists; reflexivity]).
Qed.

Lemma reset_throws_iff_pending_and_flag_witness :
  fst (HTTP.reset (env := Example.toy) (VObj [("throwOnPending", VBool false)])
         [Example.any_done; Example.any_pending])
  = [].
Proof.
  refine (proj1 (proj1 (proj1 (@reset_throws_iff_pending_and_flag Example.toy
                                 (VObj [("throwOnPending", VBool false)])) _)
                   [Example.any_done; Example.any_pending])).
  discriminate.
Defined.

(** ** The TCP server *)

Section MoreTCPFacts.
Context {env : Host}.

Lemma find_split (created : list TCP.Mock) (f : TCP.Mock -> bool)
    (mocks : list nat) (h : nat) :
  TCP.find created f mocks = Some h ->
  exists pre post m,
    mocks = pre ++ h :: post
    /\ nth_error created h = Some m
    /\ f m = true
    /\ (forall h' m', In h' pre -> nth_error created h' = Some m' ->
                      f m' = false).
Proof.
  induction mocks as [|h0 mocks IH]; simpl; [discriminate|].
  destruct (nth_error created h0) as [m0|] eqn:Hm0.
  - destruct (f m0) eqn:Hf.
    + intros [= <-]. exists [], mocks, m0. repeat split; auto.
      intros h' m' [].
    + intros H. destruct (IH H) as (pre & post & m & -> & Hm & Hfm & Hpre).
      exists (h0 :: pre), post, m. repeat split; auto.
      intros h' m' [<-|Hin] Hm'; [congruence|eauto].
  - intros H. destruct (IH H) as (pre & post & m & -> & Hm & Hfm & Hpre).
    exists (h0 :: pre), post, m. repeat split; auto.
    intros h' m' [<-|Hin] Hm'; [congruence|eauto].
Qed.

Lemma find_nothing (created : list TCP.Mock) (f : TCP.Mock -> bool)
    (mocks : list nat) :
  TCP.find created f mocks = None <->
  (forall h m, In h mocks -> nth_error created h = Some m -> f m = false).
Proof.
  induction mocks as [|h0 mocks IH]; simpl.
  - split; [intros _ h m []|reflexivity].
  - destruct (nth_error created h0) as [m0|] eqn:Hm0.
    + destruct (f m0) eqn:Hf.
      * split; [discriminate|]. intros H.
        rewrite (H h0 m0) in Hf; [discriminate|now left|exact Hm0].
      * rewrite IH. split.
        -- intros H h m [<-|Hin] Hm; [congruence|eauto].
        -- intros H h m Hin. apply H. now right.
    + rewrite IH. split.
      * intros H h m [<-|Hin] Hm; [congruence|eauto].
      * intros H h m Hin. apply H. now right.
Qed.

Lemma find_first_eligible (created : list TCP.Mock) (f : TCP.Mock -> bool)
    (pre post : list nat) (h : nat) (m : TCP.Mock) :
  nth_error created h = Some m ->
  f m = true ->
  (forall h' m', In h' pre -> nth_error created h' = Some m' ->
                 f m' = false) ->
  TCP.find created f (pre ++ h :: post) = Some h.
Proof.
  intros Hm Hf. induction pre as [|h0 pre IH]; intros Hpre; simpl.
  - now rewrite Hm, Hf.
  - destruct (nth_error created h0) as [m0|] eqn:Hm0.
    + rewrite (Hpre h0 m0); [|now left|exact Hm0].
      apply IH. intros h' m' Hin. apply Hpre. now right.
    + apply IH. intros h' m' Hin. apply Hpre. now right.
Qed.

Lemma created_match (h conn : nat) (s : TCP.MockSet) :
  TCP.created (TCP.match_ h conn s) = update (TCP.created s) h TCP.setDone.
Proof.
  unfold TCP.match_. destruct (nth_error (TCP.created s) h) eqn:Hm;
    [reflexivity|].
  cbn. revert h Hm. induction (TCP.created s) as [|x l IH]; intros [|h];
    simpl; try discriminate; auto.
  intros Hm. now rewrite <- IH.
Qed.

Lemma mocks_match (h conn : nat) (s : TCP.MockSet) :
  TCP.mocks (TCP.match_ h conn s) = TCP.mocks s.
Proof. unfold TCP.match_. now destruct (nth_error (TCP.created s) h). Qed.

(** A match writes a connection into a record only when the mock that
    matched is the head that owns the record. *)
Lemma records_match (h conn r : nat) (s : TCP.MockSet) :
  nth r (TCP.records (TCP.match_ h conn s)) None = nth r (TCP.records s) None
  \/ exists m,
       nth_error (TCP.created s) h = Some m
       /\ TCP.isHeadMock m = true
       /\ TCP.pinnedTo m = VPinned r.
Proof.
  unfold TCP.match_.
  destruct (nth_error (TCP.created s) h) as [m|] eqn:Hm; [|now left].
  cbn [TCP.records]. unfold TCP.pin.
  destruct (TCP.isHeadMock m) eqn:Hhead; [|now left].
  destruct (TCP.pinnedTo m) as [| |b|n|str|b|src|f|es|vs|r0|n|] eqn:Hp;
    try now left.
  rewrite nth_update.
  destruct (Nat.eqb_spec r0 r) as [->|Hne]; [|now left].
  right. now exists m.
Qed.

Lemma records_match_pending (h conn r c : nat) (s : TCP.MockSet)
    (m : TCP.Mock) :
  pinning_invariant s ->
  nth_error (TCP.created s) h = Some m ->
  TCP.isPending m = true ->
  nth r (TCP.records s) None = Some c ->
  nth r (TCP.records (TCP.match_ h conn s)) None = Some c.
Proof.
  intros (Hhead & _ & _) Hm Hpending Hr.
  destruct (records_match h conn r s) as [->|(m' & Hm' & Hh & Hp)];
    [exact Hr|].
  rewrite Hm in Hm'. injection Hm' as <-.
  destruct (Hhead h m Hm Hh) as (r' & Hr' & _ & Hd).
  rewrite Hp in Hr'. injection Hr' as <-.
  unfold TCP.isPending in Hpending. rewrite Hd in Hpending by congruence.
  discriminate.
Qed.

Lemma records_step (s : TCP.MockSet) (e : TCP.event) (r c : nat) :
  pinning_invariant s ->
  nth r (TCP.records s) None = Some c ->
  nth r (TCP.records (TCP.step s e)) None = Some c.
Proof.
  intros Hinv Hr.
  assert (Hadd : forall o, nth r (TCP.records (fst (TCP.add o s))) None
                           = Some c).
  { intros o. unfold TCP.add.
    destruct (TCP.newMock o (TCP.records s)) as [[m records']|e'] eqn:Hnew;
      [|exact Hr].
    destruct (newMock_made _ _ _ _ Hnew)
      as (_ & [(_ & _ & ->)|(_ & _ & -> & _)]); cbn [fst TCP.records];
      [now rewrite nth_app_None|exact Hr]. }
  destruct e as [o|h o|arg| |conn b]; cbn [TCP.step].
  - apply Hadd.
  - destruct (nth_error (TCP.created s) h); [apply Hadd|exact Hr].
  - unfold TCP.reset. now destruct arg.
  - unfold TCP.handler.
    set (s1 := {| TCP.created := TCP.created s; TCP.mocks := TCP.mocks s;
                  TCP.records := TCP.records s;
                  TCP.connections := TCP.connections s ++ [[]] |}).
    destruct (TCP.find _ _ _) as [iM|] eqn:Hfind; [|exact Hr].
    cbn [fst]. apply find_some in Hfind as (m & Hm & Hf).
    apply andb_true_iff in Hf as [_ Hp].
    apply (records_match_pending iM _ r c s1 m); auto.
  - unfold TCP.on_data.
    destruct (nth_error (TCP.connections s) conn) as [recv|]; [|exact Hr].
    set (s1 := TCP.setRecv conn (recv ++ b) s).
    destruct (TCP.find _ _ _) as [h|] eqn:Hfind; [|exact Hr].
    cbn [fst]. apply find_some in Hfind as (m & Hm & Hf).
    change (nth r (TCP.records (TCP.match_ h conn s1)) None = Some c).
    apply (records_match_pending h conn r c s1 m); auto.
    unfold TCP.isMatch in Hf.
    destruct (TCP.isInit m); [discriminate|].
    destruct (TCP.isPending m); [reflexivity|discriminate].
Qed.

Lemma created_step (s : TCP.MockSet) (e : TCP.event) (h : nat)
    (m : TCP.Mock) :
  nth_error (TCP.created s) h = Some m ->
  exists m',
    nth_error (TCP.created (TCP.step s e)) h = Some m'
    /\ (m' = m \/ (TCP.done m = false /\ m' = TCP.setDone m)).
Proof.
  intros Hm.
  assert (Hadd : forall o, exists m',
             nth_error (TCP.created (fst (TCP.add o s))) h = Some m'
             /\ (m' = m \/ (TCP.done m = false /\ m' = TCP.setDone m))).
  { intros o. exists m. split; [|now left]. unfold TCP.add.
    destruct (TCP.newMock o (TCP.records s)) as [[m0 records']|e'];
      [|exact Hm].
    cbn [fst TCP.created]. rewrite nth_error_app1; [exact Hm|].
    apply nth_error_Some. congruence. }
  assert (Hmatch : forall h' conn s1,
             TCP.created s1 = TCP.created s ->
             (exists m1, nth_error (TCP.created s1) h' = Some m1
                         /\ TCP.isPending m1 = true) ->
             exists m',
               nth_error (TCP.created (TCP.match_ h' conn s1)) h = Some m'
               /\ (m' = m \/ (TCP.done m = false /\ m' = TCP.setDone m))).
  { intros h' conn s1 Hs1 (m1 & Hm1 & Hp). rewrite created_match, Hs1.
    rewrite nth_error_update. rewrite Hs1 in Hm1.
    destruct (Nat.eqb_spec h' h) as [->|Hne].
    - rewrite Hm. simpl. exists (TCP.setDone m). split; [reflexivity|].
      right. split; [|reflexivity]. rewrite Hm in Hm1. injection Hm1 as <-.
      unfold TCP.isPending in Hp. now destruct (TCP.done m).
    - exists m. split; [exact Hm|now left]. }
  destruct e as [o|h0 o|arg| |conn b]; cbn [TCP.step].
  - apply Hadd.
  - destruct (nth_error (TCP.created s) h0); [apply Hadd|].
    exists m. split; [exact Hm|now left].
  - exists m. split; [|now left]. unfold TCP.reset. now destruct arg.
  - unfold TCP.handler.
    destruct (TCP.find _ _ _) as [iM|] eqn:Hfind; cbn [fst].
    + apply find_some in Hfind as (m1 & Hm1 & Hf).
      apply andb_true_iff in Hf as [_ Hp].
      apply Hmatch; [reflexivity|]. now exists m1.
    + exists m. split; [exact Hm|now left].
  - unfold TCP.on_data.
    destruct (nth_error (TCP.connections s) conn) as [recv|]; cbn [fst];
      [|exists m; split; [exact Hm|now left]].
    destruct (TCP.find _ _ _) as [h1|] eqn:Hfind; cbn [fst];
      [|exists m; split; [exact Hm|now left]].
    apply find_some in Hfind as (m1 & Hm1 & Hf).
    change (TCP.created (TCP.setRecv conn []
              (TCP.match_ h1 conn (TCP.setRecv conn (recv ++ b) s))))
      with (TCP.created (TCP.match_ h1 conn (TCP.setRecv conn (recv ++ b) s))).
    apply Hmatch; [reflexivity|]. exists m1. split; [exact Hm1|].
    unfold TCP.isMatch in Hf.
    destruct (TCP.isInit m1); [discriminate|].
    destruct (TCP.isPending m1); [reflexivity|discriminate].
Qed.

Lemma tcp_conformed_shape (v c : value) (path : list string) :
  _isPlainObject v = true ->
  V.validate TCPSchema.mockSchema v path = (c, []) ->
  c = VObj (fold_left (put v path) tcp_fields []).
Proof.
  intros Hv. rewrite tcp_mockSchema_plain, tcp_mockSchemaObj_eq by exact Hv.
  cbv zeta.
  set (c0 := VObj (fold_left (put v path) tcp_fields [])).
  destruct (flat_map _ tcp_fields) as [|e0 errors0]; cbn [null];
    [|discriminate].
  pose proof (exclusive_same ["init"] ["req"; "res"] c0 path) as Hsame.
  destruct (V.validate (P.exclusive ["init"] ["req"; "res"]) c0 path)
    as [c1 e1].
  simpl in Hsame. subst c1.
  destruct e1 as [|e1 errors1]; [|discriminate]. cbn [null].
  unfold TCPSchema.connectionPinned. rewrite validate_alias.
  rewrite exclusive_same. cbn [fst snd].
  destruct (null (snd (V.validate (P.exclusive ["init"] ["_pinnedTo"])
                         c0 path))).
  - cbn [null]. now intros [= <-].
  - cbn. discriminate.
Qed.

Lemma unlisted_step (s : TCP.MockSet) (e : TCP.event) (h : nat)
    (m : TCP.Mock) :
  nth_error (TCP.created s) h = Some m ->
  ~ In h (TCP.mocks s) ->
  nth_error (TCP.created (TCP.step s e)) h = Some m
  /\ ~ In h (TCP.mocks (TCP.step s e)).
Proof.
  intros Hm Hout.
  assert (Hlt : (h < List.length (TCP.created s))%nat)
    by (apply nth_error_Some; congruence).
  assert (Hadd : forall o,
             nth_error (TCP.created (fst (TCP.add o s))) h = Some m
             /\ ~ In h (TCP.mocks (fst (TCP.add o s)))).
  { intros o. unfold TCP.add.
    destruct (TCP.newMock o (TCP.records s)) as [[m0 records']|e'];
      [|now split].
    cbn [fst TCP.created TCP.mocks]. split.
    - now rewrite nth_error_app1.
    - intros [Hin|[Heq|[]]]%in_app_or; [now apply Hout|lia]. }
  assert (Hmatch : forall h' conn s1,
             TCP.created s1 = TCP.created s ->
             TCP.mocks s1 = TCP.mocks s ->
             In h' (TCP.mocks s) ->
             nth_error (TCP.created (TCP.match_ h' conn s1)) h = Some m
             /\ ~ In h (TCP.mocks (TCP.match_ h' conn s1))).
  { intros h' conn s1 Hc Hms Hin.
    rewrite created_match, mocks_match, Hc, Hms. split; [|exact Hout].
    rewrite nth_error_update_neq; [exact Hm|]. intros ->. now apply Hout. }
  destruct e as [o|h0 o|arg| |conn b]; cbn [TCP.step].
  - apply Hadd.
  - destruct (nth_error (TCP.created s) h0); [apply Hadd|now split].
  - unfold TCP.reset. destruct arg; cbn [fst TCP.created TCP.mocks];
      split; auto.
  - unfold TCP.handler.
    destruct (TCP.find _ _ _) as [iM|] eqn:Hfind; cbn [fst]; [|now split].
    destruct (find_split _ _ _ _ Hfind) as (pre & post & m1 & Hsplit & _).
    cbn [TCP.mocks] in Hsplit.
    apply Hmatch; try reflexivity. rewrite Hsplit.
    apply in_or_app. right. now left.
  - unfold TCP.on_data.
    destruct (nth_error (TCP.connections s) conn) as [recv|]; cbn [fst];
      [|now split].
    destruct (TCP.find _ _ _) as [h1|] eqn:Hfind; cbn [fst]; [|now split].
    destruct (find_split _ _ _ _ Hfind) as (pre & post & m1 & Hsplit & _).
    cbn [TCP.mocks TCP.setRecv] in Hsplit.
    change (TCP.created (TCP.setRecv conn [] ?x)) with (TCP.created x).
    change (TCP.mocks (TCP.setRecv conn [] ?x)) with (TCP.mocks x).
    apply Hmatch; try reflexivity. rewrite Hsplit.
    apply in_or_app. right. now left.
Qed.

End MoreTCPFacts.

(** X8.  A chunk on an accepted connection is matched against the whole
    buffer, the bytes received since the last match and the chunk, and
    consumes the first eligible mock in registration order: that mock is
    marked matched, no other mock changes, and the answer is resolved from
    its [res] and the buffer.  When no registered mock is eligible nothing
    is written and the buffer keeps the bytes. *)
Theorem tcp_data_consumes_first_eligible
    {env : Host} (s : TCP.MockSet) (conn : nat) (b recv : list byte) :
  nth_error (TCP.connections s) conn = Some recv ->
  let eligible m := TCP.isMatch (TCP.records s) m (recv ++ b) conn in
  match snd (fst (TCP.on_data conn b s)) with
  | Some h =>
      exists pre post m,
        TCP.mocks s = pre ++ h :: post
        /\ nth_error (TCP.created s) h = Some m
        /\ eligible m = true
        /\ (forall h' m',
               In h' pre -> nth_error (TCP.created s) h' = Some m' ->
               eligible m' = false)
        /\ TCP.created (fst (fst (TCP.on_data conn b s)))
           = update (TCP.created s) h TCP.setDone
        /\ TCP.mocks (fst (fst (TCP.on_data conn b s))) = TCP.mocks s
        /\ snd (TCP.on_data conn b s)
           = (let r := toTCPRes (get (TCP.options m) "res") (recv ++ b) in
              (if 0 <? tcp_bodyDelay r then [TCP.wait (tcp_bodyDelay r)]
               else [])
              ++ (if tcp_destroySocket r then [TCP.destroy conn]
                  else [TCP.write conn (VBuf (tcp_body r))]))
  | None =>
      (forall h m,
          In h (TCP.mocks s) -> nth_error (TCP.created s) h = Some m ->
          eligible m = false)
      /\ fst (fst (TCP.on_data conn b s)) = TCP.setRecv conn (recv ++ b) s
      /\ snd (TCP.on_data conn b s) = []
  end.
Proof.
  intros Hrecv eligible. unfold TCP.on_data. rewrite Hrecv.
  change (TCP.created (TCP.setRecv conn (recv ++ b) s)) with (TCP.created s).
  change (TCP.records (TCP.setRecv conn (recv ++ b) s)) with (TCP.records s).
  change (TCP.mocks (TCP.setRecv conn (recv ++ b) s)) with (TCP.mocks s).
  fold eligible.
  destruct (TCP.find (TCP.created s) eligible (TCP.mocks s)) as [h|] eqn:Hfind;
    cbn [fst snd].
  - destruct (find_split _ _ _ _ Hfind) as (pre & post & m & Hsplit & Hm & Hf & Hpre).
    exists pre, post, m. rewrite Hm.
    repeat match goal with |- _ /\ _ => split end; auto.
    + change (TCP.created (TCP.setRecv conn [] ?x)) with (TCP.created x).
      now rewrite created_match.
    + change (TCP.mocks (TCP.setRecv conn [] ?x)) with (TCP.mocks x).
      now rewrite mocks_match.
  - repeat split. now apply find_nothing.
Qed.

Lemma tcp_data_consumes_first_eligible_witness :
  exists pre post m,
    [0%nat; 1%nat] = pre ++ 1%nat :: post
    /\ nth_error
         (TCP.created
            (TCP.run (env := Example.toy) TCP.empty
               [TCP.Emock (VObj [("req", VStr "a")]);
                TCP.Emock (VObj [("req", VStr "b")]); TCP.Econnection]))
         1
       = Some m
    /\ TCP.done m = false.
Proof.
  destruct (@tcp_data_consumes_first_eligible Example.toy
              (TCP.run (env := Example.toy) TCP.empty
                 [TCP.Emock (VObj [("req", VStr "a")]);
                  TCP.Emock (VObj [("req", VStr "b")]); TCP.Econnection])
              0%nat ["b"%byte] [] eq_refl)
    as (pre & post & m & Hsplit & Hm & _).
  exists pre, post, m. split; [exact Hsplit|]. split; [exact Hm|].
  vm_compute in Hm. now injection Hm as <-.
Defined.

(** X9.  A new connection is given the [init] of the first pending init
    mock in registration order: its bytes are written, the mock is marked
    matched and, being a head, its record points to the new connection.
    When no init mock is pending nothing is written.  An init mock is never
    eligible for data. *)
Theorem tcp_connection_sends_first_pending_init
    {env : Host} (s : TCP.MockSet) :
  let conn := List.length (TCP.connections s) in
  let waiting m := TCP.isInit m && TCP.isPending m in
  (forall pre h post m,
      TCP.mocks s = pre ++ h :: post ->
      nth_error (TCP.created s) h = Some m ->
      waiting m = true ->
      (forall h' m',
          In h' pre -> nth_error (TCP.created s) h' = Some m' ->
          waiting m' = false) ->
      snd (TCP.handler s) = [TCP.write conn (get (TCP.options m) "init")]
      /\ TCP.created (fst (TCP.handler s))
         = update (TCP.created s) h TCP.setDone
      /\ TCP.mocks (fst (TCP.handler s)) = TCP.mocks s
      /\ TCP.connections (fst (TCP.handler s)) = TCP.connections s ++ [[]]
      /\ (forall r,
             TCP.isHeadMock m = true ->
             TCP.pinnedTo m = VPinned r ->
             (r < List.length (TCP.records s))%nat ->
             nth r (TCP.records (fst (TCP.handler s))) None = Some conn))
  /\ ((forall h m,
          In h (TCP.mocks s) -> nth_error (TCP.created s) h = Some m ->
          waiting m = false) ->
      TCP.handler s
      = ({| TCP.created := TCP.created s; TCP.mocks := TCP.mocks s;
            TCP.records := TCP.records s;
            TCP.connections := TCP.connections s ++ [[]] |}, []))
  /\ (forall records m bytes c,
         TCP.isInit m = true -> TCP.isMatch records m bytes c = false).
Proof.
  intros conn waiting. split; [|split].
  - intros pre h post m Hsplit Hm Hw Hpre.
    assert (Hfind : TCP.find (TCP.created s) waiting (TCP.mocks s) = Some h).
    { rewrite Hsplit. now apply (find_first_eligible _ _ pre post h m). }
    unfold TCP.handler. cbn [TCP.created TCP.mocks]. fold waiting.
    rewrite Hfind, Hm. cbn [fst snd].
    rewrite created_match, mocks_match, connections_match.
    repeat match goal with |- _ /\ _ => split end; auto.
    intros r Hh Hp Hlt. unfold TCP.match_. cbn [TCP.created]. rewrite Hm.
    cbn [TCP.records]. unfold TCP.pin. rewrite Hh, Hp, nth_update.
    rewrite Nat.eqb_refl. apply Nat.ltb_lt in Hlt. now rewrite Hlt.
  - intros Hnone. unfold TCP.handler. cbn [TCP.created TCP.mocks].
    fold waiting.
    now rewrite (proj2 (find_nothing _ _ _) Hnone).
  - intros records m bytes c Hinit. unfold TCP.isMatch. now rewrite Hinit.
Qed.

Lemma tcp_connection_sends_witness :
  snd (TCP.handler
         (fst (TCP.add (env := Example.toy) (VObj [("init", VStr "hi")])
                 TCP.empty)))
  = [TCP.write 0 (VStr "hi")].
Proof.
  refine (proj1 (proj1 (@tcp_connection_sends_first_pending_init Example.toy
                   (fst (TCP.add (env := Example.toy)
                           (VObj [("init", VStr "hi")]) TCP.empty)))
                 [] 0%nat [] _ eq_refl eq_refl eq_refl _)).
  intros h' m' [].
Defined.

(** X10.  A TCP mock outlives every event, [reset] included: its handle
    keeps naming a mock with the same declaration, options, role and
    pinning record, and a mock that has matched stays as it is, so
    [assertDone] on its handle keeps succeeding. *)
Theorem tcp_mocks_persist
    {env : Host} (events : list TCP.event) (s : TCP.MockSet) (h : nat)
    (m : TCP.Mock) :
  nth_error (TCP.created s) h = Some m ->
  exists m',
    nth_error (TCP.created (TCP.run s events)) h = Some m'
    /\ TCP.o m' = TCP.o m
    /\ TCP.options m' = TCP.options m
    /\ TCP.isHeadMock m' = TCP.isHeadMock m
    /\ TCP.pinnedTo m' = TCP.pinnedTo m
    /\ (TCP.done m = true -> m' = m).
Proof.
  revert s m. induction events as [|e events IH]; intros s m Hm.
  - exists m. repeat split; auto.
  - destruct (created_step s e h m Hm) as (m1 & Hm1 & Hcase).
    destruct (IH (TCP.step s e) m1 Hm1) as (m' & Hm' & Ho & Hopt & Hh & Hp & Hd).
    exists m'. split; [exact Hm'|].
    destruct Hcase as [->|[Hpending ->]]; [now repeat split|].
    repeat split; auto. intros Hdone. congruence.
Qed.

Lemma tcp_mocks_persist_witness :
  exists m',
    nth_error
      (TCP.created
         (TCP.run (env := Example.toy)
            (fst (TCP.add (env := Example.toy) (VObj [("req", VStr "a")])
                    TCP.empty))
            [TCP.Econnection; TCP.Edata 0 ["a"%byte]; TCP.Ereset (VObj [])]))
      0
    = Some m'
    /\ TCP.done m' = true.
Proof.
  destruct (@tcp_mocks_persist Example.toy
              [TCP.Econnection; TCP.Edata 0 ["a"%byte]; TCP.Ereset (VObj [])]
              (fst (TCP.add (env := Example.toy) (VObj [("req", VStr "a")])
                      TCP.empty))
              0%nat _ eq_refl) as (m' & Hm' & _).
  exists m'. split; [exact Hm'|].
  vm_compute in Hm'. injection Hm' as <-. reflexivity.
Defined.

(** X11.  In a server run from the start, a pinning record that points
    to a connection points to it for ever: a record is written only by the
    match of the head that owns it, and that head matches once. *)
Theorem tcp_pinning_is_permanent
    {env : Host} (before after : list TCP.event) (r c : nat) :
  let s := TCP.run TCP.empty before in
  nth r (TCP.records s) None = Some c ->
  nth r (TCP.records (TCP.run s after)) None = Some c.
Proof.
  intros s. assert (Hinv : pinning_invariant s)
    by apply (invariant_run before TCP.empty invariant_empty).
  clearbody s. revert s Hinv.
  induction after as [|e after IH]; intros s Hinv Hr; [exact Hr|].
  cbn [TCP.run fold_left]. apply IH.
  - now apply invariant_step.
  - now apply records_step.
Qed.

Lemma tcp_pinning_is_permanent_witness :
  nth 0
    (TCP.records
       (TCP.run (env := Example.toy)
          (TCP.run (env := Example.toy) TCP.empty
             [TCP.Emock (VObj [("req", VStr "a")]); TCP.Econnection;
              TCP.Edata 0 ["a"%byte]])
          [TCP.Econnection; TCP.Emock (VObj [("req", VStr "a")]);
           TCP.Edata 1 ["a"%byte]; TCP.Ereset (VObj [])]))
    None
  = Some 0%nat.
Proof.
  apply (@tcp_pinning_is_permanent Example.toy
           [TCP.Emock (VObj [("req", VStr "a")]); TCP.Econnection;
            TCP.Edata 0 ["a"%byte]]).
  reflexivity.
Defined.

(** X12.  [mock(o)] on the handle of a mock registers a tail mock: it is
    pending, it shares the pinning record of the mock it was made from, it
    allocates no record, it is no init mock, and while the record points to
    no connection it is eligible for nothing. *)
Theorem tcp_child_shares_record
    {env : Host} (s : TCP.MockSet) (m : TCP.Mock) (o : value) :
  TCP.pinnedTo m <> VUndefined ->
  snd (V.validate TCPSchema.mockSchema
         (VObj (set (TCP.spread o) "_pinnedTo" (TCP.pinnedTo m))) ["options"])
  = [] ->
  exists m',
    TCP.mock m o s
    = ({| TCP.created := TCP.created s ++ [m'];
          TCP.mocks := TCP.mocks s ++ [List.length (TCP.created s)];
          TCP.records := TCP.records s;
          TCP.connections := TCP.connections s |},
       Ret (List.length (TCP.created s)))
    /\ TCP.isHeadMock m' = false
    /\ TCP.pinnedTo m' = TCP.pinnedTo m
    /\ TCP.done m' = false
    /\ TCP.isInit m' = false
    /\ (TCP.connection (TCP.records s) (TCP.pinnedTo m) = None ->
        forall bytes conn, TCP.isMatch (TCP.records s) m' bytes conn = false).
Proof.
  intros Hp Hok. unfold TCP.mock, TCP.add.
  set (o' := VObj (set (TCP.spread o) "_pinnedTo" (TCP.pinnedTo m))) in *.
  assert (Hplain : _isPlainObject o' = true).
  { destruct (_isPlainObject o') eqn:Hplain; [reflexivity|]. exfalso.
    now apply (tcp_not_plain_rejected _ ["options"] Hplain). }
  destruct (V.validate TCPSchema.mockSchema o' ["options"]) as [c errors] eqn:Hv.
  simpl in Hok. subst errors.
  pose proof (tcp_conformed_shape o' c ["options"] Hplain Hv) as Hc.
  destruct (tcp_conformed_defined o' ["options"]) as (Hpin & _).
  rewrite <- Hc in Hpin.
  assert (Hpin' : get (TCP.orEmpty c) "_pinnedTo" = TCP.pinnedTo m).
  { rewrite get_orEmpty, Hpin. unfold o'. cbn [get]. apply assoc_set_eq. }
  destruct (TCP.newMock o' (TCP.records s)) as [[m' records']|e] eqn:Hnew.
  - destruct (newMock_made _ _ _ _ Hnew)
      as (Hdone & [(Hh & Hp' & ->)|(Hh & _ & -> & Hinit)]).
    + exfalso. unfold TCP.newMock in Hnew. rewrite Hv in Hnew.
      cbn [V.conform null bind] in Hnew. rewrite Hpin' in Hnew.
      destruct (TCP.pinnedTo m); try congruence;
        injection Hnew as <-; discriminate.
    + exists m'. split; [reflexivity|].
      assert (Hpm : TCP.pinnedTo m' = TCP.pinnedTo m).
      { unfold TCP.newMock in Hnew. rewrite Hv in Hnew.
        cbn [V.conform null bind] in Hnew. rewrite Hpin' in Hnew.
        destruct (TCP.pinnedTo m); try congruence;
          injection Hnew as <-; reflexivity. }
      repeat split; auto.
      intros Hnone bytes conn. unfold TCP.isMatch. rewrite Hh, Hpm, Hnone.
      now destruct (_ || _).
  - exfalso. unfold TCP.newMock in Hnew. rewrite Hv in Hnew.
    cbn [V.conform null bind] in Hnew.
    destruct (get (TCP.orEmpty c) "_pinnedTo"); discriminate.
Qed.

(** X13.  A declaration that passes validation and carries no
    [_pinnedTo] registers a head mock: it is pending and it owns a fresh
    record, which points to no connection. *)
Theorem tcp_declaration_makes_head
    {env : Host} (s : TCP.MockSet) (o : value) :
  get o "_pinnedTo" = VUndefined ->
  snd (V.validate TCPSchema.mockSchema o ["options"]) = [] ->
  exists m,
    TCP.add o s
    = ({| TCP.created := TCP.created s ++ [m];
          TCP.mocks := TCP.mocks s ++ [List.length (TCP.created s)];
          TCP.records := TCP.records s ++ [None];
          TCP.connections := TCP.connections s |},
       Ret (List.length (TCP.created s)))
    /\ TCP.o m = o
    /\ TCP.isHeadMock m = true
    /\ TCP.pinnedTo m = VPinned (List.length (TCP.records s))
    /\ TCP.done m = false
    /\ TCP.connection (TCP.records s ++ [None]) (TCP.pinnedTo m) = None.
Proof.
  intros Hp Hok. unfold TCP.add, TCP.newMock.
  destruct (V.validate TCPSchema.mockSchema o ["options"]) as [c errors] eqn:Hv.
  simpl in Hok. subst errors. cbn [V.conform null bind].
  assert (Hpin : get (TCP.orEmpty c) "_pinnedTo" = VUndefined).
  { rewrite get_orEmpty. destruct (_isPlainObject o) eqn:Hplain.
    - rewrite (tcp_conformed_shape o c ["options"] Hplain Hv).
      destruct (tcp_conformed_defined o ["options"]) as (-> & _). exact Hp.
    - rewrite tcp_mockSchema_not_plain in Hv by exact Hplain.
      injection Hv as <- _. exact Hp. }
  rewrite Hpin. eexists. split; [reflexivity|]. cbn.
  repeat split. rewrite app_nth2, Nat.sub_diag by lia. reflexivity.
Qed.

Lemma tcp_child_shares_record_witness :
  exists m',
    TCP.mock (env := Example.toy)
      {| TCP.o := VObj []; TCP.options := VObj []; TCP.done := false;
         TCP.isHeadMock := true; TCP.pinnedTo := VPinned 0 |}
      (VObj [("req", VStr "b")])
      (fst (TCP.add (env := Example.toy) (VObj []) TCP.empty))
    = (TCP.run (env := Example.toy) TCP.empty
         [TCP.Emock (VObj []); TCP.Echild 0 (VObj [("req", VStr "b")])],
       Ret 1%nat)
    /\ TCP.isHeadMock m' = false.
Proof.
  destruct (@tcp_child_shares_record Example.toy
              (fst (TCP.add (env := Example.toy) (VObj []) TCP.empty))
              {| TCP.o := VObj []; TCP.options := VObj []; TCP.done := false;
                 TCP.isHeadMock := true; TCP.pinnedTo := VPinned 0 |}
              (VObj [("req", VStr "b")]))
    as (m' & Hmock & Hh & _).
  - discriminate.
  - reflexivity.
  - exists m'. split; [|exact Hh]. rewrite Hmock.
    vm_compute in Hmock. injection Hmock as <-. reflexivity.
Defined.

Lemma tcp_declaration_makes_head_witness :
  exists m,
    TCP.add (env := Example.toy) (VObj [("req", VStr "a")]) TCP.empty
    = ({| TCP.created := [m]; TCP.mocks := [0%nat]; TCP.records := [None];
          TCP.connections := [] |}, Ret 0%nat)
    /\ TCP.isHeadMock m = true.
Proof.
  destruct (@tcp_declaration_makes_head Example.toy TCP.empty
              (VObj [("req", VStr "a")]) eq_refl eq_refl)
    as (m & Hadd & _ & Hh & _).
  exists m. split; [exact Hadd|exact Hh].
Defined.

(** X14.  A mock that is not in the list of the mock set, as every mock
    is after [reset], is never matched afterwards and never comes back into
    the list: its state stays what it was. *)
Theorem tcp_unlisted_mock_is_frozen
    {env : Host} (events : list TCP.event) (s : TCP.MockSet) (h : nat)
    (m : TCP.Mock) :
  nth_error (TCP.created s) h = Some m ->
  ~ In h (TCP.mocks s) ->
  nth_error (TCP.created (TCP.run s events)) h = Some m
  /\ ~ In h (TCP.mocks (TCP.run s events)).
Proof.
  revert s. induction events as [|e events IH]; intros s Hm Hout;
    [now split|].
  cbn [TCP.run fold_left].
  destruct (unlisted_step s e h m Hm Hout) as [Hm' Hout'].
  now apply IH.
Qed.

Lemma tcp_unlisted_mock_is_frozen_witness :
  nth_error
    (TCP.created
       (TCP.run (env := Example.toy)
          (TCP.run (env := Example.toy) TCP.empty
             [TCP.Emock (VObj [("req", VStr "a")]);
              TCP.Ereset (VObj [("throwOnPending", VBool false)])])
          [TCP.Econnection; TCP.Edata 0 ["a"%byte]]))
    0
  = Some {| TCP.o := VObj [("req", VStr "a")];
            TCP.options := VObj [("req", VStr "a")];
            TCP.done := false; TCP.isHeadMock := true;
            TCP.pinnedTo := VPinned 0 |}.
Proof.
  apply (@tcp_unlisted_mock_is_frozen Example.toy
           [TCP.Econnection; TCP.Edata 0 ["a"%byte]]).
  - reflexivity.
  - intros [].
Defined.

(** ** The validator combinators *)

Section MoreValidatorFacts.
Context {env : Host}.

Lemma defined_nil (v : value) (group : list string) :
  own_names group = true ->
  V.defined v group = [] <-> forall k, In k group -> get v k = VUndefined.
Proof.
  unfold V.defined. induction group as [|k group IH]; intros Hown.
  - simpl. split; [intros _ k []|reflexivity].
  - unfold own_names in Hown. cbn [forallb] in Hown.
    apply andb_true_iff in Hown as [Hk Hown].
    assert (Hk' : own_names [k] = true).
    { unfold own_names. cbn [forallb]. now rewrite Hk. }
    cbn [filter]. rewrite (read_get v k Hk').
    destruct (get v k) eqn:Hget; cbn [_isUndefined negb];
      try (split; [discriminate|intros H; specialize (H k (or_introl eq_refl));
                                congruence]).
    rewrite (IH Hown). split.
    + intros H k' [<-|Hin]; auto.
    + intros H k' Hin. apply H. now right.
Qed.

Lemma and_loop_failure (ps : list P.pred) (v c0 : value) (path : list string) :
  snd (V.and_loop V.validate ps v c0 path) <> [] ->
  fst (V.and_loop V.validate ps v c0 path) = v
  /\ exists pre p post c,
       ps = pre ++ p :: post
       /\ V.and_loop V.validate pre v c0 path = (c, [])
       /\ snd (V.and_loop V.validate ps v c0 path) = snd (V.validate p c path).
Proof.
  revert c0. induction ps as [|p ps IH]; intros c0; simpl; [congruence|].
  destruct (V.validate p c0 path) as [c errors] eqn:Hp.
  destruct errors as [|e errors]; cbn [null].
  - intros H. destruct (IH c H) as (Hfst & pre & q & post & c' & -> & Hpre & Hsnd).
    split; [exact Hfst|]. exists (p :: pre), q, post, c'.
    split; [reflexivity|]. split; [|exact Hsnd]. simpl. now rewrite Hp.
  - intros _. split; [reflexivity|]. exists [], p, ps, c0.
    split; [reflexivity|]. split; [reflexivity|]. now rewrite Hp.
Qed.

Lemma or_loop_first (pre post : list P.pred) (p : P.pred) (v : value)
    (path : list string) :
  (forall q, In q pre -> snd (V.validate q v path) <> []) ->
  snd (V.validate p v path) = [] ->
  V.or_loop V.validate (pre ++ p :: post) v path = Some (V.validate p v path).
Proof.
  intros Hpre Hp. induction pre as [|q pre IH]; simpl.
  - now rewrite Hp.
  - rewrite (null_false _ (Hpre q (or_introl eq_refl))).
    apply IH. intros q' Hin. apply Hpre. now right.
Qed.

Lemma or_loop_none (ps : list P.pred) (v : value) (path : list string) :
  (forall q, In q ps -> snd (V.validate q v path) <> []) ->
  V.or_loop V.validate ps v path = None.
Proof.
  induction ps as [|q ps IH]; intros Hall; simpl; [reflexivity|].
  rewrite (null_false _ (Hall q (or_introl eq_refl))).
  apply IH. intros q' Hin. apply Hall. now right.
Qed.

Lemma arr_loop_eq (p : P.pred) (vs : list value) (i : nat)
    (path : list string) (conformed : list value) (errors : list string) :
  V.arr_loop V.validate p vs i path conformed errors
  = (VArr (conformed
           ++ map (fun iv => fst (V.validate p (snd iv)
                                    (path ++ [index_string (fst iv)])))
                (combine (seq i (List.length vs)) vs)),
     errors
     ++ flat_map (fun iv => snd (V.validate p (snd iv)
                                   (path ++ [index_string (fst iv)])))
          (combine (seq i (List.length vs)) vs)).
Proof.
  revert i conformed errors.
  induction vs as [|v vs IH]; intros i conformed errors; simpl.
  - now rewrite !app_nil_r.
  - destruct (V.validate p v (path ++ [index_string i])) as [c es]. simpl.
    rewrite IH, <- !app_assoc. reflexivity.
Qed.

Lemma funcPath_snoc (path : list string) (k : string) :
  V.funcPath (path ++ [k]) = path ++ [k +++ "()"].
Proof.
  unfold V.funcPath. now rewrite removelast_last, last_last.
Qed.

End MoreValidatorFacts.

(** X15.  [exclusive(groupA, groupB)], for two groups that are not empty
    (it asserts it) and hold no name of [Object.prototype], returns its
    input; on a plain object it reports no error exactly when no key of
    one of the two groups is defined, and on anything else it reports that
    a plain object is needed. *)
Theorem exclusive_accepts_iff
    {env : Host} (groupA groupB : list string) (v : value)
    (path : list string) :
  groupA <> [] ->
  groupB <> [] ->
  own_names (groupA ++ groupB) = true ->
  fst (V.validate (P.exclusive groupA groupB) v path) = v
  /\ (_isPlainObject v = true ->
      (snd (V.validate (P.exclusive groupA groupB) v path) = []
       <-> (forall a, In a groupA -> get v a = VUndefined)
           \/ (forall b, In b groupB -> get v b = VUndefined)))
  /\ (_isPlainObject v = false ->
      snd (V.validate (P.exclusive groupA groupB) v path)
      = V.error path "must be plain object" v).
Proof.
  intros _ _ Hown. split; [apply exclusive_same|]. split.
  - unfold own_names in Hown. rewrite forallb_app in Hown.
    apply andb_true_iff in Hown as [HownA HownB].
    intros Hv. rewrite <- !defined_nil by assumption.
    cbn [V.validate]. rewrite Hv. cbn [negb]. cbv zeta.
    destruct (V.defined v groupA), (V.defined v groupB); simpl;
      (split; [intros H; try discriminate; auto
              |intros [H|H]; try discriminate; auto]).
  - intros Hv. cbn [V.validate]. now rewrite Hv.
Qed.

Lemma exclusive_accepts_iff_witness :
  snd (V.validate (env := Example.toy) (P.exclusive ["init"] ["req"; "res"])
         (VObj [("init", VStr "hi")]) ["options"])
  = [].
Proof.
  refine (proj2 (proj1 (proj2 (@exclusive_accepts_iff Example.toy ["init"]
                                 ["req"; "res"] (VObj [("init", VStr "hi")])
                                 ["options"] _ _ eq_refl)) eq_refl) _);
    try discriminate.
  right. intros b [<-|[<-|[]]]; reflexivity.
Defined.

(** X16.  When [and(...)] fails it returns the value it was given, not
    what the predicates before the failing one conformed, and its errors
    are those of the first predicate that fails, run on the value that the
    predicates before it conformed. *)
Theorem and_failure_returns_input
    {env : Host} (ps : list P.pred) (v : value) (path : list string) :
  snd (V.validate (P.and ps) v path) <> [] ->
  fst (V.validate (P.and ps) v path) = v
  /\ exists pre p post c,
       ps = pre ++ p :: post
       /\ V.validate (P.and pre) v path = (c, [])
       /\ snd (V.validate (P.and ps) v path) = snd (V.validate p c path).
Proof.
  intros Herr.
  change (V.validate (P.and ps) v path)
    with (V.and_loop V.validate ps v v path) in *.
  destruct (and_loop_failure ps v v path Herr)
    as (Hsame & pre & p & post & c & Hsplit & Hpre & Hfirst).
  split; [exact Hsame|]. exists pre, p, post, c.
  split; [exact Hsplit|]. split; [exact Hpre|exact Hfirst].
Qed.

Lemma and_failure_returns_input_witness :
  fst (V.validate (env := Example.toy)
         (P.and [P.isInteger; P.isValidStatusCode]) (VInt 5) ["statusCode"])
  = VInt 5.
Proof.
  apply (@and_failure_returns_input Example.toy
           [P.isInteger; P.isValidStatusCode] (VInt 5) ["statusCode"]).
  discriminate.
Defined.

(** X17.  [or(...)] is the result of its first predicate that reports no
    error; when all fail it returns the input with one error, which names
    the predicates and drops their own errors.  [alias] replaces the errors
    of its predicate by one error with its message. *)
Theorem or_takes_first_success {env : Host} :
  (forall pre p post v path,
      (forall q, In q pre -> snd (V.validate q v path) <> []) ->
      snd (V.validate p v path) = [] ->
      V.validate (P.or (pre ++ p :: post)) v path = V.validate p v path)
  /\ (forall ps v path,
         ps <> [] ->
         (forall q, In q ps -> snd (V.validate q v path) <> []) ->
         V.validate (P.or ps) v path
         = (v, V.error path
                 ("must satisfy one of {"
                  +++ String.concat ", " (map V.name_of ps) +++ "}") v))
  /\ (forall q message v path,
         snd (V.validate q v path) <> [] ->
         V.validate (P.alias q message) v path
         = (fst (V.validate q v path), V.error path message v)).
Proof.
  split; [|split].
  - intros pre p post v path Hpre Hp.
    change (V.validate (P.or (pre ++ p :: post)) v path)
      with (match V.or_loop V.validate (pre ++ p :: post) v path with
            | Some res => res
            | None =>
                V.r v (V.error path
                         ("must satisfy one of {"
                          +++ String.concat ", "
                                (map V.name_of (pre ++ p :: post)) +++ "}") v)
            end).
    now rewrite or_loop_first.
  - intros ps v path _ Hall.
    change (V.validate (P.or ps) v path)
      with (match V.or_loop V.validate ps v path with
            | Some res => res
            | None =>
                V.r v (V.error path
                         ("must satisfy one of {"
                          +++ String.concat ", " (map V.name_of ps) +++ "}") v)
            end).
    now rewrite or_loop_none by exact Hall.
  - intros q message v path Herr. rewrite validate_alias.
    now rewrite (null_false _ Herr).
Qed.

Lemma or_takes_first_success_witness :
  V.validate (env := Example.toy) (P.or [P.isString; P.isBuffer; P.isUndefined])
    (VBuf []) ["body"]
  = V.validate (env := Example.toy) P.isBuffer (VBuf []) ["body"].
Proof.
  apply (proj1 (@or_takes_first_success Example.toy) [P.isString] P.isBuffer
           [P.isUndefined] (VBuf []) ["body"]).
  - intros q [<-|[]]. discriminate.
  - reflexivity.
Defined.

(** X18.  On a plain object, [obj(schema)], for a schema that is not
    empty (it asserts it) and names no property of [Object.prototype],
    returns a plain object that holds the keys of the schema only: a key
    that the schema does not name is dropped, a key of the schema holds
    what its predicate conformed (and is left out when that is
    [undefined]), and the errors are those of the keys in the order of the
    schema, each under the path extended by its key. *)
Theorem obj_keeps_declared_fields_only
    {env : Host} (o : list (string * P.pred)) (v : value)
    (path : list string) :
  o <> [] ->
  NoDup (map fst o) ->
  own_names (map fst o) = true ->
  _isPlainObject v = true ->
  let c := fst (V.validate (P.obj o) v path) in
  _isPlainObject c = true
  /\ (forall k, ~ In k (map fst o) -> get c k = VUndefined)
  /\ (forall k p,
         In (k, p) o ->
         get c k = fst (V.validate p (get v k) (path ++ [k])))
  /\ snd (V.validate (P.obj o) v path)
     = flat_map
         (fun kp => snd (V.validate (snd kp) (get v (fst kp))
                           (path ++ [fst kp])))
         o.
Proof.
  intros _ Hnd Hown Hv c. unfold c. rewrite validate_obj by exact Hv.
  cbn [fst snd].
  assert (Hread : forall kp, In kp o -> read v (fst kp) = get v (fst kp)).
  { intros kp Hin. apply read_get. apply (own_names_in _ _ Hown).
    now apply in_map. }
  split; [|split; [|split]].
  - apply put_plain. apply own_names_not_in; [exact Hown|]. simpl. auto.
  - intros k Hk. cbn [get]. now rewrite assoc_put_other.
  - intros k p Hin. cbn [get].
    rewrite (assoc_put v path k p o []); [|exact Hnd|exact Hin| |reflexivity].
    + unfold field_result. cbn [fst snd].
      pose proof (Hread (k, p) Hin) as Hk. cbn [fst] in Hk.
      now rewrite Hk.
    + intros ->. apply (own_names_not_in "__proto__" _ Hown).
      * simpl. auto.
      * apply (in_map fst) in Hin. exact Hin.
  - rewrite !flat_map_concat_map. f_equal. apply map_ext_in.
    intros kp Hin. unfold field_result. now rewrite (Hread kp Hin).
Qed.

Lemma obj_keeps_declared_fields_only_witness :
  get (fst (V.validate (env := Example.toy)
              (P.obj [("port", HTTPSchema.port)])
              (VObj [("port", VInt 80); ("host", VStr "h")]) ["options"]))
    "host"
  = VUndefined.
Proof.
  refine (proj1 (proj2 (@obj_keeps_declared_fields_only Example.toy
                          [("port", HTTPSchema.port)]
                          (VObj [("port", VInt 80); ("host", VStr "h")])
                          ["options"] _ _ eq_refl eq_refl)) "host" _).
  - discriminate.
  - repeat constructor. intros [].
  - intros [[=]|[]].
Defined.

(** X19.  [arr(p)] validates an array element by element, each under
    the path extended by its index: the conformed array has the conformed
    elements in order, so the same length, and the errors are those of the
    elements in order.  Anything that is not an array is returned with the
    one error that an array is needed. *)
Theorem arr_validates_elementwise
    {env : Host} (p : P.pred) (path : list string) :
  (forall vs,
      let results :=
        map (fun iv => V.validate p (snd iv) (path ++ [index_string (fst iv)]))
          (combine (seq 0 (List.length vs)) vs) in
      V.validate (P.arr p) (VArr vs) path
      = (VArr (map fst results), flat_map snd results))
  /\ (forall vs c,
         fst (V.validate (P.arr p) (VArr vs) path) = VArr c ->
         List.length c = List.length vs)
  /\ (forall v,
         _isArray v = false ->
         V.validate (P.arr p) v path = (v, V.error path "must be array" v)).
Proof.
  assert (Heq : forall vs,
             V.validate (P.arr p) (VArr vs) path
             = (VArr (map fst
                        (map (fun iv => V.validate p (snd iv)
                                          (path ++ [index_string (fst iv)]))
                           (combine (seq 0 (List.length vs)) vs))),
                flat_map snd
                  (map (fun iv => V.validate p (snd iv)
                                    (path ++ [index_string (fst iv)]))
                     (combine (seq 0 (List.length vs)) vs)))).
  { intros vs.
    change (V.validate (P.arr p) (VArr vs) path)
      with (V.arr_loop V.validate p vs 0 path [] []).
    rewrite arr_loop_eq. cbn [app]. rewrite map_map. f_equal.
    rewrite flat_map_concat_map, flat_map_concat_map, map_map. reflexivity. }
  split; [exact Heq|]. split.
  - intros vs c. rewrite Heq. cbn [fst]. intros [= <-].
    rewrite !length_map, length_combine, length_seq. lia.
  - intros v Hv. destruct v; try reflexivity. discriminate.
Qed.

Lemma arr_validates_elementwise_witness :
  V.validate (env := Example.toy) (P.arr HTTPSchema.optComparable) (VStr "a")
    ["headers"; "accept"]
  = (VStr "a", V.error (env := Example.toy) ["headers"; "accept"]
                 "must be array" (VStr "a")).
Proof.
  apply (proj2 (proj2 (@arr_validates_elementwise Example.toy
                         HTTPSchema.optComparable ["headers"; "accept"]))).
  reflexivity.
Defined.

(** X20.  What the schemas accept for the numeric fields of a
    declaration: [statusCode] may be absent, a function, or an integer from
    100 to 599; a delay may be absent, a function, or an integer from 0 up;
    [port] may be absent or an integer from 0 up, and no function.  Any
    other value is returned with the one message of the field. *)
Theorem numeric_fields_accepted
    {env : Host} (v : value) (path : list string) :
  (snd (V.validate HTTPSchema.statusCode v path) = []
   <-> v = VUndefined \/ _isFunction v = true
       \/ exists n, v = VInt n /\ 100 <= n <= 599)
  /\ (snd (V.validate HTTPSchema.delay v path) = []
      <-> v = VUndefined \/ _isFunction v = true
          \/ exists n, v = VInt n /\ 0 <= n)
  /\ (snd (V.validate HTTPSchema.port v path) = []
      <-> v = VUndefined \/ exists n, v = VInt n /\ 0 <= n)
  /\ (snd (V.validate HTTPSchema.statusCode v path) <> [] ->
      V.validate HTTPSchema.statusCode v path
      = (v, V.error path
              "if defined must be valid HTTP status code or function returning same"
              v))
  /\ (snd (V.validate HTTPSchema.delay v path) <> [] ->
      V.validate HTTPSchema.delay v path
      = (v, V.error path
              "if defined must be positive integer or function returning same"
              v))
  /\ (snd (V.validate HTTPSchema.port v path) <> [] ->
      V.validate HTTPSchema.port v path
      = (v, V.error path "if defined must be positive integer" v)).
Proof.
  unfold HTTPSchema.statusCode, HTTPSchema.delay, HTTPSchema.port,
    HTTPSchema.isPositiveInt, P.branchWithFunction, P.branch.
  destruct v as [| |b|n|s|b|src|f|es|vs|r|n|];
    try (cbn; unfold V.error;
         repeat match goal with |- _ /\ _ => split end;
         try (intros _; reflexivity);
         try (intros H; now elim H);
         (split;
          [ try discriminate; intros _; auto
          | intros [H|[H|(? & H & _)]] || intros [H|(? & H & _)];
            try discriminate H; reflexivity ])).
  cbn. unfold V.ge, V.le, V.error. cbn.
  destruct (Z.leb_spec 100 n) as [Hlo|Hlo], (Z.leb_spec n 599) as [Hhi|Hhi],
    (Z.leb_spec 0 n) as [H0|H0]; cbn; try lia;
    repeat match goal with |- _ /\ _ => split end;
    try (intros _; reflexivity);
    try (intros H; now elim H);
    (split;
     [ try discriminate; intros _;
       try (right; right; exists n; split; [reflexivity|lia]);
       try (right; exists n; split; [reflexivity|lia])
     | intros [H|[H|(m & H & Hm)]] || intros [H|(m & H & Hm)];
       try discriminate H; try reflexivity; injection H as <-; lia ]).
Qed.

Lemma numeric_fields_accepted_witness :
  snd (V.validate (env := Example.toy) HTTPSchema.statusCode (VInt 404)
         ["options"; "res"; "statusCode"])
  = [].
Proof.
  apply (proj2 (proj1 (@numeric_fields_accepted Example.toy (VInt 404)
                         ["options"; "res"; "statusCode"]))).
  right. right. exists 404. split; [reflexivity|lia].
Defined.

(** ** Late validation, the TCP resolver and the text helper *)

Section MoreResolverFacts.
Context {env : Host}.

Lemma assoc_spread (l init : list (string * value)) (k : string) :
  NoDup (map fst l) ->
  assoc k (fold_left (fun acc kv => set acc (fst kv) (snd kv)) l init)
  = if existsb (String.eqb k) (map fst l) then assoc k l else assoc k init.
Proof.
  revert init. induction l as [|[k' v'] l IH]; intros init Hnd; simpl;
    [reflexivity|].
  inversion Hnd as [|? ? Hnotin Hnd']; subst.
  rewrite IH by exact Hnd'.
  destruct (String.eqb_spec k k') as [->|Hne]; simpl.
  - assert (Hno : existsb (String.eqb k') (map fst l) = false).
    { apply not_true_is_false. intros Hex. apply Hnotin.
      apply existsb_exists in Hex as (x & Hx & ->%String.eqb_eq). exact Hx. }
    rewrite Hno. apply assoc_set_eq.
  - destruct (existsb _ _); [reflexivity|]. now apply assoc_set_neq.
Qed.

End MoreResolverFacts.

(** X21.  What the wrapper that [isFunction(p)] returns does when it is
    called: a fault of the function passes through, and [p] is not run; a
    returned value that [p] accepts is returned conformed; a returned value
    that [p] rejects throws a ValidationError that lists the errors of [p].
    The errors are reported under the path of the field with [()] appended
    to its last segment. *)
Theorem late_validator_outcomes
    {env : Host} (q : P.pred) (path : list string) (f : func)
    (args : list arg) :
  (forall e, V.call f args = Throw e -> V.call (Late q path f) args = Throw e)
  /\ (forall v,
         V.call f args = Ret v ->
         snd (V.validate q v (V.funcPath path)) = [] ->
         V.call (Late q path f) args
         = Ret (fst (V.validate q v (V.funcPath path))))
  /\ (forall v,
         V.call f args = Ret v ->
         snd (V.validate q v (V.funcPath path)) <> [] ->
         V.call (Late q path f) args
         = Throw (V.ValidationError
                    ("Validation failed. Resolve the following issues:"
                     +++ newline
                     +++ String.concat newline
                           (map (fun e => "  * " +++ e)
                              (snd (V.validate q v (V.funcPath path)))))))
  /\ (forall k, V.funcPath (path ++ [k]) = path ++ [k +++ "()"])
  /\ V.funcPath [] = ["()"]
  /\ (forall k v,
         V.call f args = Ret v ->
         _isBoolean v = false ->
         V.call (Late P.isBoolean (path ++ [k]) f) args
         = Throw (V.ValidationError
                    ("Validation failed. Resolve the following issues:"
                     +++ newline +++ "  * `"
                     +++ String.concat "." (path ++ [k +++ "()"])
                     +++ "` must be boolean (got " +++ inspect v +++ ")"))).
Proof.
  repeat match goal with |- _ /\ _ => split end.
  - intros e He. simpl. now rewrite He.
  - intros v Hv Hok. simpl. rewrite Hv. simpl.
    destruct (V.validate q v (V.funcPath path)) as [c errors].
    simpl in Hok. now subst errors.
  - intros v Hv Herr. simpl. rewrite Hv. simpl.
    destruct (V.validate q v (V.funcPath path)) as [c errors].
    simpl in Herr. destruct errors; [congruence|reflexivity].
  - intros k. apply funcPath_snoc.
  - reflexivity.
  - intros k v Hv Hb. cbn [V.call]. rewrite Hv. cbn [bind].
    rewrite funcPath_snoc. cbn [V.validate]. rewrite Hb. reflexivity.
Qed.

Lemma late_validator_outcomes_witness :
  V.call (env := Example.toy)
    (Late P.isBoolean (["options"; "req"] ++ ["body"]) (User "yes"))
    [AVal (VBuf [])]
  = Throw (V.ValidationError
             ("Validation failed. Resolve the following issues:"
              +++ newline +++ "  * `options.req.body()"
              +++ "` must be boolean (got ?)")).
Proof.
  apply (proj2 (proj2 (proj2 (proj2 (proj2
           (@late_validator_outcomes Example.toy P.isBoolean
              ["options"; "req"] (User "yes") [AVal (VBuf [])])))))
           "body" (VStr "yes")); reflexivity.
Defined.

(** X22.  A callable field that returns a valid value at response time
    resolves to that value: a status from 100 to 599, a delay from 0 up, a
    boolean for [destroySocket], the UTF-8 encoding of a string body and a
    buffer body as it is; a callable that returns [undefined] resolves to
    the default of its field. *)
Theorem late_valid_values_are_used
    {env : Host} (f : func) (path : list string) (args : list arg)
    (v : value) :
  V.call f args = Ret v ->
  let wrapped q := fst (V.validate q (VFun f) path) in
  (forall n, v = VInt n -> 100 <= n <= 599 ->
             toStatusCode (wrapped HTTPSchema.statusCode) args = n)
  /\ (forall n, v = VInt n -> 0 <= n ->
                toDelay (wrapped HTTPSchema.delay) args = n)
  /\ (forall b, v = VBool b ->
                toDestroySocket (wrapped HTTPSchema.destroySocket) args = b)
  /\ (forall s, v = VStr s ->
                toBuffer (wrapped HTTPSchema.funcOptBufferable) args
                = utf8_encode s)
  /\ (forall b, v = VBuf b ->
                toBuffer (wrapped HTTPSchema.funcOptBufferable) args = b)
  /\ (v = VUndefined ->
      toStatusCode (wrapped HTTPSchema.statusCode) args = 200
      /\ toDelay (wrapped HTTPSchema.delay) args = 0
      /\ toDestroySocket (wrapped HTTPSchema.destroySocket) args = false
      /\ toBuffer (wrapped HTTPSchema.funcOptBufferable) args = []).
Proof.
  intros Hcall wrapped. unfold wrapped.
  unfold toStatusCode, toDelay, toDestroySocket, toBuffer.
  repeat match goal with |- _ /\ _ => split end.
  - intros n -> [Hlo Hhi]. cbn. rewrite Hcall. cbn. unfold V.ge, V.le. cbn.
    apply Z.leb_le in Hlo, Hhi. now rewrite Hlo, Hhi.
  - intros n -> Hlo. cbn. rewrite Hcall. cbn. unfold V.ge. cbn.
    apply Z.leb_le in Hlo. now rewrite Hlo.
  - intros b ->. cbn. now rewrite Hcall.
  - intros s ->. cbn. now rewrite Hcall.
  - intros b ->. cbn. now rewrite Hcall.
  - intros ->. cbn. now rewrite Hcall.
Qed.

Lemma late_valid_values_are_used_witness :
  toDestroySocket (env := Example.toy)
    (fst (V.validate (env := Example.toy) HTTPSchema.destroySocket
            (VFun (User "true")) ["options"; "res"; "destroySocket"]))
    [AVal (VBuf [])]
  = true.
Proof.
  apply (proj1 (proj2 (proj2
           (@late_valid_values_are_used Example.toy (User "true")
              ["options"; "res"; "destroySocket"] [AVal (VBuf [])]
              (VBool true) eq_refl)))).
  reflexivity.
Defined.

(** X23.  [toTCPRes]: a response that resolves to anything but a plain
    object is taken as the body, with no delay and no socket destruction; a
    plain object is read field by field; a string body is UTF-8 encoded and
    a buffer body passes as it is; an absent response and a callable that
    faults give the empty body. *)
Theorem toTCPRes_shapes {env : Host} (res : value) (req : list byte) :
  let args := [AVal (VBuf req)] in
  let v := safeInvoke res VUndefined args in
  (_isPlainObject v = false ->
   toTCPRes res req
   = {| tcp_body := toBuffer v args; tcp_bodyDelay := 0;
        tcp_destroySocket := false |})
  /\ (_isPlainObject v = true ->
      toTCPRes res req
      = {| tcp_body := toBuffer (get v "body") args;
           tcp_bodyDelay := toDelay (get v "bodyDelay") args;
           tcp_destroySocket := toDestroySocket (get v "destroySocket") args |})
  /\ (forall s, v = VStr s -> tcp_body (toTCPRes res req) = utf8_encode s)
  /\ (forall b, v = VBuf b -> tcp_body (toTCPRes res req) = b)
  /\ (res = VUndefined
      \/ (exists f e, res = VFun f /\ V.call f args = Throw e) ->
      toTCPRes res req
      = {| tcp_body := []; tcp_bodyDelay := 0; tcp_destroySocket := false |}).
Proof.
  intros args v. unfold toTCPRes. fold args. fold v.
  repeat match goal with |- _ /\ _ => split end.
  - intros Hv. rewrite Hv. reflexivity.
  - intros Hv. rewrite Hv. reflexivity.
  - intros s Hs. rewrite Hs. reflexivity.
  - intros b Hb. rewrite Hb. reflexivity.
  - intros Hres.
    assert (Hv : v = VUndefined).
    { destruct Hres as [->|(f & e & -> & He)]; [reflexivity|].
      exact (safeInvoke_throw f VUndefined args e He). }
    rewrite Hv. reflexivity.
Qed.

Lemma toTCPRes_shapes_witness :
  toTCPRes (env := Example.toy) (VFun (User "throws")) ["a"%byte]
  = {| tcp_body := []; tcp_bodyDelay := 0; tcp_destroySocket := false |}.
Proof.
  apply (proj2 (proj2 (proj2 (proj2
           (@toTCPRes_shapes Example.toy (VFun (User "throws")) ["a"%byte]))))).
  right. exists (User "throws"), Example.oops. split; reflexivity.
Defined.

(** X24.  [textRes(body, options)]: the body is the UTF-8 encoding of
    the text; the status is 200 unless the options give one; the headers
    hold [content-type: text/plain] and [content-length], the decimal
    number of bytes (not of characters) of the body, and every header of
    the options, which wins over these two; with no options the descriptor
    resolves to exactly that response.  [textRes(body, null)] throws a
    TypeError, with the message of the engine. *)
Theorem textRes_fields
    {env : Host} (body : string) (opts : value) (req : IncomingMessage)
    (reqBody : list byte) :
  let len := index_string (List.length (utf8_encode body)) in
  let defaults :=
    [("content-type", VStr "text/plain"); ("content-length", VStr len)] in
  (exists message, Helpers.textRes body VNull = Throw (TypeError message))
  /\ (opts <> VNull ->
      exists statusCode headers,
        Helpers.textRes body opts
        = Ret (VObj [("body", VBuf (utf8_encode body));
                     ("statusCode", statusCode);
                     ("headers", VObj headers)])
        /\ (get opts "statusCode" = VUndefined -> statusCode = VInt 200)
        /\ (get opts "statusCode" <> VUndefined ->
            statusCode = get opts "statusCode")
        /\ (get opts "headers" = VUndefined -> headers = defaults)
        /\ (forall hs k,
               get opts "headers" = VObj hs ->
               NoDup (map fst hs) ->
               assoc k headers
               = if existsb (String.eqb k) (map fst hs) then assoc k hs
                 else assoc k defaults)
        /\ (get opts "statusCode" = VUndefined ->
            get opts "headers" = VUndefined ->
            toHTTPRes
              (VObj [("body", VBuf (utf8_encode body));
                     ("statusCode", statusCode);
                     ("headers", VObj headers)]) req reqBody
            = {| res_body := utf8_encode body;
                 res_statusCode := 200;
                 res_headers :=
                   [("content-type", utf8_encode "text/plain");
                    ("content-length", utf8_encode len)];
                 res_headerDelay := 0;
                 res_bodyDelay := 0;
                 res_destroySocket := false |})).
Proof.
  intros len defaults. split; [eexists; reflexivity|]. intros Hnull.
  exists (match get opts "statusCode" with VUndefined => VInt 200 | v => v end),
    (fold_left (fun acc kv => set acc (fst kv) (snd kv))
       (TCP.spread match get opts "headers" with
                   | VUndefined => VObj []
                   | v => v
                   end) defaults).
  split; [now destruct opts|].
  repeat match goal with |- _ /\ _ => split end.
  - now intros ->.
  - intros H. now destruct (get opts "statusCode").
  - now intros ->.
  - intros hs k -> Hnd. cbn [TCP.spread]. now apply assoc_spread.
  - intros -> ->. reflexivity.
Qed.

Lemma textRes_fields_witness :
  exists statusCode headers,
    Helpers.textRes (env := Example.toy) "hi"
      (VObj [("statusCode", VInt 201)])
    = Ret (VObj [("body", VBuf ["h"%byte; "i"%byte]);
                 ("statusCode", statusCode);
                 ("headers", VObj headers)])
    /\ statusCode = VInt 201.
Proof.
  destruct (proj2 (@textRes_fields Example.toy "hi"
                     (VObj [("statusCode", VInt 201)]) (Example.GET "/") []))
    as (statusCode & headers & Heq & _ & Hsc & _).
  - discriminate.
  - exists statusCode, headers. split; [exact Heq|].
    apply Hsc. discriminate.
Defined.

(** ** Branches and key-value maps *)

Section MoreCombinatorFacts.
Context {env : Host}.

Lemma branch_loop_first (pre post : list (P.pred * P.pred)) (b n : P.pred)
    (v : value) (path : list string) :
  (forall x, In x pre -> snd (V.validate (fst x) v path) <> []) ->
  snd (V.validate b v path) = [] ->
  V.branch_loop V.validate (pre ++ (b, n) :: post) v path
  = Some (V.validate n (fst (V.validate b v path)) path).
Proof.
  intros Hpre Hb. induction pre as [|[b0 n0] pre IH]; simpl.
  - destruct (V.validate b v path) as [c errors]. simpl in *.
    now subst errors.
  - pose proof (Hpre (b0, n0) (or_introl eq_refl)) as H0. simpl in H0.
    destruct (V.validate b0 v path) as [c0 errors0]. simpl in H0.
    rewrite (null_false _ H0). apply IH.
    intros x Hx. apply Hpre. now right.
Qed.

Lemma branch_loop_none (bn : list (P.pred * P.pred)) (v : value)
    (path : list string) :
  (forall x, In x bn -> snd (V.validate (fst x) v path) <> []) ->
  V.branch_loop V.validate bn v path = None.
Proof.
  induction bn as [|[b0 n0] bn IH]; intros Hall; simpl; [reflexivity|].
  pose proof (Hall (b0, n0) (or_introl eq_refl)) as H0. simpl in H0.
  destruct (V.validate b0 v path) as [c0 errors0]. simpl in H0.
  rewrite (null_false _ H0). apply IH.
  intros x Hx. apply Hall. now right.
Qed.

Lemma combine_snoc {A B : Type} (l : list A) (l' : list B) (x : A) (y : B) :
  List.length l = List.length l' ->
  combine (l ++ [x]) (l' ++ [y]) = combine l l' ++ [(x, y)].
Proof.
  revert l'. induction l as [|a l IH]; intros [|b l'] Hlen; simpl in *;
    try discriminate; [reflexivity|].
  now rewrite IH by congruence.
Qed.

End MoreCombinatorFacts.

(** X25.  [branch] runs the next predicate of its first branch predicate
    that reports no error, on the value which that branch predicate
    conformed, and returns its result: the errors are then those of the
    next predicate, not the branch message.  When every branch predicate
    fails it returns the input with the one error of the branch message.
    [branchWithFunction] adds a last branch for functions: a function that
    no branch accepts is returned wrapped, with the branches as the
    predicate of what it returns. *)
Theorem branch_takes_first_branch {env : Host} :
  (forall pre b n post msg v path,
      (forall x, In x pre -> snd (V.validate (fst x) v path) <> []) ->
      snd (V.validate b v path) = [] ->
      V.validate (P.branches (pre ++ (b, n) :: post) msg) v path
      = V.validate n (fst (V.validate b v path)) path)
  /\ (forall bn msg v path,
         bn <> [] ->
         (forall x, In x bn -> snd (V.validate (fst x) v path) <> []) ->
         V.validate (P.branches bn msg) v path = (v, V.error path msg v))
  /\ (forall bs ns msg f path,
         bs <> [] ->
         List.length bs = List.length ns ->
         (forall b, In b bs -> snd (V.validate b (VFun f) path) <> []) ->
         V.validate (P.branchWithFunction bs ns msg) (VFun f) path
         = (VFun (Late (P.branch bs ns msg) path f), [])).
Proof.
  split; [|split].
  - intros pre b n post msg v path Hpre Hb.
    now rewrite validate_branches, branch_loop_first.
  - intros bn msg v path _ Hall.
    now rewrite validate_branches, branch_loop_none.
  - intros bs ns msg f path _ Hlen Hall.
    unfold P.branchWithFunction. unfold P.branch at 1.
    rewrite combine_snoc by exact Hlen.
    rewrite validate_branches, branch_loop_first; [reflexivity| |reflexivity].
    intros [b n] Hin. apply in_combine_l in Hin. now apply Hall.
Qed.

Lemma branch_takes_first_branch_witness :
  V.validate (env := Example.toy) HTTPSchema.delay (VFun (User "five"))
    ["options"; "res"; "bodyDelay"]
  = (VFun (Late (P.branch [HTTPSchema.isPositiveInt; P.isUndefined]
                   [P.always; P.always] "if defined must be positive integer")
             ["options"; "res"; "bodyDelay"] (User "five")), []).
Proof.
  apply (proj2 (proj2 (@branch_takes_first_branch Example.toy))
           [HTTPSchema.isPositiveInt; P.isUndefined] [P.always; P.always]
           "if defined must be positive integer" (User "five")
           ["options"; "res"; "bodyDelay"]).
  - discriminate.
  - reflexivity.
  - intros b [<-|[<-|[]]]; discriminate.
Defined.

(** X26.  [keyvals(always, p)], as both header schemas use it: on a plain
    object it keeps every key, in order, with the value that [p] conformed
    (a key is kept also when that value is [undefined], unlike [obj]), and
    its errors are those of the values in order, each under the path
    extended by its key; anything that is not a plain object is returned
    with the one error that a plain object is needed.  The statement is
    about keys that [Object.prototype] does not define. *)
Theorem keyvals_keeps_every_key
    {env : Host} (p : P.pred) (path : list string) :
  (forall es,
      NoDup (map fst es) ->
      own_names (map fst es) = true ->
      V.validate (P.keyvals P.always p) (VObj es) path
      = (VObj (map (fun kv =>
                      (fst kv, fst (V.validate p (snd kv) (path ++ [fst kv]))))
                 es),
         flat_map (fun kv => snd (V.validate p (snd kv) (path ++ [fst kv])))
           es))
  /\ (forall v,
         _isPlainObject v = false ->
         V.validate (P.keyvals P.always p) v path
         = (v, V.error path "must be plain object" v)).
Proof.
  split.
  - intros es Hnd Hown.
    assert (Hplain : _isPlainObject (VObj es) = true).
    { apply plain_fresh.
      destruct (own "constructor" es) eqn:Hc; [|reflexivity].
      apply own_In in Hc. exfalso.
      apply (own_names_not_in "constructor" _ Hown); [simpl; auto|exact Hc]. }
    rewrite validate_keyvals by exact Hplain. cbn [entries].
    rewrite put_value_fresh; [reflexivity|exact Hnd|].
    apply (own_names_not_in "__proto__" _ Hown). simpl. auto.
  - intros v Hv. cbn [V.validate]. now rewrite Hv.
Qed.

Lemma keyvals_keeps_every_key_witness :
  V.validate (env := Example.toy)
    (P.keyvals P.always HTTPSchema.funcOptBufferable)
    (VObj [("x-a", VStr "1"); ("x-b", VUndefined)]) ["headers"]
  = (VObj [("x-a", VStr "1"); ("x-b", VUndefined)], []).
Proof.
  apply (proj1 (@keyvals_keeps_every_key Example.toy
                  HTTPSchema.funcOptBufferable ["headers"])
           [("x-a", VStr "1"); ("x-b", VUndefined)]).
  - repeat constructor; simpl; intuition discriminate.
  - reflexivity.
Defined.
